(** * yaml-cpp: the Scanner (scanner.cpp) and the Map parser (map.cpp)

    A shallow embedding of the tokenizer [YAML::Scanner] and of the
    mapping parser [YAML::Map], and the properties stated about them.

    Conventions.
    - A C++ [int] is a [Z] in the 32-bit two's-complement range.  The
      overflow of a signed integer is undefined behaviour in C++: an
      increment past [INT_MAX] ends in [Undefined SignedOverflow].
    - A [Token *] is an address ([nat]); a nullable pointer is an
      [option].  Token objects live in a free store ([store]) that [new]
      extends and [delete] shrinks.
    - [std::queue<Token *>] is a list, front first; [std::stack<int>] is
      a list, top first; [std::set<Token *>] is a [gset].
    - Member functions are computations in the monad [M]: they read and
      write the [World] (the Scanner object and the free store) and end
      by returning, by throwing, in undefined behaviour, or not at all.
    - Every [while] loop whose exit depends on the input is unrolled at
      most [fuel] times; [Diverge] is the outcome when the bound is hit.
*)

From Stdlib Require Import ZArith Lia Sorted Ascii String.
From stdpp Require Import base tactics option list gmap sets strings.

(** ** Machine integers and characters *)

Definition INT_MAX : Z := 2147483647.
Definition INT_MIN : Z := (-2147483648)%Z.

(** [INPUT.peek()] and [INPUT.get()] return an [int]: a character or
    [EOF].  [None] stands for [EOF]; [to_char] is the conversion to
    [char] that happens when such a value is passed or assigned as a
    [char] ([EOF] is -1, so the character is 0xFF). *)
Definition to_char (c : option ascii) : ascii := default "255"%char c.

Definition newline : ascii := "010"%char.
Definition tab : ascii := "009"%char.
Definition space : ascii := " "%char.

(** ** Tokens (token.h is reached through scanner.cpp and map.cpp) *)

(** One constructor per token class instantiated in scanner.cpp. *)
Inductive TokenType : Set :=
  | StreamStartToken | StreamEndToken
  | DocumentStartToken | DocumentEndToken
  | BlockSeqStartToken | BlockMapStartToken | BlockEndToken
  | BlockEntryToken | KeyToken | ValueToken
  | FlowSeqStartToken | FlowSeqEndToken
  | FlowMapStartToken | FlowMapEndToken | FlowEntryToken
  | PlainScalarToken | QuotedScalarToken.

#[global] Instance TokenType_eq_dec : EqDecision TokenType.
Proof. solve_decision. Defined.

(** The [type] tags map.cpp switches on. *)
Abbreviation TT_BLOCK_MAP_START := BlockMapStartToken (only parsing).
Abbreviation TT_FLOW_MAP_START := FlowMapStartToken (only parsing).
Abbreviation TT_FLOW_MAP_END := FlowMapEndToken (only parsing).
Abbreviation TT_FLOW_ENTRY := FlowEntryToken (only parsing).
Abbreviation TT_BLOCK_END := BlockEndToken (only parsing).
Abbreviation TT_KEY := KeyToken (only parsing).
Abbreviation TT_VALUE := ValueToken (only parsing).

Record Token : Set := mkToken {
  type : TokenType;
  isValid : bool;
  isPossible : bool;
  value : string
}.

(** The three-state reading of the two flags, in the order
    [GetNextToken] tests them. *)
Inductive Status : Set := Tentative | Confirmed | Retracted.

Definition status (t : Token) : Status :=
  if negb (isPossible t) then Retracted
  else if negb (isValid t) then Tentative
  else Confirmed.

(** A token as its constructor leaves it.  token.h is not among the
    sources; the flags start as possible and valid, which is the state
    in which [GetNextToken] hands a token out. *)
Definition Token_ctor (T : TokenType) : Token :=
  {| type := T; isValid := true; isPossible := true; value := EmptyString |}.

(** ** The input stream ([std::istream]) *)

Record istream : Set := mkIstream {
  rest : list ascii;
  eofbit : bool;
  failbit : bool
}.

Definition istream_of (l : list ascii) : istream :=
  {| rest := l; eofbit := false; failbit := false |}.

Definition good (i : istream) : bool := negb (eofbit i) && negb (failbit i).

(** [operator bool]: the stream has not failed. *)
Definition istream_ok (i : istream) : bool := negb (failbit i).

(** [peek()]: a stream that is not good fails; at the end of the data
    the end-of-file bit is set and [EOF] returned. *)
Definition istream_peek (i : istream) : option ascii * istream :=
  if good i then
    match rest i with
    | c :: _ => (Some c, i)
    | [] => (None, {| rest := []; eofbit := true; failbit := failbit i |})
    end
  else (None, {| rest := rest i; eofbit := eofbit i; failbit := true |}).

(** [get()]: as [peek()], but the character is consumed, and reading at
    the end of the data also sets the fail bit. *)
Definition istream_get (i : istream) : option ascii * istream :=
  if good i then
    match rest i with
    | c :: r => (Some c, {| rest := r; eofbit := eofbit i; failbit := failbit i |})
    | [] => (None, {| rest := []; eofbit := true; failbit := true |})
    end
  else (None, {| rest := rest i; eofbit := eofbit i; failbit := true |}).

(** ** The Scanner object and the world around it *)

Abbreviation ptr := nat (only parsing).

Record Scanner : Type := mkScanner {
  INPUT : istream;
  m_tokens : list ptr;
  m_limboTokens : gset ptr;
  m_startedStream : bool;
  m_endedStream : bool;
  m_simpleKeyAllowed : bool;
  m_flowLevel : Z;
  m_indents : list Z;
  m_line : Z;
  m_column : Z
}.

(** scanner.cpp:9-13.  The queue, the limbo set and the indentation
    stack are default-constructed, hence empty. *)
Definition Scanner_ctor (input : istream) : Scanner :=
  {| INPUT := input; m_tokens := []; m_limboTokens := ∅;
     m_startedStream := false; m_endedStream := false;
     m_simpleKeyAllowed := false; m_flowLevel := 0;
     m_indents := []; m_line := 0; m_column := 0 |}.

Definition set_INPUT (v : istream) (s : Scanner) : Scanner :=
  mkScanner v (m_tokens s) (m_limboTokens s) (m_startedStream s) (m_endedStream s)
    (m_simpleKeyAllowed s) (m_flowLevel s) (m_indents s) (m_line s) (m_column s).
Definition set_tokens (v : list ptr) (s : Scanner) : Scanner :=
  mkScanner (INPUT s) v (m_limboTokens s) (m_startedStream s) (m_endedStream s)
    (m_simpleKeyAllowed s) (m_flowLevel s) (m_indents s) (m_line s) (m_column s).
Definition set_limboTokens (v : gset ptr) (s : Scanner) : Scanner :=
  mkScanner (INPUT s) (m_tokens s) v (m_startedStream s) (m_endedStream s)
    (m_simpleKeyAllowed s) (m_flowLevel s) (m_indents s) (m_line s) (m_column s).
Definition set_startedStream (v : bool) (s : Scanner) : Scanner :=
  mkScanner (INPUT s) (m_tokens s) (m_limboTokens s) v (m_endedStream s)
    (m_simpleKeyAllowed s) (m_flowLevel s) (m_indents s) (m_line s) (m_column s).
Definition set_endedStream (v : bool) (s : Scanner) : Scanner :=
  mkScanner (INPUT s) (m_tokens s) (m_limboTokens s) (m_startedStream s) v
    (m_simpleKeyAllowed s) (m_flowLevel s) (m_indents s) (m_line s) (m_column s).
Definition set_simpleKeyAllowed (v : bool) (s : Scanner) : Scanner :=
  mkScanner (INPUT s) (m_tokens s) (m_limboTokens s) (m_startedStream s) (m_endedStream s)
    v (m_flowLevel s) (m_indents s) (m_line s) (m_column s).
Definition set_flowLevel (v : Z) (s : Scanner) : Scanner :=
  mkScanner (INPUT s) (m_tokens s) (m_limboTokens s) (m_startedStream s) (m_endedStream s)
    (m_simpleKeyAllowed s) v (m_indents s) (m_line s) (m_column s).
Definition set_indents (v : list Z) (s : Scanner) : Scanner :=
  mkScanner (INPUT s) (m_tokens s) (m_limboTokens s) (m_startedStream s) (m_endedStream s)
    (m_simpleKeyAllowed s) (m_flowLevel s) v (m_line s) (m_column s).
Definition set_line (v : Z) (s : Scanner) : Scanner :=
  mkScanner (INPUT s) (m_tokens s) (m_limboTokens s) (m_startedStream s) (m_endedStream s)
    (m_simpleKeyAllowed s) (m_flowLevel s) (m_indents s) v (m_column s).
Definition set_column (v : Z) (s : Scanner) : Scanner :=
  mkScanner (INPUT s) (m_tokens s) (m_limboTokens s) (m_startedStream s) (m_endedStream s)
    (m_simpleKeyAllowed s) (m_flowLevel s) (m_indents s) (m_line s) v.

(** The world: the Scanner, the free store holding the live [Token]
    objects, the next address [new] hands out, and two histories that
    the program does not read: [trace], the class of every token pushed
    on [m_tokens] so far, and [cout], what [Scan] has printed. *)
Record World : Type := mkWorld {
  scanner : Scanner;
  store : gmap ptr Token;
  brk : ptr;
  trace : list TokenType;
  cout : list Token
}.

Definition set_scanner (v : Scanner) (w : World) : World :=
  mkWorld v (store w) (brk w) (trace w) (cout w).
Definition set_store (v : gmap ptr Token) (w : World) : World :=
  mkWorld (scanner w) v (brk w) (trace w) (cout w).
Definition set_brk (v : ptr) (w : World) : World :=
  mkWorld (scanner w) (store w) v (trace w) (cout w).
Definition set_trace (v : list TokenType) (w : World) : World :=
  mkWorld (scanner w) (store w) (brk w) v (cout w).
Definition set_cout (v : list Token) (w : World) : World :=
  mkWorld (scanner w) (store w) (brk w) (trace w) v.

(** A program started on [input]: a fresh Scanner, nothing allocated. *)
Definition boot (input : list ascii) : World :=
  {| scanner := Scanner_ctor (istream_of input); store := ∅; brk := 0;
     trace := []; cout := [] |}.

(** ** Outcomes and the monad of member functions *)

(** The exceptions: [UnknownToken] is thrown by scanner.cpp:219;
    [MalformedMapping] is the specification's name for a structural
    error of the mapping parser. *)
Inductive Exception : Set := UnknownToken | MalformedMapping.

(** The ways the C++ leaves defined behaviour in the modelled code. *)
Inductive Fault : Set :=
  | NullDereference      (* [p->...] with [p == 0] *)
  | DanglingPointer      (* [p->...] or [delete p] on an object not live *)
  | EmptyStackTop        (* [m_indents.top()] on an empty stack *)
  | EmptyQueueFront      (* [m_tokens.front()] on an empty queue *)
  | SignedOverflow.      (* [n++] with [n == INT_MAX] *)

Inductive Outcome (A : Type) : Type :=
  | Ret (a : A) (w : World)
  | Throw (e : Exception) (w : World)
  | Undefined (u : Fault)
  | Diverge.
Arguments Ret {A} a w.
Arguments Throw {A} e w.
Arguments Undefined {A} u.
Arguments Diverge {A}.

Definition M (A : Type) : Type := World -> Outcome A.

Definition ret {A} (a : A) : M A := fun w => Ret a w.
Definition bind {A B} (m : M A) (k : A -> M B) : M B :=
  fun w =>
    match m w with
    | Ret a w' => k a w'
    | Throw e w' => Throw e w'
    | Undefined u => Undefined u
    | Diverge => Diverge
    end.

Notation "x <- m ;; k" := (bind m (fun x => k))
  (at level 90, m at level 89, k at level 90, right associativity,
   format "'[v' x  <-  m  ;; '/' k ']'").
Notation "m ;;; k" := (bind m (fun _ => k))
  (at level 90, k at level 90, right associativity,
   format "'[v' m  ;;; '/' k ']'").

Definition throw {A} (e : Exception) : M A := fun w => Throw e w.
Definition undefined {A} (u : Fault) : M A := fun _ => Undefined u.
Definition diverge {A} : M A := fun _ => Diverge.

(** [n + 1] for an [int] [n]. *)
Definition int_incr (n : Z) : M Z :=
  if (n <? INT_MAX)%Z then ret (n + 1)%Z else undefined SignedOverflow.

Definition getS : M Scanner := fun w => Ret (scanner w) w.
Definition modS (f : Scanner -> Scanner) : M unit :=
  fun w => Ret tt (set_scanner (f (scanner w)) w).

(** [new T]: a fresh address, the object constructed there. *)
Definition new_token (T : TokenType) : M ptr :=
  fun w => Ret (brk w)
    (set_brk (S (brk w)) (set_store (<[brk w := Token_ctor T]> (store w)) w)).

(** [*p] for a non-null [p]. *)
Definition deref (p : ptr) : M Token :=
  fun w => match store w !! p with
           | Some t => Ret t w
           | None => Undefined DanglingPointer
           end.

(** [delete p] for a non-null [p]. *)
Definition delete_token (p : ptr) : M unit :=
  fun w => match store w !! p with
           | Some _ => Ret tt (set_store (delete p (store w)) w)
           | None => Undefined DanglingPointer
           end.

(** [m_tokens.push(p)], for a [p] of static class [T]. *)
Definition tokens_push (T : TokenType) (p : ptr) : M unit :=
  fun w => Ret tt
    (set_trace (trace w ++ [T])
       (set_scanner (set_tokens (m_tokens (scanner w) ++ [p]) (scanner w)) w)).

(** [m_tokens.pop()]. *)
Definition tokens_pop : M unit :=
  modS (fun s => set_tokens (tail (m_tokens s)) s).

(** [INPUT.peek()] and [INPUT.get()] on the Scanner's stream. *)
Definition INPUT_peek : M (option ascii) :=
  fun w => let '(c, i) := istream_peek (INPUT (scanner w)) in
           Ret c (set_scanner (set_INPUT i (scanner w)) w).
Definition INPUT_get : M (option ascii) :=
  fun w => let '(c, i) := istream_get (INPUT (scanner w)) in
           Ret c (set_scanner (set_INPUT i (scanner w)) w).

(** [std::cout << ...] of a token: what is printed is recorded as the
    token itself. *)
Definition print (t : Token) : M unit :=
  fun w => Ret tt (set_cout (cout w ++ [t]) w).

(** [INPUT.peek() == ch] for a character constant [ch]. *)
Definition peek_is (ch : ascii) : M bool :=
  c <- INPUT_peek ;;
  ret (match c with Some x => Ascii.eqb x ch | None => false end).

(** ** What scanner.cpp calls and does not define

    [Exp::X.Matches(INPUT)] is a trial match of a pattern of exp.h
    against the stream, which it leaves where it was; [ValidateSimpleKey]
    and the specialisations of [ScanToken<T>] are member functions
    defined in other files.  The Scanner is modelled over any choice of
    them; [ScanToken T p] receives the token [p] (of class [T]) and
    returns the pointer that is to be queued. *)
Class Collaborators : Type := {
  Exp_DocStart : istream -> bool;
  Exp_DocEnd : istream -> bool;
  Exp_BlockEntry : istream -> bool;
  Exp_Key : istream -> bool;
  Exp_KeyInFlow : istream -> bool;
  Exp_Value : istream -> bool;
  Exp_ValueInFlow : istream -> bool;
  Exp_PlainScalar : istream -> bool;
  Exp_PlainScalarInFlow : istream -> bool;
  Exp_Comment : istream -> bool;
  Exp_Break : istream -> bool;
  ValidateSimpleKey : M unit;
  ScanToken : TokenType -> ptr -> M ptr
}.

(** The indicator characters of [namespace Keys].
    Modelled from the spec: exp.h is not among the sources; section 4.1
    names the flow delimiters [[ ] { } ,], and the literal and folded
    block-scalar markers are [|] and [>]. *)
Definition Keys_FlowSeqStart : ascii := "["%char.
Definition Keys_FlowSeqEnd : ascii := "]"%char.
Definition Keys_FlowMapStart : ascii := "{"%char.
Definition Keys_FlowMapEnd : ascii := "}"%char.
Definition Keys_FlowEntry : ascii := ","%char.
Definition Keys_LiteralScalar : ascii := "|"%char.
Definition Keys_FoldedScalar : ascii := ">"%char.

(** ** scanner.cpp *)

(** scanner.cpp:76-85.  Pure in the Scanner's fields. *)
Definition IsWhitespaceToBeEaten (s : Scanner) (ch : ascii) : bool :=
  if Ascii.eqb ch space then true
  else if Ascii.eqb ch tab && ((0 <=? m_flowLevel s)%Z || negb (m_simpleKeyAllowed s))
  then true
  else false.

(** scanner.cpp:258-276. *)
Definition PushIndentTo (column : Z) (sequence : bool) : M (option ptr) :=
  s <- getS ;;
  if (0 <? m_flowLevel s)%Z then ret None
  else
    match m_indents s with
    | [] => undefined EmptyStackTop
    | top :: _ =>
        if (column <=? top)%Z then ret None
        else
          modS (fun s => set_indents (column :: m_indents s) s) ;;;
          let T := if sequence then BlockSeqStartToken else BlockMapStartToken in
          p <- new_token T ;;
          tokens_push T p ;;;
          s' <- getS ;;
          match m_tokens s' with
          | [] => undefined EmptyQueueFront
          | front :: _ => ret (Some front)
          end
    end.

(** scanner.cpp:288-291: the loop, by recursion on the stack it pops. *)
Fixpoint PopIndentTo_loop (column : Z) (indents : list Z) : M unit :=
  match indents with
  | [] => ret tt
  | top :: below =>
      if (column <? top)%Z then
        modS (set_indents below) ;;;
        p <- new_token BlockEndToken ;;
        tokens_push BlockEndToken p ;;;
        PopIndentTo_loop column below
      else ret tt
  end.

(** scanner.cpp:281-292. *)
Definition PopIndentTo (column : Z) : M unit :=
  s <- getS ;;
  if (0 <? m_flowLevel s)%Z then ret tt
  else PopIndentTo_loop column (m_indents s).

(** scanner.cpp:295-299. *)
Definition IncreaseFlowLevel : M unit :=
  s <- getS ;;
  n <- int_incr (m_flowLevel s) ;;
  modS (set_flowLevel n).

(** scanner.cpp:302-308. *)
Definition DecreaseFlowLevel : M unit :=
  s <- getS ;;
  if (0 <? m_flowLevel s)%Z
  then modS (fun s => set_flowLevel (m_flowLevel s - 1)%Z s)
  else ret tt.

(** scanner.cpp:32-41. *)
Definition GetChar : M ascii :=
  s <- getS ;;
  col <- int_incr (m_column s) ;;
  modS (set_column col) ;;;
  c <- INPUT_get ;;
  let ch := to_char c in
  (if Ascii.eqb ch newline
   then
     modS (set_column 0%Z) ;;;
     s <- getS ;;
     ln <- int_incr (m_line s) ;;
     modS (set_line ln)
   else ret tt) ;;;
  ret ch.

(** scanner.cpp:45-51 and 55-59: the counted loops. *)
Fixpoint GetChar_n (n : nat) (acc : string) : M string :=
  match n with
  | O => ret acc
  | S k => ch <- GetChar ;; GetChar_n k (acc +:+ String ch EmptyString)
  end.

Definition GetChars (n : Z) : M string := GetChar_n (Z.to_nat n) EmptyString.

Fixpoint Eat_n (n : nat) : M unit :=
  match n with
  | O => ret tt
  | S k => GetChar ;;; Eat_n k
  end.

Definition Eat (n : Z) : M unit := Eat_n (Z.to_nat n).

(** scanner.cpp:63-67. *)
Definition EatLineBreak : M unit :=
  Eat 1 ;;; modS (set_column 0%Z).

Section Scanner.
Context {C : Collaborators}.

(** [Exp::X.Matches(INPUT)]. *)
Definition Matches (re : istream -> bool) : M bool :=
  s <- getS ;; ret (re (INPUT s)).

(** scanner.cpp:88-105. *)
Definition IsDocumentStart : M bool :=
  s <- getS ;;
  if negb (m_column s =? 0)%Z then ret false else Matches Exp_DocStart.

Definition IsDocumentEnd : M bool :=
  s <- getS ;;
  if negb (m_column s =? 0)%Z then ret false else Matches Exp_DocEnd.

(** scanner.cpp:108-135. *)
Definition IsBlockEntry : M bool := Matches Exp_BlockEntry.

Definition IsKey : M bool :=
  s <- getS ;;
  if (0 <? m_flowLevel s)%Z then Matches Exp_KeyInFlow else Matches Exp_Key.

Definition IsValue : M bool :=
  s <- getS ;;
  if (0 <? m_flowLevel s)%Z then Matches Exp_ValueInFlow else Matches Exp_Value.

Definition IsPlainScalar : M bool :=
  s <- getS ;;
  if (0 <? m_flowLevel s)%Z then Matches Exp_PlainScalarInFlow
  else Matches Exp_PlainScalar.

(** scanner.cpp:144-149, called as [ScanAndEnqueue(new T)]. *)
Definition ScanAndEnqueue (T : TokenType) : M unit :=
  pToken <- new_token T ;;
  modS (fun s => set_limboTokens ({[pToken]} ∪ m_limboTokens s) s) ;;;
  q <- ScanToken T pToken ;;
  tokens_push T q ;;;
  modS (fun s => set_limboTokens (m_limboTokens s ∖ {[pToken]}) s).

(** scanner.cpp:228-229. *)
Fixpoint EatWhitespace (fuel : nat) : M unit :=
  match fuel with
  | O => diverge
  | S n =>
      c <- INPUT_peek ;;
      s <- getS ;;
      if IsWhitespaceToBeEaten s (to_char c)
      then Eat 1 ;;; EatWhitespace n
      else ret tt
  end.

(** scanner.cpp:234-235. *)
Fixpoint EatToLineBreak (fuel : nat) : M unit :=
  match fuel with
  | O => diverge
  | S n =>
      s <- getS ;;
      if negb (istream_ok (INPUT s)) then ret tt
      else
        b <- Matches Exp_Break ;;
        if b then ret tt else Eat 1 ;;; EatToLineBreak n
  end.

(** scanner.cpp:224-252.  The outer [while(1)] is unrolled [fuel]
    times, and so is each inner loop of an iteration. *)
Fixpoint ScanToNextToken_loop (fuel inner : nat) : M unit :=
  match fuel with
  | O => diverge
  | S n =>
      EatWhitespace inner ;;;
      c <- Matches Exp_Comment ;;
      (if c then EatToLineBreak inner else ret tt) ;;;
      b <- Matches Exp_Break ;;
      if negb b then ret tt
      else
        EatLineBreak ;;;
        ValidateSimpleKey ;;;
        s <- getS ;;
        (if (m_flowLevel s =? 0)%Z then modS (set_simpleKeyAllowed true) else ret tt) ;;;
        ScanToNextToken_loop n inner
  end.

Definition ScanToNextToken (fuel : nat) : M unit :=
  ScanToNextToken_loop fuel fuel.

(** scanner.cpp:154-220. *)
Definition ScanNextToken (fuel : nat) : M unit :=
  s <- getS ;;
  if m_endedStream s then ret tt
  else if negb (m_startedStream s) then ScanAndEnqueue StreamStartToken
  else
    ScanToNextToken fuel ;;;
    ValidateSimpleKey ;;;
    s <- getS ;;
    PopIndentTo (m_column s) ;;;
    c <- INPUT_peek ;;
    if negb (bool_decide (is_Some c)) then ScanAndEnqueue StreamEndToken else
    b <- IsDocumentStart ;;
    if b then ScanAndEnqueue DocumentStartToken else
    b <- IsDocumentEnd ;;
    if b then ScanAndEnqueue DocumentEndToken else
    b <- peek_is Keys_FlowSeqStart ;;
    if b then ScanAndEnqueue FlowSeqStartToken else
    b <- peek_is Keys_FlowSeqEnd ;;
    if b then ScanAndEnqueue FlowSeqEndToken else
    b <- peek_is Keys_FlowMapStart ;;
    if b then ScanAndEnqueue FlowMapStartToken else
    b <- peek_is Keys_FlowMapEnd ;;
    if b then ScanAndEnqueue FlowMapEndToken else
    b <- peek_is Keys_FlowEntry ;;
    if b then ScanAndEnqueue FlowEntryToken else
    b <- IsBlockEntry ;;
    if b then ScanAndEnqueue BlockEntryToken else
    b <- IsKey ;;
    if b then ScanAndEnqueue KeyToken else
    b <- IsValue ;;
    if b then ScanAndEnqueue ValueToken else
    b <- peek_is Keys_LiteralScalar ;;
    s <- getS ;;
    if b && (m_flowLevel s =? 0)%Z then ret tt else
    b <- peek_is Keys_FoldedScalar ;;
    s <- getS ;;
    if b && (m_flowLevel s =? 0)%Z then ret tt else
    b1 <- peek_is "'"%char ;;
    b2 <- (if b1 then ret true else peek_is "034"%char) ;;
    if b2 then ScanAndEnqueue QuotedScalarToken else
    b <- IsPlainScalar ;;
    if b then ScanAndEnqueue PlainScalarToken else
    throw UnknownToken.

(** scanner.cpp:312-348. *)
Fixpoint GetNextToken (fuel : nat) : M (option ptr) :=
  match fuel with
  | O => diverge
  | S n =>
      s <- getS ;;
      match m_tokens s with
      | p :: _ =>
          t <- deref p ;;
          if negb (isPossible t) then
            tokens_pop ;;; delete_token p ;;; GetNextToken n
          else if negb (isValid t) then
            (if m_endedStream s then ret None
             else ScanNextToken n ;;; GetNextToken n)
          else tokens_pop ;;; ret (Some p)
      | [] =>
          if m_endedStream s then ret None
          else ScanNextToken n ;;; GetNextToken n
      end
  end.

(** scanner.cpp:351-361. *)
Fixpoint Scan (fuel : nat) : M unit :=
  match fuel with
  | O => diverge
  | S n =>
      r <- GetNextToken n ;;
      match r with
      | None => ret tt
      | Some p =>
          t <- deref p ;;
          print t ;;;
          delete_token p ;;;
          Scan n
      end
  end.

End Scanner.

(** scanner.cpp:15-25: the destructor.  First the queue, front to
    back, then the limbo set. *)
Fixpoint delete_all (ps : list ptr) : M unit :=
  match ps with
  | [] => ret tt
  | p :: ps' => delete_token p ;;; delete_all ps'
  end.

Definition Scanner_dtor : M unit :=
  s <- getS ;;
  delete_all (m_tokens s) ;;;
  modS (set_tokens []) ;;;
  delete_all (elements (m_limboTokens s)).

(** ** A reference instance of the collaborators

    The definitions of this section stand for code that is not among
    the sources (exp.h, scantoken.cpp, simplekey.cpp).  They are used to
    run the Scanner on concrete inputs. *)
Module Ref.

Definition is_blank (c : ascii) : bool := Ascii.eqb c space || Ascii.eqb c tab.
Definition is_break (c : ascii) : bool := Ascii.eqb c newline.
Definition is_blank_or_break (c : ascii) : bool := is_blank c || is_break c.

Definition one_of (cs : string) (c : ascii) : bool :=
  existsb (Ascii.eqb c) (list_ascii_of_string cs).

Fixpoint starts_with (p l : list ascii) : bool :=
  match p, l with
  | [], _ => true
  | a :: p', b :: l' => Ascii.eqb a b && starts_with p' l'
  | _ :: _, [] => false
  end.

(** An indicator character followed by a blank, a break or the end of
    the input. *)
Definition indicator (cs : string) (l : list ascii) : bool :=
  match l with
  | c :: [] => one_of cs c
  | c :: d :: _ => one_of cs c && is_blank_or_break d
  | [] => false
  end.

(** The characters a plain scalar cannot start with. *)
Definition never_plain : string :=
  String "034"%char ",[]{}#&*!|>'%@`".

Definition plain_start (l : list ascii) : bool :=
  match l with
  | [] => false
  | c :: _ =>
      negb (is_blank_or_break c) && negb (one_of never_plain c)
      && negb (indicator "-?:" l)
  end.

Fixpoint after_blanks (l : list ascii) : list ascii :=
  match l with
  | c :: l' => if is_blank c then after_blanks l' else l
  | [] => []
  end.

(** What a plain scalar cannot run into: the end of the input, a line
    break, a [:] that is followed by white space and, in flow context,
    a flow delimiter. *)
Definition scalar_stop (flow : bool) (l : list ascii) : bool :=
  match l with
  | [] => true
  | c :: _ => is_break c || indicator ":" l || (flow && one_of ",[]{}" c)
  end.

(** The length of the plain scalar at the head of [l]: it ends at a
    [scalar_stop], and before white space that is followed by one or by
    a comment. *)
Fixpoint plain_length (flow : bool) (l : list ascii) : nat :=
  match l with
  | [] => O
  | c :: l' =>
      if scalar_stop flow l then O
      else if is_blank c
                && (scalar_stop flow (after_blanks l')
                    || starts_with ["#"%char] (after_blanks l'))
      then O
      else S (plain_length flow l')
  end.

(** The length of the text up to (not including) the closing [quote]. *)
Fixpoint quoted_length (quote : ascii) (l : list ascii) : nat :=
  match l with
  | [] => O
  | c :: l' => if Ascii.eqb c quote then O else S (quoted_length quote l')
  end.

(** [pToken->value = v]. *)
Definition set_value (p : ptr) (v : string) : M unit :=
  t <- deref p ;;
  fun w => Ret tt (set_store (<[p := mkToken (type t) (isValid t) (isPossible t) v]> (store w)) w).

Definition in_block (s : Scanner) : bool := (m_flowLevel s =? 0)%Z.

(** Modelled from the spec: the specialisations of [ScanToken<T>] are not
    among the sources.  Section 4.1, step 4: StreamEnd marks the stream
    ended, and does nothing else; the flow delimiters adjust FlowLevel
    on entry and exit; the block-entry marker pushes a block-sequence
    indentation and the key indicator a block-map indentation if the
    column is deeper than the current top; a scalar token carries its
    text.  Section 3: the indentation stack has a sentinel bottom value,
    pushed here when the stream starts since the constructor leaves the
    stack empty, and SimpleKeyAllowed is true only right after a line
    start or a block indicator. *)
Definition ScanToken_ref (T : TokenType) (pToken : ptr) : M ptr :=
  match T with
  | StreamStartToken =>
      modS (fun s => set_indents ((-1)%Z :: m_indents s)
                       (set_simpleKeyAllowed true (set_startedStream true s))) ;;;
      ret pToken
  | StreamEndToken =>
      modS (set_endedStream true) ;;;
      ret pToken
  | DocumentStartToken | DocumentEndToken =>
      modS (set_simpleKeyAllowed false) ;;;
      Eat 3 ;;;
      ret pToken
  | FlowSeqStartToken | FlowMapStartToken =>
      IncreaseFlowLevel ;;;
      modS (set_simpleKeyAllowed false) ;;;
      Eat 1 ;;;
      ret pToken
  | FlowSeqEndToken | FlowMapEndToken =>
      DecreaseFlowLevel ;;;
      modS (set_simpleKeyAllowed false) ;;;
      Eat 1 ;;;
      ret pToken
  | FlowEntryToken =>
      modS (set_simpleKeyAllowed false) ;;;
      Eat 1 ;;;
      ret pToken
  | BlockEntryToken =>
      s <- getS ;;
      PushIndentTo (m_column s) true ;;;
      modS (fun s => set_simpleKeyAllowed (in_block s) s) ;;;
      Eat 1 ;;;
      ret pToken
  | KeyToken =>
      s <- getS ;;
      PushIndentTo (m_column s) false ;;;
      modS (fun s => set_simpleKeyAllowed (in_block s) s) ;;;
      Eat 1 ;;;
      ret pToken
  | ValueToken =>
      modS (fun s => set_simpleKeyAllowed (in_block s) s) ;;;
      Eat 1 ;;;
      ret pToken
  | QuotedScalarToken =>
      modS (set_simpleKeyAllowed false) ;;;
      q <- GetChar ;;
      s <- getS ;;
      v <- GetChars (Z.of_nat (quoted_length q (rest (INPUT s)))) ;;
      Eat 1 ;;;
      set_value pToken v ;;;
      ret pToken
  | PlainScalarToken =>
      modS (set_simpleKeyAllowed false) ;;;
      s <- getS ;;
      v <- GetChars (Z.of_nat (plain_length (0 <? m_flowLevel s)%Z (rest (INPUT s)))) ;;
      set_value pToken v ;;;
      ret pToken
  | BlockSeqStartToken | BlockMapStartToken | BlockEndToken =>
      ret pToken  (* never scanned: these are queued by PushIndentTo/PopIndentTo *)
  end.

(** Modelled from the spec: exp.h, simplekey.cpp and scantoken.cpp are
    not among the sources.  The patterns follow section 4.1: [---] and
    [...] are the document markers, [-], [?] and [:] are the block-entry,
    key and value indicators when white space or the end of the input
    follows, [#] starts a comment and a line feed is a line break.
    [ValidateSimpleKey] retracts a pending candidate simple key; how
    far a candidacy reaches is left open by the specification (section
    9, first open question), so this instance proposes none and has
    nothing to retract: a key is recognised at the key indicator only. *)
#[global] Instance collaborators : Collaborators := {|
  Exp_DocStart i := starts_with (list_ascii_of_string "---") (rest i);
  Exp_DocEnd i := starts_with (list_ascii_of_string "...") (rest i);
  Exp_BlockEntry i := indicator "-" (rest i);
  Exp_Key i := indicator "?" (rest i);
  Exp_KeyInFlow i := indicator "?" (rest i);
  Exp_Value i := indicator ":" (rest i);
  Exp_ValueInFlow i := indicator ":" (rest i);
  Exp_PlainScalar i := plain_start (rest i);
  Exp_PlainScalarInFlow i := plain_start (rest i);
  Exp_Comment i := starts_with ["#"%char] (rest i);
  Exp_Break i := starts_with [newline] (rest i);
  ValidateSimpleKey := ret tt;
  ScanToken := ScanToken_ref
|}.

(** The world after [Scan()] on [input], if it returns. *)
Definition run_Scan (fuel : nat) (input : string) : Outcome unit :=
  Scan fuel (boot (list_ascii_of_string input)).

Definition printed {A} (o : Outcome A) : option (list (TokenType * string)) :=
  match o with
  | Ret _ w => Some (map (fun t => (type t, value t)) (cout w))
  | _ => None
  end.

End Ref.


(** ** map.cpp *)

(** What a parsed node holds (section 3 of the specification). *)
#[warnings="-register-all"]
Inductive Node : Type :=
  | Node_null
  | Node_scalar (text : string)
  | Node_seq (items : list Node)
  | Node_map (entries : list (Node * Node)).

(** What map.cpp calls and does not define: three member functions of
    the Scanner and [Node::Parse], which returns here what the node it
    is called on holds afterwards. *)
Class ParserDeps : Type := {
  PeekNextToken : nat -> M (option ptr);
  PopNextToken : nat -> M unit;
  EatNextToken : nat -> M unit;
  Node_Parse : nat -> M Node
}.

Section Map.
Context {C : Collaborators} {P : ParserDeps}.

(** map.cpp:461 and 495:
    [PeekNextToken() && PeekNextToken()->type == TT_VALUE]. *)
Definition next_is_value (n : nat) : M bool :=
  r1 <- PeekNextToken n ;;
  match r1 with
  | None => ret false
  | Some _ =>
      r2 <- PeekNextToken n ;;
      match r2 with
      | None => undefined NullDereference
      | Some p => t <- deref p ;; ret (bool_decide (type t = TT_VALUE))
      end
  end.

(** map.cpp:453-464 and 487-498: a key node and a value node are
    created and entered in [m_data], then the key is parsed and, if a
    Value token follows, the value.  [m_data] is a container keyed by
    the address of the key node; the key is newly allocated, so
    [m_data[pKey] = pValue] adds a pair and replaces none.  The list
    holds the pairs of the container, each entry once, with the contents
    of the two nodes; the order of the list is not the order in which
    the container is iterated (by key address), and what is proved of
    [m_data] does not depend on it.  When an exception passes through,
    the map under construction is not part of the outcome. *)
Definition parse_entry (n : nat) (m_data : list (Node * Node)) : M (list (Node * Node)) :=
  key <- Node_Parse n ;;
  v <- next_is_value n ;;
  if v then
    PopNextToken n ;;;
    val <- Node_Parse n ;;
    ret (m_data ++ [(key, val)])
  else ret (m_data ++ [(key, Node_null)]).

(** map.cpp:439-466. *)
Fixpoint ParseBlock (fuel : nat) (m_data : list (Node * Node)) : M (list (Node * Node)) :=
  match fuel with
  | O => diverge
  | S n =>
      pToken <- PeekNextToken n ;;
      match pToken with
      | None => ret m_data
      | Some p =>
          t <- deref p ;;
          if negb (bool_decide (type t = TT_KEY)) && negb (bool_decide (type t = TT_BLOCK_END))
          then ret m_data
          else
            PopNextToken n ;;;
            t' <- deref p ;;
            if bool_decide (type t' = TT_BLOCK_END) then ret m_data
            else
              m' <- parse_entry n m_data ;;
              ParseBlock n m'
      end
  end.

(** map.cpp:500-505: [true] when the loop goes on, [false] on [break]. *)
Definition ParseFlow_separator (n : nat) : M bool :=
  pToken <- PeekNextToken n ;;
  match pToken with
  | None => undefined NullDereference
  | Some p =>
      t <- deref p ;;
      if bool_decide (type t = TT_FLOW_ENTRY) then EatNextToken n ;;; ret true
      else if negb (bool_decide (type t = TT_FLOW_MAP_END)) then ret false
      else ret true
  end.

(** map.cpp:468-507. *)
Fixpoint ParseFlow (fuel : nat) (m_data : list (Node * Node)) : M (list (Node * Node)) :=
  match fuel with
  | O => diverge
  | S n =>
      pToken <- PeekNextToken n ;;
      match pToken with
      | None => ret m_data
      | Some p =>
          t <- deref p ;;
          if bool_decide (type t = TT_FLOW_MAP_END) then EatNextToken n ;;; ret m_data
          else if negb (bool_decide (type t = TT_KEY)) then ret m_data
          else
            PopNextToken n ;;;
            m' <- parse_entry n m_data ;;
            go <- ParseFlow_separator n ;;
            if go then ParseFlow n m' else ret m'
      end
  end.

(** map.cpp:426-437. *)
Definition Map_Parse (fuel : nat) (m_data : list (Node * Node)) : M (list (Node * Node)) :=
  pToken <- GetNextToken fuel ;;
  match pToken with
  | None => undefined NullDereference
  | Some p =>
      t <- deref p ;;
      m' <- match type t with
            | TT_BLOCK_MAP_START => ParseBlock fuel m_data
            | TT_FLOW_MAP_START => ParseFlow fuel m_data
            | _ => ret m_data
            end ;;
      delete_token p ;;;
      ret m'
  end.

End Map.

(** ** A reference instance of what map.cpp calls *)
Module RefParser.
Import Ref.

(** Modelled from the spec: [PeekNextToken] is not among the sources.
    Section 4.1: it inspects the front queue token, scanning more input
    when there is none; like [GetNextToken] it drops retracted tokens and
    waits on tentative ones, and an absent return signals the end of the
    stream. *)
Fixpoint PeekNextToken_ref (fuel : nat) : M (option ptr) :=
  match fuel with
  | O => diverge
  | S n =>
      s <- getS ;;
      match m_tokens s with
      | p :: _ =>
          t <- deref p ;;
          if negb (isPossible t) then
            tokens_pop ;;; delete_token p ;;; PeekNextToken_ref n
          else if negb (isValid t) then
            (if m_endedStream s then ret None
             else ScanNextToken n ;;; PeekNextToken_ref n)
          else ret (Some p)
      | [] =>
          if m_endedStream s then ret None
          else ScanNextToken n ;;; PeekNextToken_ref n
      end
  end.

(** Modelled from the spec: [PopNextToken] is not among the sources.
    Section 4.1: it removes the front token and discards it.  The
    pointer is dropped and the object left alone, since map.cpp:449-450
    reads the token after popping it. *)
Definition PopNextToken_ref (fuel : nat) : M unit :=
  GetNextToken fuel ;;; ret tt.

(** Modelled from the spec: [EatNextToken] is not among the sources and
    the specification does not name it; map.cpp calls it on the tokens
    it has no further use for, so it removes the front token and
    destroys it. *)
Definition EatNextToken_ref (fuel : nat) : M unit :=
  r <- GetNextToken fuel ;;
  match r with
  | Some p => delete_token p
  | None => ret tt
  end.

(** Modelled from the spec: [Node::Parse] is not among the sources.
    Section 4.2: it peeks the next token and dispatches by kind to Map
    parsing or to direct scalar storage (sequences, which are parsed by
    code that is not among the sources either, are left unparsed).
    [depth] bounds the nesting of maps. *)
Fixpoint Node_Parse_ref (depth fuel : nat) : M Node :=
  match depth with
  | O => diverge
  | S d =>
      r <- PeekNextToken_ref fuel ;;
      match r with
      | None => ret Node_null
      | Some p =>
          t <- deref p ;;
          match type t with
          | PlainScalarToken | QuotedScalarToken =>
              EatNextToken_ref fuel ;;; ret (Node_scalar (value t))
          | BlockMapStartToken | FlowMapStartToken =>
              m <- Map_Parse
                     (P := {| PeekNextToken := PeekNextToken_ref;
                              PopNextToken := PopNextToken_ref;
                              EatNextToken := EatNextToken_ref;
                              Node_Parse := Node_Parse_ref d |})
                     fuel [] ;;
              ret (Node_map m)
          | _ => ret Node_null
          end
      end
  end.

#[global] Instance parser_deps (depth : nat) : ParserDeps := {|
  PeekNextToken := PeekNextToken_ref;
  PopNextToken := PopNextToken_ref;
  EatNextToken := EatNextToken_ref;
  Node_Parse := Node_Parse_ref depth
|}.

(** A document that is one mapping: the driver takes the StreamStart
    token off the queue and destroys it, then parses a Map. *)
Definition parse_map (depth fuel : nat) (input : string) : Outcome (list (Node * Node)) :=
  (EatNextToken_ref fuel ;;; Map_Parse (P := parser_deps depth) fuel [])
    (boot (list_ascii_of_string input)).

End RefParser.

(** ** Reasoning about computations *)

(** Partial correctness: if [m] returns, [Q] holds of the result and the
    world; if it throws, [E] holds. *)
Definition hoare {A} (P : World -> Prop) (m : M A)
    (Q : A -> World -> Prop) (E : Exception -> World -> Prop) : Prop :=
  forall w, P w ->
    match m w with
    | Ret a w' => Q a w'
    | Throw e w' => E e w'
    | Undefined _ | Diverge => True
    end.

(** [m] keeps [I], whether it returns or throws. *)
Definition keeps {A} (I : World -> Prop) (m : M A) : Prop :=
  hoare I m (fun _ => I) (fun _ => I).

(** [m] relates the world it starts in to the world it ends in by [R]. *)
Definition frames {A} (R : World -> World -> Prop) (m : M A) : Prop :=
  forall w,
    match m w with
    | Ret _ w' | Throw _ w' => R w w'
    | Undefined _ | Diverge => True
    end.

(** The world an outcome ends in. *)
Definition ends_in {A} (o : Outcome A) (w' : World) : Prop :=
  match o with
  | Ret _ w | Throw _ w => w = w'
  | Undefined _ | Diverge => False
  end.

(** Two worlds that differ at most in the reading position: the
    stream, the line and column counters and the simple-key flag. *)
Definition cursor_eq (w w' : World) : Prop :=
  store w = store w' /\ brk w = brk w' /\ trace w = trace w' /\ cout w = cout w'
  /\ m_tokens (scanner w) = m_tokens (scanner w')
  /\ m_limboTokens (scanner w) = m_limboTokens (scanner w')
  /\ m_startedStream (scanner w) = m_startedStream (scanner w')
  /\ m_endedStream (scanner w) = m_endedStream (scanner w')
  /\ m_flowLevel (scanner w) = m_flowLevel (scanner w')
  /\ m_indents (scanner w) = m_indents (scanner w')
  /\ ((0 <= m_column (scanner w))%Z -> (0 <= m_column (scanner w'))%Z).

(** ** Invariants, and what they ask of the collaborators *)

(** The indentation stack (top first) is strictly increasing from the
    bottom to the top. *)
Definition increasing (indents : list Z) : Prop :=
  StronglySorted (fun above below => (below < above)%Z) indents.

(** The stack is strictly increasing; it is empty as long as the
    stream has not started and has the sentinel [-1] at its bottom from
    then on.  The column is not negative. *)
Definition indents_ok (w : World) : Prop :=
  increasing (m_indents (scanner w))
  /\ (m_startedStream (scanner w) = false -> m_indents (scanner w) = [])
  /\ (m_startedStream (scanner w) = true ->
      exists body, m_indents (scanner w) = body ++ [(-1)%Z])
  /\ (0 <= m_column (scanner w))%Z.

(** Where [ScanNextToken] emits StreamStart, and where it classifies. *)
Definition fresh_stream (w : World) : Prop :=
  m_startedStream (scanner w) = false /\ m_endedStream (scanner w) = false.
Definition scanning (w : World) : Prop :=
  m_startedStream (scanner w) = true /\ m_endedStream (scanner w) = false.

(** The token classes [ScanNextToken] passes to [ScanAndEnqueue]. *)
Definition scanned (T : TokenType) : bool :=
  match T with
  | BlockSeqStartToken | BlockMapStartToken | BlockEndToken => false
  | _ => true
  end.

Section Contracts.
Context {C : Collaborators}.

(** [ValidateSimpleKey] and [ScanToken], called where [ScanNextToken]
    calls them, keep [I] (and [ValidateSimpleKey] keeps [A], which holds
    where [ScanNextToken] classifies). *)
Definition respects (I A : World -> Prop) : Prop :=
  keeps (fun w => I w /\ A w) ValidateSimpleKey
  /\ (forall p, hoare (fun w => I w /\ fresh_stream w)
                  (ScanToken StreamStartToken p) (fun _ => I) (fun _ => I))
  /\ (forall T p, scanned T = true -> T <> StreamStartToken ->
        hoare (fun w => I w /\ A w) (ScanToken T p) (fun _ => I) (fun _ => I)).

(** The worlds a program reaches by constructing a Scanner on [input]
    and then calling [ScanNextToken], [GetNextToken] and [Scan], and
    destroying tokens, in any order. *)
Inductive reachable (input : list ascii) : World -> Prop :=
  | reachable_boot : reachable input (boot input)
  | reachable_ScanNextToken n w w' :
      reachable input w -> ends_in (ScanNextToken n w) w' -> reachable input w'
  | reachable_GetNextToken n w w' :
      reachable input w -> ends_in (GetNextToken n w) w' -> reachable input w'
  | reachable_Scan n w w' :
      reachable input w -> ends_in (Scan n w) w' -> reachable input w'
  | reachable_delete p w w' :
      reachable input w -> ends_in (delete_token p w) w' -> reachable input w'.

End Contracts.

(** Two worlds with the same stream state, flow level, indentation
    stack and history of queued tokens, the column not turning
    negative from the first to the second. *)
Definition layout_le (w w' : World) : Prop :=
  m_startedStream (scanner w) = m_startedStream (scanner w')
  /\ m_endedStream (scanner w) = m_endedStream (scanner w')
  /\ m_flowLevel (scanner w) = m_flowLevel (scanner w')
  /\ m_indents (scanner w) = m_indents (scanner w')
  /\ trace w = trace w'
  /\ ((0 <= m_column (scanner w))%Z -> (0 <= m_column (scanner w'))%Z).

(** The world after one iteration of the loop of [PopIndentTo]. *)
Definition pop_step (w : World) : World :=
  mkWorld
    (set_tokens (m_tokens (scanner w) ++ [brk w])
       (set_indents (tail (m_indents (scanner w))) (scanner w)))
    (<[brk w := Token_ctor BlockEndToken]> (store w)) (S (brk w))
    (trace w ++ [BlockEndToken]) (cout w).





(** The world after [calls] calls of [GetNextToken], if each of them
    returns or throws. *)
Fixpoint get_tokens {C : Collaborators} (calls fuel : nat) (w : World) : option World :=
  match calls with
  | O => Some w
  | S k =>
      match GetNextToken fuel w with
      | Ret _ w' | Throw _ w' => get_tokens k fuel w'
      | Undefined _ | Diverge => None
      end
  end.

(** Who owns the live tokens: every token in the store is in the queue
    (once), in the limbo set, or in [H], the set of tokens handed to the
    caller and not destroyed yet, and in one of the three only;
    addresses from [brk] on are free. *)
Definition owns (H : gset ptr) (w : World) : Prop :=
  NoDup (m_tokens (scanner w))
  /\ dom (store w) = list_to_set (m_tokens (scanner w)) ∪ m_limboTokens (scanner w) ∪ H
  /\ list_to_set (m_tokens (scanner w)) ## m_limboTokens (scanner w)
  /\ list_to_set (m_tokens (scanner w)) ## H
  /\ m_limboTokens (scanner w) ## H
  /\ (forall p, p ∈ dom (store w) -> p < brk w).

(** Two worlds with the same live addresses, queue and limbo set. *)
Definition owner_eq (w w' : World) : Prop :=
  dom (store w) = dom (store w') /\ brk w = brk w'
  /\ m_tokens (scanner w) = m_tokens (scanner w')
  /\ m_limboTokens (scanner w) = m_limboTokens (scanner w').

(** What the ownership of tokens asks of the collaborators:
    [ValidateSimpleKey] keeps the account, and so does [ScanToken],
    which is called with its token in limbo, leaves it there and returns
    it. *)
Definition keeps_ownership {C : Collaborators} : Prop :=
  (forall H, keeps (owns H) ValidateSimpleKey)
  /\ (forall H T p,
        hoare (fun w => owns H w /\ p ∈ m_limboTokens (scanner w))
          (ScanToken T p)
          (fun q w => q = p /\ owns H w /\ p ∈ m_limboTokens (scanner w))
          (fun _ w => owns H w)).

(** A variant of the reference instance in which the scanner of quoted
    scalars rejects a scalar that is not closed: an example of a
    [ScanToken] that throws while its token is in limbo. *)
Module Strict.

Definition closed_quote (l : list ascii) : bool :=
  match l with
  | q :: r => existsb (Ascii.eqb q) r
  | [] => false
  end.

Definition ScanToken_strict (T : TokenType) (pToken : ptr) : M ptr :=
  match T with
  | QuotedScalarToken =>
      s <- getS ;;
      if closed_quote (rest (INPUT s)) then Ref.ScanToken_ref T pToken
      else throw UnknownToken
  | _ => Ref.ScanToken_ref T pToken
  end.

Definition collaborators : Collaborators := {|
  Exp_DocStart := Exp_DocStart (Collaborators := Ref.collaborators);
  Exp_DocEnd := Exp_DocEnd (Collaborators := Ref.collaborators);
  Exp_BlockEntry := Exp_BlockEntry (Collaborators := Ref.collaborators);
  Exp_Key := Exp_Key (Collaborators := Ref.collaborators);
  Exp_KeyInFlow := Exp_KeyInFlow (Collaborators := Ref.collaborators);
  Exp_Value := Exp_Value (Collaborators := Ref.collaborators);
  Exp_ValueInFlow := Exp_ValueInFlow (Collaborators := Ref.collaborators);
  Exp_PlainScalar := Exp_PlainScalar (Collaborators := Ref.collaborators);
  Exp_PlainScalarInFlow := Exp_PlainScalarInFlow (Collaborators := Ref.collaborators);
  Exp_Comment := Exp_Comment (Collaborators := Ref.collaborators);
  Exp_Break := Exp_Break (Collaborators := Ref.collaborators);
  ValidateSimpleKey := ret tt;
  ScanToken := ScanToken_strict
|}.

End Strict.

(** A variant of the reference instance in which the end of the stream
    also closes the block levels that are open, by [PopIndentTo] down to
    the sentinel: the most the scanner of StreamEnd can do for the
    balance of section 8 with the functions of scanner.cpp. *)
Module Closing.

Definition ScanToken_closing (T : TokenType) (pToken : ptr) : M ptr :=
  match T with
  | StreamEndToken =>
      PopIndentTo (-1) ;;;
      modS (set_endedStream true) ;;;
      ret pToken
  | _ => Ref.ScanToken_ref T pToken
  end.

Definition collaborators : Collaborators := {|
  Exp_DocStart := Exp_DocStart (Collaborators := Ref.collaborators);
  Exp_DocEnd := Exp_DocEnd (Collaborators := Ref.collaborators);
  Exp_BlockEntry := Exp_BlockEntry (Collaborators := Ref.collaborators);
  Exp_Key := Exp_Key (Collaborators := Ref.collaborators);
  Exp_KeyInFlow := Exp_KeyInFlow (Collaborators := Ref.collaborators);
  Exp_Value := Exp_Value (Collaborators := Ref.collaborators);
  Exp_ValueInFlow := Exp_ValueInFlow (Collaborators := Ref.collaborators);
  Exp_PlainScalar := Exp_PlainScalar (Collaborators := Ref.collaborators);
  Exp_PlainScalarInFlow := Exp_PlainScalarInFlow (Collaborators := Ref.collaborators);
  Exp_Comment := Exp_Comment (Collaborators := Ref.collaborators);
  Exp_Break := Exp_Break (Collaborators := Ref.collaborators);
  ValidateSimpleKey := ret tt;
  ScanToken := ScanToken_closing
|}.

End Closing.

(** What [GetNextToken] leaves when it returns [r] to a caller that
    holds the tokens [H]. *)
Definition handed (H : gset ptr) (r : option ptr) (w : World) : Prop :=
  match r with
  | Some p => (p ∉ H) /\ owns (H ∪ {[p]}) w
  | None => owns H w
  end.

(** The world an outcome ends in ([boot []] when there is none). *)
Definition world_of {A} (o : Outcome A) : World :=
  match o with
  | Ret _ w | Throw _ w => w
  | Undefined _ | Diverge => boot []
  end.

(** ** Worlds used as examples *)

(** A Scanner in block context, on a fresh line: the stream has started,
    the stack holds the sentinel, nothing is queued. *)
Definition block_line_start (input : list ascii) : World :=
  {| scanner := set_simpleKeyAllowed true
                  (set_indents [(-1)%Z] (set_startedStream true
                     (Scanner_ctor (istream_of input))));
     store := ∅; brk := 0; trace := []; cout := [] |}.

(** A Scanner whose queue holds the single token [t] at address 0, with
    the stream started and, if [ended], ended. *)
Definition one_queued (t : Token) (ended : bool) : World :=
  {| scanner := set_tokens [0] (set_endedStream ended
                  (set_indents [(-1)%Z] (set_startedStream true
                     (Scanner_ctor (istream_of [])))));
     store := {[ 0 := t ]}; brk := 1; trace := [type t]; cout := [] |}.

(** The world after [m_tokens.pop()]. *)
Definition popped (w : World) : World :=
  set_scanner (set_tokens (tail (m_tokens (scanner w))) (scanner w)) w.

(** The world after [delete] of each address of [ps], in that order. *)
Definition freed (ps : list ptr) (w : World) : World :=
  set_store (foldl (fun st p => delete p st) (store w) ps) w.

(** No token to hand out: the queue is empty, or a Tentative token is
    at its front. *)
Definition none_available (w : World) : Prop :=
  match m_tokens (scanner w) with
  | [] => True
  | p :: _ => exists t, store w !! p = Some t /\ status t = Tentative
  end.

(** Two tokens queued: a Retracted one (address 0) in front of a
    Confirmed one (address 1). *)
Definition two_queued : World :=
  {| scanner := set_tokens [0; 1] (set_indents [(-1)%Z] (set_startedStream true
                  (Scanner_ctor (istream_of []))));
     store := {[ 0 := mkToken KeyToken false false EmptyString;
                 1 := Token_ctor PlainScalarToken ]};
     brk := 2; trace := [KeyToken; PlainScalarToken]; cout := [] |}.

(** The world in which [Map::ParseFlow] starts on [input]: the driver
    has destroyed the StreamStart token and [Map::Parse] has taken the
    FlowMapStart token off the queue. *)
Definition flow_map_body (input : string) : World :=
  world_of ((RefParser.EatNextToken_ref 30 ;;; GetNextToken 30)
              (boot (list_ascii_of_string input))).

(** The world after the first call of [GetNextToken] on [input]. *)
Definition after_first_token (input : string) : World :=
  world_of (GetNextToken (C := Ref.collaborators) 5 (boot (list_ascii_of_string input))).

(** The account holds and the token [p] is in the limbo set. *)
Definition in_limbo (H : gset ptr) (p : ptr) (w : World) : Prop :=
  owns H w /\ p ∈ m_limboTokens (scanner w).

(** ** Further definitions: positions, queues, parsers *)

(** What [GetNextToken] does before it hands a token out: it destroys a
    Retracted token at the front of the queue, and it calls
    [ScanNextToken] when no token is available and the stream has not
    ended; [waits w w'] holds when such steps lead from [w] to [w']. *)
Inductive waits {C : Collaborators} : World -> World -> Prop :=
  | waits_here w : waits w w
  | waits_discard w w' p q t :
      m_tokens (scanner w) = p :: q -> store w !! p = Some t -> status t = Retracted ->
      waits (freed [p] (popped w)) w' -> waits w w'
  | waits_scan n w w1 w' :
      none_available w -> m_endedStream (scanner w) = false ->
      ScanNextToken n w = Ret tt w1 ->
      waits w1 w' -> waits w w'.

(** The position (line, column) after reading the character [c] at
    position [pos], as [GetChar] counts. *)
Definition advance (pos : Z * Z) (c : ascii) : Z * Z :=
  if Ascii.eqb c newline then (fst pos + 1, 0)%Z else (fst pos, snd pos + 1)%Z.

Definition position (w : World) : Z * Z :=
  (m_line (scanner w), m_column (scanner w)).

(** The queue of [w] starts with the tokens [q0], in their order. *)
Definition queue_extends (q0 : list ptr) (w : World) : Prop :=
  q0 `prefix_of` m_tokens (scanner w).

(** [ValidateSimpleKey] and [ScanToken] take no token off the queue and
    do not reorder it. *)
Definition appends_only {C : Collaborators} : Prop :=
  forall q0, keeps (queue_extends q0) ValidateSimpleKey
             /\ forall T p, keeps (queue_extends q0) (ScanToken T p).

(** An instance of what map.cpp calls in which [PopNextToken] destroys
    the token it takes off the queue, as [EatNextToken] does. *)
Definition destroying_deps : ParserDeps := {|
  PeekNextToken := RefParser.PeekNextToken_ref;
  PopNextToken := RefParser.EatNextToken_ref;
  EatNextToken := RefParser.EatNextToken_ref;
  Node_Parse := RefParser.Node_Parse_ref 3
|}.

(** Three Confirmed tokens queued, the stream ended. *)
Definition three_queued : World :=
  {| scanner := set_tokens [0; 1; 2] (set_endedStream true
                  (set_indents [(-1)%Z] (set_startedStream true
                     (Scanner_ctor (istream_of [])))));
     store := {[ 0 := Token_ctor FlowSeqStartToken;
                 1 := mkToken PlainScalarToken true true "a";
                 2 := Token_ctor FlowSeqEndToken ]};
     brk := 3; trace := [FlowSeqStartToken; PlainScalarToken; FlowSeqEndToken];
     cout := [] |}.

(** The world in which [Map::Parse] starts on [input]: the driver has
    destroyed the StreamStart token. *)
Definition after_stream_start (input : string) : World :=
  world_of (RefParser.EatNextToken_ref 30
              (boot (list_ascii_of_string input))).

(** * Properties *)

(** ** The monad and the Hoare rules *)

Lemma bind_Ret {A B} (m : M A) (k : A -> M B) w a w' :
  m w = Ret a w' -> bind m k w = k a w'.
Proof. intros E. unfold bind. by rewrite E. Qed.

Lemma bind_Throw {A B} (m : M A) (k : A -> M B) w e w' :
  m w = Throw e w' -> bind m k w = Throw e w'.
Proof. intros E. unfold bind. by rewrite E. Qed.

Lemma bind_Undefined {A B} (m : M A) (k : A -> M B) w u :
  m w = Undefined u -> bind m k w = Undefined u.
Proof. intros E. unfold bind. by rewrite E. Qed.

Lemma bind_Diverge {A B} (m : M A) (k : A -> M B) w :
  m w = Diverge -> bind m k w = Diverge.
Proof. intros E. unfold bind. by rewrite E. Qed.

Lemma hoare_ret {A} (P : World -> Prop) (a : A) Q E :
  (forall w, P w -> Q a w) -> hoare P (ret a) Q E.
Proof. intros H w Hw. by apply H. Qed.

Lemma hoare_bind {A B} (m : M A) (k : A -> M B) P Q R E :
  hoare P m Q E -> (forall a, hoare (Q a) (k a) R E) -> hoare P (bind m k) R E.
Proof.
  intros Hm Hk w Hw. specialize (Hm w Hw). unfold bind.
  destruct (m w) as [a w'| |u|]; try done. by apply Hk.
Qed.

Lemma hoare_conseq {A} (m : M A) (P P' : World -> Prop) (Q Q' : A -> World -> Prop) E E' :
  hoare P' m Q' E' ->
  (forall w, P w -> P' w) -> (forall a w, Q' a w -> Q a w) -> (forall e w, E' e w -> E e w) ->
  hoare P m Q E.
Proof.
  intros H HP HQ HE w Hw. specialize (H w (HP w Hw)).
  destruct (m w); auto.
Qed.

Lemma keeps_ret {A} I (a : A) : keeps I (ret a).
Proof. by apply hoare_ret. Qed.

Lemma keeps_bind {A B} I (m : M A) (k : A -> M B) :
  keeps I m -> (forall a, keeps I (k a)) -> keeps I (bind m k).
Proof. intros Hm Hk. eapply hoare_bind; [exact Hm|]. intros a. apply Hk. Qed.

Lemma keeps_throw {A} I e : keeps I (@throw A e).
Proof. by intros w Hw. Qed.

Lemma keeps_undefined {A} I u : keeps I (@undefined A u).
Proof. by intros w Hw. Qed.

Lemma keeps_diverge {A} I : keeps I (@diverge A).
Proof. by intros w Hw. Qed.

Lemma keeps_getS I : keeps I getS.
Proof. by intros w Hw. Qed.

Lemma keeps_deref I p : keeps I (deref p).
Proof. intros w Hw. unfold deref. by destruct (store w !! p). Qed.

Lemma keeps_if {A} I (b : bool) (m1 m2 : M A) :
  keeps I m1 -> keeps I m2 -> keeps I (if b then m1 else m2).
Proof. by destruct b. Qed.

#[global] Instance cursor_eq_refl : Reflexive cursor_eq.
Proof. by intros w; repeat split. Qed.

#[global] Instance cursor_eq_trans : Transitive cursor_eq.
Proof.
  intros a b c (?&?&?&?&?&?&?&?&?&?&?) (?&?&?&?&?&?&?&?&?&?&?).
  repeat split; try congruence. auto.
Qed.

Lemma frames_ret {A} R `{!Reflexive R} (a : A) : frames R (ret a).
Proof. intros w. simpl. reflexivity. Qed.

Lemma frames_bind {A B} R `{!Transitive R} (m : M A) (k : A -> M B) :
  frames R m -> (forall a, frames R (k a)) -> frames R (bind m k).
Proof.
  intros Hm Hk w. specialize (Hm w). unfold bind.
  destruct (m w) as [a w'| |u|]; try done.
  specialize (Hk a w'). destruct (k a w'); try done; by etrans.
Qed.

Lemma frames_if {A} R (b : bool) (m1 m2 : M A) :
  frames R m1 -> frames R m2 -> frames R (if b then m1 else m2).
Proof. by destruct b. Qed.

Lemma frames_keeps {A} (R : World -> World -> Prop) (I : World -> Prop) (m : M A) :
  (forall w w', R w w' -> I w -> I w') -> frames R m -> keeps I m.
Proof.
  intros HI Hm w Hw. specialize (Hm w). destruct (m w); eauto.
Qed.

(** The functions that only move the reading position. *)

Lemma cursor_modS f :
  (forall s, m_tokens (f s) = m_tokens s /\ m_limboTokens (f s) = m_limboTokens s
             /\ m_startedStream (f s) = m_startedStream s
             /\ m_endedStream (f s) = m_endedStream s
             /\ m_flowLevel (f s) = m_flowLevel s /\ m_indents (f s) = m_indents s
             /\ ((0 <= m_column s)%Z -> (0 <= m_column (f s))%Z)) ->
  frames cursor_eq (modS f).
Proof.
  intros Hf w. simpl. destruct (Hf (scanner w)) as (?&?&?&?&?&?&?).
  repeat split; simpl; try congruence. auto.
Qed.

Lemma cursor_getS : frames cursor_eq getS.
Proof. intros w. simpl. reflexivity. Qed.

Lemma cursor_INPUT_peek : frames cursor_eq INPUT_peek.
Proof.
  intros w. unfold INPUT_peek. destruct (istream_peek _) as [c i]. by repeat split.
Qed.

Lemma cursor_INPUT_get : frames cursor_eq INPUT_get.
Proof.
  intros w. unfold INPUT_get. destruct (istream_get _) as [c i]. by repeat split.
Qed.

Lemma cursor_peek_is ch : frames cursor_eq (peek_is ch).
Proof.
  apply frames_bind; [apply _|apply cursor_INPUT_peek|]. intros c. apply frames_ret, _.
Qed.

Lemma cursor_GetChar : frames cursor_eq GetChar.
Proof.
  intros w. unfold GetChar, bind, getS, int_incr, modS, INPUT_get. simpl.
  destruct (m_column (scanner w) <? INT_MAX)%Z eqn:Hc; [|done]. simpl.
  destruct (istream_get _) as [c i]. simpl.
  destruct (Ascii.eqb (to_char c) newline); simpl.
  - destruct (m_line (scanner w) <? INT_MAX)%Z; [|done]. simpl. by repeat split.
  - repeat split. simpl. lia.
Qed.

Lemma cursor_GetChar_n n acc : frames cursor_eq (GetChar_n n acc).
Proof.
  revert acc. induction n as [|n IH]; intros acc; simpl.
  - apply frames_ret, _.
  - apply frames_bind; [apply _|apply cursor_GetChar|]. intros ch. apply IH.
Qed.

Lemma cursor_GetChars n : frames cursor_eq (GetChars n).
Proof. apply cursor_GetChar_n. Qed.

Lemma cursor_Eat_n n : frames cursor_eq (Eat_n n).
Proof.
  induction n as [|n IH]; simpl.
  - apply frames_ret, _.
  - apply frames_bind; [apply _|apply cursor_GetChar|]. intros ?. apply IH.
Qed.

Lemma cursor_Eat n : frames cursor_eq (Eat n).
Proof. apply cursor_Eat_n. Qed.

Lemma cursor_EatLineBreak : frames cursor_eq EatLineBreak.
Proof.
  apply frames_bind; [apply _|apply cursor_Eat|]. intros ?.
  apply cursor_modS. by intros s.
Qed.

Lemma cursor_set_simpleKeyAllowed (f : Scanner -> bool) :
  frames cursor_eq (modS (fun s => set_simpleKeyAllowed (f s) s)).
Proof. apply cursor_modS. by intros s. Qed.

(** ** Eating white space (scanner.cpp:76-85) *)

Lemma IsWhitespaceToBeEaten_space s : IsWhitespaceToBeEaten s space = true.
Proof. reflexivity. Qed.

(** What the code computes for a tab: the flow-level test is [>= 0]. *)
Lemma IsWhitespaceToBeEaten_tab s :
  IsWhitespaceToBeEaten s tab
  = (0 <=? m_flowLevel s)%Z || negb (m_simpleKeyAllowed s).
Proof. unfold IsWhitespaceToBeEaten. simpl. by destruct (_ || _). Qed.

(** C2 (the code departs from the claim).  For a tab,
    [IsWhitespaceToBeEaten] answers whether [m_flowLevel >= 0] or no
    simple key is allowed.  So in block context ([m_flowLevel = 0]) at a
    place where a simple key is allowed it answers [true]; and
    [ScanToNextToken], run on a line break followed by a tab and the
    letter a, eats the tab although the scanner is in block context and
    a simple key is allowed: it stops in front of the letter, in column
    1, with the flag set. *)
Theorem tab_eaten_where_simple_key_allowed :
  (forall s, IsWhitespaceToBeEaten s tab
             = (0 <=? m_flowLevel s)%Z || negb (m_simpleKeyAllowed s))
  /\ (let w := block_line_start [newline; tab; "a"%char] in
      m_flowLevel (scanner w) = 0%Z /\ m_simpleKeyAllowed (scanner w) = true
      /\ IsWhitespaceToBeEaten (scanner w) tab = true
      /\ exists w', ScanToNextToken (C := Ref.collaborators) 5 w = Ret tt w'
           /\ rest (INPUT (scanner w')) = ["a"%char]
           /\ m_column (scanner w') = 1%Z
           /\ m_flowLevel (scanner w') = 0%Z
           /\ m_simpleKeyAllowed (scanner w') = true).
Proof.
  split; [apply IsWhitespaceToBeEaten_tab|].
  intros w. repeat split.
  eexists. split; [vm_compute; reflexivity|]. by repeat split.
Qed.

(** ** PushIndentTo (scanner.cpp:258-276) *)

Lemma PushIndentTo_flow column sequence w :
  (0 < m_flowLevel (scanner w))%Z -> PushIndentTo column sequence w = Ret None w.
Proof.
  intros H. unfold PushIndentTo, bind, getS. simpl.
  by apply Z.ltb_lt in H as ->.
Qed.

Lemma PushIndentTo_shallow column sequence w top below :
  (m_flowLevel (scanner w) <= 0)%Z -> m_indents (scanner w) = top :: below ->
  (column <= top)%Z -> PushIndentTo column sequence w = Ret None w.
Proof.
  intros Hf Hi Hc. unfold PushIndentTo, bind, getS. simpl.
  apply Z.ltb_ge in Hf as ->. rewrite Hi. by apply Z.leb_le in Hc as ->.
Qed.

Lemma PushIndentTo_empty column sequence w :
  (m_flowLevel (scanner w) <= 0)%Z -> m_indents (scanner w) = [] ->
  PushIndentTo column sequence w = Undefined EmptyStackTop.
Proof.
  intros Hf Hi. unfold PushIndentTo, bind, getS. simpl.
  apply Z.ltb_ge in Hf as ->. by rewrite Hi.
Qed.

Lemma PushIndentTo_deeper (column : Z) (sequence : bool) (w : World) top below :
  (m_flowLevel (scanner w) <= 0)%Z -> m_indents (scanner w) = top :: below ->
  (top < column)%Z ->
  let T := if sequence then BlockSeqStartToken else BlockMapStartToken in
  PushIndentTo column sequence w
  = Ret (head (m_tokens (scanner w) ++ [brk w]))
      (mkWorld
         (set_tokens (m_tokens (scanner w) ++ [brk w])
            (set_indents (column :: m_indents (scanner w)) (scanner w)))
         (<[brk w := Token_ctor T]> (store w)) (S (brk w)) (trace w ++ [T]) (cout w)).
Proof.
  intros Hf Hi Hc T. unfold PushIndentTo, bind, getS. simpl.
  apply Z.ltb_ge in Hf as ->. rewrite Hi. apply Z.leb_gt in Hc as ->.
  destruct w as [[i q l st en sk fl ind ln col] sto b tr co]. simpl in *. subst ind.
  by destruct q.
Qed.

(** C10.  When [PushIndentTo] pushes a level (block context, column
    deeper than the top) in a world whose queued tokens were all
    allocated earlier, it queues a new BlockSeqStart or BlockMapStart
    token at the back and returns the front of the queue: that is the
    new token if and only if the queue was empty before the call, and
    otherwise the token that was already at the front. *)
Theorem PushIndentTo_returns_front (column : Z) (sequence : bool) (w : World)
    (top : Z) (below : list Z) :
  (m_flowLevel (scanner w) <= 0)%Z ->
  m_indents (scanner w) = top :: below ->
  (top < column)%Z ->
  Forall (fun p => p < brk w) (m_tokens (scanner w)) ->
  exists front w',
    PushIndentTo column sequence w = Ret (Some front) w'
    /\ m_indents (scanner w') = column :: top :: below
    /\ m_tokens (scanner w') = m_tokens (scanner w) ++ [brk w]
    /\ store w' !! brk w
       = Some (Token_ctor (if sequence then BlockSeqStartToken else BlockMapStartToken))
    /\ head (m_tokens (scanner w')) = Some front
    /\ (front = brk w <-> m_tokens (scanner w) = [])
    /\ (m_tokens (scanner w) <> [] ->
        head (m_tokens (scanner w)) = Some front /\ front <> brk w).
Proof.
  intros Hf Hi Hc Hq.
  rewrite (PushIndentTo_deeper _ _ _ _ _ Hf Hi Hc). simpl.
  destruct (m_tokens (scanner w)) as [|p q] eqn:Eq; simpl.
  - exists (brk w). eexists. split; [reflexivity|]. simpl.
    rewrite Hi, lookup_insert_eq. by repeat split.
  - exists p. eexists. split; [reflexivity|]. simpl.
    rewrite Hi, lookup_insert_eq.
    apply Forall_cons in Hq as [Hp _].
    repeat split; try done; intros; lia.
Qed.

(** C10, on an example: one token is queued (address 0) when column 2
    is pushed over the sentinel; the token returned is that older one. *)
Lemma PushIndentTo_returns_front_witness :
  exists front w',
    PushIndentTo 2 true (one_queued (Token_ctor KeyToken) false) = Ret (Some front) w'
    /\ front = 0 /\ m_tokens (scanner w') = [0; 1].
Proof.
  destruct (PushIndentTo_returns_front 2 true (one_queued (Token_ctor KeyToken) false)
              (-1) []) as (front & w' & E & _ & Hq & _ & Hh & _ & Hold).
  - vm_compute. discriminate.
  - reflexivity.
  - lia.
  - repeat constructor.
  - exists front, w'. split; [exact E|]. split; [|exact Hq].
    destruct Hold as [Hold _]; [discriminate|]. simpl in Hold. congruence.
Defined.

(** ** GetNextToken (scanner.cpp:312-348) *)

Section GetNextToken.
Context {C : Collaborators}.

Lemma GetNextToken_empty n w :
  m_tokens (scanner w) = [] ->
  GetNextToken (S n) w
  = if m_endedStream (scanner w) then Ret None w
    else (ScanNextToken n ;;; GetNextToken n) w.
Proof.
  intros Hq. simpl. unfold bind at 1, getS. rewrite Hq. by destruct (m_endedStream _).
Qed.

Lemma GetNextToken_retracted n w p q t :
  m_tokens (scanner w) = p :: q -> store w !! p = Some t -> status t = Retracted ->
  GetNextToken (S n) w = GetNextToken n (freed [p] (popped w)).
Proof.
  intros Hq Hp Hs. simpl. unfold bind at 1, getS. rewrite Hq.
  unfold bind at 1, deref. rewrite Hp.
  unfold status in Hs. destruct (isPossible t); [by destruct (isValid t)|]. simpl.
  unfold bind, tokens_pop, modS, delete_token. simpl. by rewrite Hp.
Qed.

Lemma GetNextToken_tentative n w p q t :
  m_tokens (scanner w) = p :: q -> store w !! p = Some t -> status t = Tentative ->
  GetNextToken (S n) w
  = if m_endedStream (scanner w) then Ret None w
    else (ScanNextToken n ;;; GetNextToken n) w.
Proof.
  intros Hq Hp Hs. simpl. unfold bind at 1, getS. rewrite Hq.
  unfold bind at 1, deref. rewrite Hp.
  unfold status in Hs. destruct (isPossible t); [|done].
  destruct (isValid t); [done|]. simpl. by destruct (m_endedStream _).
Qed.

Lemma GetNextToken_confirmed n w p q t :
  m_tokens (scanner w) = p :: q -> store w !! p = Some t -> status t = Confirmed ->
  GetNextToken (S n) w = Ret (Some p) (popped w).
Proof.
  intros Hq Hp Hs. simpl. unfold bind at 1, getS. rewrite Hq.
  unfold bind at 1, deref. rewrite Hp.
  unfold status in Hs. destruct (isPossible t); [|done].
  by destruct (isValid t).
Qed.

Lemma GetNextToken_none_available n w :
  m_endedStream (scanner w) = true -> none_available w ->
  GetNextToken (S n) w = Ret None w.
Proof.
  intros He Hn. unfold none_available in Hn.
  destruct (m_tokens (scanner w)) as [|p q] eqn:Hq.
  - by rewrite GetNextToken_empty, He.
  - destruct Hn as (t & Hp & Hs). by rewrite (GetNextToken_tentative _ _ _ _ _ Hq Hp Hs), He.
Qed.

Lemma GetNextToken_None_inv fuel w w' :
  GetNextToken fuel w = Ret None w' ->
  m_endedStream (scanner w') = true /\ none_available w'.
Proof.
  revert w. induction fuel as [|n IH]; intros w; [done|].
  destruct (m_tokens (scanner w)) as [|p q] eqn:Hq.
  - rewrite GetNextToken_empty by done.
    destruct (m_endedStream (scanner w)) eqn:He.
    + intros [= <-]. split; [done|]. unfold none_available. by rewrite Hq.
    + unfold bind. destruct (ScanNextToken n w); try done. apply IH.
  - destruct (store w !! p) as [t|] eqn:Hp.
    2:{ simpl. unfold bind at 1, getS. rewrite Hq. unfold bind at 1, deref. by rewrite Hp. }
    destruct (status t) eqn:Hs.
    + rewrite (GetNextToken_tentative _ _ _ _ _ Hq Hp Hs).
      destruct (m_endedStream (scanner w)) eqn:He.
      * intros [= <-]. split; [done|]. unfold none_available. rewrite Hq. eauto.
      * unfold bind. destruct (ScanNextToken n w); try done. apply IH.
    + by rewrite (GetNextToken_confirmed _ _ _ _ _ Hq Hp Hs).
    + rewrite (GetNextToken_retracted _ _ _ _ _ Hq Hp Hs). apply IH.
Qed.

(** A run of Retracted tokens at the front of the queue is discarded,
    token by token, and the Confirmed token behind it is returned. *)
Lemma GetNextToken_discards (rs : list ptr) : forall (w : World) (c : ptr) (q : list ptr) (n : nat) (tc : Token),
  m_tokens (scanner w) = rs ++ c :: q ->
  NoDup (rs ++ [c]) ->
  Forall (fun p => exists t, store w !! p = Some t /\ status t = Retracted) rs ->
  store w !! c = Some tc -> status tc = Confirmed ->
  exists w',
    GetNextToken (length rs + S n) w = Ret (Some c) w'
    /\ m_tokens (scanner w') = q
    /\ store w' = foldl (fun st p => delete p st) (store w) rs
    /\ store w' !! c = Some tc
    /\ Forall (fun p => store w' !! p = None) rs.
Proof.
  induction rs as [|r rs IH]; intros w c q n tc Hq Hnd Hrs Hc Hs;
    cbn [length Nat.add app] in *.
  - exists (popped w). rewrite (GetNextToken_confirmed _ _ _ _ _ Hq Hc Hs).
    repeat split; simpl; try done. by rewrite Hq.
  - apply Forall_cons in Hrs as [(t & Hr & Hst) Hrs].
    apply NoDup_cons in Hnd as [Hnr Hnd].
    rewrite (GetNextToken_retracted _ _ _ _ _ Hq Hr Hst).
    destruct (IH (freed [r] (popped w)) c q n tc) as (w' & E & Hq' & Hst' & Hc' & Hgone).
    + simpl. by rewrite Hq.
    + done.
    + eapply Forall_impl; [apply Forall_and; split; [exact Hrs|]|].
      * apply Forall_forall. intros p Hp. instantiate (1 := fun p => p <> r).
        simpl. intros ->. apply Hnr. apply elem_of_app. by left.
      * simpl. intros p [(t' & Hp & Hs') Hne]. exists t'. by rewrite lookup_delete_ne.
    + simpl. rewrite lookup_delete_ne; [done|]. intros ->. apply Hnr, elem_of_app. right. by left.
    + done.
    + exists w'. repeat split; try done.
      apply Forall_cons. split; [|done].
      rewrite Hst'. simpl.
      clear -Hnr. assert (Hr : r ∉ rs) by (intros ?; apply Hnr, elem_of_app; by left).
      assert (G : forall st : gmap nat Token, st !! r = None ->
                 foldl (fun st p => delete p st) st rs !! r = None).
      { clear Hr Hnr. induction rs as [|x rs IH']; intros st Hst; simpl; [done|].
        apply IH'. destruct (decide (x = r)) as [->|Hx].
        - apply lookup_delete_eq.
        - by rewrite lookup_delete_ne. }
      apply G, lookup_delete_eq.
Qed.

(** C3 (as amended).  [GetNextToken] removes a Retracted token at the
    front of the queue from the queue and destroys it, and goes on with
    the rest; it leaves a Tentative token at the front where it is and
    does what it does on an empty queue, which is to return nothing when
    the stream has ended and to scan and retry otherwise; it takes a
    Confirmed token at the front off the queue and returns it, still
    allocated.  Past a run of Retracted tokens it returns the first
    Confirmed one.  It returns nothing only in a world where the stream
    has ended and no token is available (the queue is empty or a
    Tentative token is at its front), and in such a world it does return
    nothing. *)
Theorem GetNextToken_spec :
  (forall n w p q t,
     m_tokens (scanner w) = p :: q -> store w !! p = Some t -> status t = Retracted ->
     GetNextToken (S n) w = GetNextToken n (freed [p] (popped w))
     /\ m_tokens (scanner (freed [p] (popped w))) = q
     /\ store (freed [p] (popped w)) !! p = None)
  /\ (forall n w p q t,
     m_tokens (scanner w) = p :: q -> store w !! p = Some t -> status t = Tentative ->
     GetNextToken (S n) w
     = if m_endedStream (scanner w) then Ret None w
       else (ScanNextToken n ;;; GetNextToken n) w)
  /\ (forall n w,
     m_tokens (scanner w) = [] ->
     GetNextToken (S n) w
     = if m_endedStream (scanner w) then Ret None w
       else (ScanNextToken n ;;; GetNextToken n) w)
  /\ (forall n w p q t,
     m_tokens (scanner w) = p :: q -> store w !! p = Some t -> status t = Confirmed ->
     exists w', GetNextToken (S n) w = Ret (Some p) w'
       /\ m_tokens (scanner w') = q /\ store w' = store w)
  /\ (forall rs w c q n tc,
     m_tokens (scanner w) = rs ++ c :: q -> NoDup (rs ++ [c]) ->
     Forall (fun p => exists t, store w !! p = Some t /\ status t = Retracted) rs ->
     store w !! c = Some tc -> status tc = Confirmed ->
     exists w', GetNextToken (length rs + S n) w = Ret (Some c) w'
       /\ m_tokens (scanner w') = q
       /\ store w' !! c = Some tc
       /\ Forall (fun p => store w' !! p = None) rs)
  /\ (forall fuel w w',
     GetNextToken fuel w = Ret None w' ->
     m_endedStream (scanner w') = true /\ none_available w')
  /\ (forall n w,
     m_endedStream (scanner w) = true -> none_available w ->
     GetNextToken (S n) w = Ret None w).
Proof.
  split; [|split; [|split; [|split; [|split; [|split]]]]].
  - intros n w p q t Hq Hp Hs. split; [by eapply GetNextToken_retracted|].
    simpl. rewrite Hq. split; [done|]. apply lookup_delete_eq.
  - intros. by eapply GetNextToken_tentative.
  - intros. by apply GetNextToken_empty.
  - intros n w p q t Hq Hp Hs. exists (popped w).
    rewrite (GetNextToken_confirmed _ _ _ _ _ Hq Hp Hs). simpl. by rewrite Hq.
  - intros rs w c q n tc Hq Hnd Hrs Hc Hs.
    destruct (GetNextToken_discards rs w c q n tc Hq Hnd Hrs Hc Hs)
      as (w' & E & ? & ? & ? & ?).
    by exists w'.
  - apply GetNextToken_None_inv.
  - apply GetNextToken_none_available.
Qed.

End GetNextToken.

(** C3, on an example: a Retracted token (address 0) in front of a
    Confirmed one (address 1); the call frees the first and returns the
    second. *)
Lemma GetNextToken_spec_witness :
  exists w', GetNextToken (C := Ref.collaborators) 2 two_queued = Ret (Some 1) w'
    /\ m_tokens (scanner w') = []
    /\ store w' !! 1 = Some (Token_ctor PlainScalarToken)
    /\ Forall (fun p => store w' !! p = None) [0].
Proof.
  destruct (GetNextToken_spec (C := Ref.collaborators)) as (_ & _ & _ & _ & H & _).
  apply (H [0] two_queued 1 [] 0 (Token_ctor PlainScalarToken)).
  - reflexivity.
  - apply (bool_decide_unpack _). vm_compute. exact I.
  - apply Forall_cons. split; [|constructor].
    exists (mkToken KeyToken false false EmptyString). split; reflexivity.
  - reflexivity.
  - reflexivity.
Defined.

(** C3, against the claim as stated: the stream has ended and a
    Tentative token is queued; [GetNextToken] returns nothing although
    the queue is not empty, and leaves the token queued and allocated. *)
Lemma GetNextToken_nothing_queue_not_empty :
  let w := one_queued (mkToken KeyToken false true EmptyString) true in
  GetNextToken (C := Ref.collaborators) 1 w = Ret None w
  /\ m_endedStream (scanner w) = true
  /\ m_tokens (scanner w) = [0]
  /\ status <$> store w !! 0 = Some Tentative.
Proof. vm_compute. by repeat split. Qed.

(** ** Map::Parse and Map::ParseFlow (map.cpp:426-507) *)

Section Map_properties.
Context {C : Collaborators} {P : ParserDeps}.

Lemma Map_Parse_null fuel m w w' :
  GetNextToken fuel w = Ret None w' ->
  Map_Parse fuel m w = Undefined NullDereference.
Proof. intros E. unfold Map_Parse. by rewrite (bind_Ret _ _ _ _ _ E). Qed.

Lemma Map_Parse_token fuel m w w' p t :
  GetNextToken fuel w = Ret (Some p) w' -> store w' !! p = Some t ->
  Map_Parse fuel m w
  = (m' <- match type t with
           | TT_BLOCK_MAP_START => ParseBlock fuel m
           | TT_FLOW_MAP_START => ParseFlow fuel m
           | _ => ret m
           end ;;
     delete_token p ;;; ret m') w'.
Proof.
  intros E Hp. unfold Map_Parse. rewrite (bind_Ret _ _ _ _ _ E).
  unfold bind at 1, deref. by rewrite Hp.
Qed.

Lemma ParseFlow_separator_null n w w' :
  PeekNextToken n w = Ret None w' ->
  ParseFlow_separator n w = Undefined NullDereference.
Proof. intros E. unfold ParseFlow_separator. by rewrite (bind_Ret _ _ _ _ _ E). Qed.

Lemma ParseFlow_separator_token n w w' p t :
  PeekNextToken n w = Ret (Some p) w' -> store w' !! p = Some t ->
  ParseFlow_separator n w
  = if bool_decide (type t = TT_FLOW_ENTRY) then (EatNextToken n ;;; ret true) w'
    else Ret (bool_decide (type t = TT_FLOW_MAP_END)) w'.
Proof.
  intros E Hp. unfold ParseFlow_separator. rewrite (bind_Ret _ _ _ _ _ E).
  unfold bind at 1, deref. rewrite Hp.
  repeat case_bool_decide; try done; congruence.
Qed.

(** The first token is neither FlowMapEnd nor Key: the loop is left. *)
Lemma ParseFlow_not_key n m w w' p t :
  PeekNextToken n w = Ret (Some p) w' -> store w' !! p = Some t ->
  type t <> TT_FLOW_MAP_END -> type t <> TT_KEY ->
  ParseFlow (S n) m w = Ret m w'.
Proof.
  intros E Hp H1 H2. simpl. rewrite (bind_Ret _ _ _ _ _ E).
  unfold bind at 1, deref. rewrite Hp.
  by rewrite !bool_decide_eq_false_2.
Qed.

(** The loop up to the separator, when the first token is a Key. *)
Lemma ParseFlow_key n m w w1 w2 w3 p t m' :
  PeekNextToken n w = Ret (Some p) w1 -> store w1 !! p = Some t -> type t = TT_KEY ->
  PopNextToken n w1 = Ret tt w2 ->
  parse_entry n m w2 = Ret m' w3 ->
  ParseFlow (S n) m w
  = (go <- ParseFlow_separator n ;; if go then ParseFlow n m' else ret m') w3.
Proof.
  intros E Hp Ht E2 E3. simpl. rewrite (bind_Ret _ _ _ _ _ E).
  unfold bind at 1, deref. rewrite Hp, Ht. simpl.
  rewrite (bind_Ret _ _ _ _ _ E2). by rewrite (bind_Ret _ _ _ _ _ E3).
Qed.

(** Neither function throws by itself: an exception they end with was
    raised by a function they call. *)
Lemma next_is_value_throws (E : Exception -> World -> Prop) n :
  (forall k, hoare (fun _ => True) (PeekNextToken k) (fun _ _ => True) E) ->
  hoare (fun _ => True) (next_is_value n) (fun _ _ => True) E.
Proof.
  intros HPeek. unfold next_is_value.
  eapply hoare_bind; [apply HPeek|]. intros [p|]; [|by apply hoare_ret].
  eapply hoare_bind; [apply HPeek|]. intros [q|]; [|done].
  eapply hoare_bind with (Q := fun _ _ => True); [|intros t; by apply hoare_ret].
  intros w _. unfold deref. by destruct (store w !! q).
Qed.

Lemma parse_entry_throws (E : Exception -> World -> Prop) n m :
  (forall k, hoare (fun _ => True) (PeekNextToken k) (fun _ _ => True) E) ->
  (forall k, hoare (fun _ => True) (PopNextToken k) (fun _ _ => True) E) ->
  (forall k, hoare (fun _ => True) (Node_Parse k) (fun _ _ => True) E) ->
  hoare (fun _ => True) (parse_entry n m) (fun _ _ => True) E.
Proof.
  intros HPeek HPop HNode. unfold parse_entry.
  eapply hoare_bind; [apply HNode|]. intros key.
  eapply hoare_bind; [by apply next_is_value_throws|]. intros [|]; [|by apply hoare_ret].
  eapply hoare_bind; [apply HPop|]. intros ?.
  eapply hoare_bind; [apply HNode|]. intros val. by apply hoare_ret.
Qed.

Lemma ParseFlow_throws (E : Exception -> World -> Prop) fuel m :
  (forall k, hoare (fun _ => True) (PeekNextToken k) (fun _ _ => True) E) ->
  (forall k, hoare (fun _ => True) (PopNextToken k) (fun _ _ => True) E) ->
  (forall k, hoare (fun _ => True) (EatNextToken k) (fun _ _ => True) E) ->
  (forall k, hoare (fun _ => True) (Node_Parse k) (fun _ _ => True) E) ->
  hoare (fun _ => True) (ParseFlow fuel m) (fun _ _ => True) E.
Proof.
  intros HPeek HPop HEat HNode. revert m.
  assert (Hderef : forall p, hoare (fun _ => True) (deref p) (fun _ _ => True) E).
  { intros p w _. unfold deref. by destruct (store w !! p). }
  induction fuel as [|n IH]; intros m; [done|]. simpl.
  eapply hoare_bind; [apply HPeek|]. intros [p|]; [|by apply hoare_ret].
  eapply hoare_bind; [apply Hderef|]. intros t.
  case_bool_decide.
  { eapply hoare_bind; [apply HEat|]. intros ?. by apply hoare_ret. }
  case_bool_decide; simpl; [|by apply hoare_ret].
  eapply hoare_bind; [apply HPop|]. intros ?.
  eapply hoare_bind; [by apply parse_entry_throws|]. intros m'.
  eapply hoare_bind with (Q := fun _ _ => True).
  - unfold ParseFlow_separator.
    eapply hoare_bind; [apply HPeek|]. intros [q|]; [|done].
    eapply hoare_bind; [apply Hderef|]. intros t'.
    case_bool_decide.
    { eapply hoare_bind; [apply HEat|]. intros ?. by apply hoare_ret. }
    destruct (negb _); by apply hoare_ret.
  - intros [|]; [apply IH|by apply hoare_ret].
Qed.

(** C9.  [Map::Parse] reads [pToken->type] of what [GetNextToken]
    returned, and [Map::ParseFlow], after an entry, of what
    [PeekNextToken] returned, with no test for a null pointer.  When the
    call returns a token the read succeeds and the function goes on;
    when it returns nothing, the function dereferences a null pointer.
    In particular [Map::Parse] does so in every world where the stream
    has ended and the queue is empty. *)
Theorem Map_null_dereference :
  (forall fuel m w w',
     GetNextToken fuel w = Ret None w' ->
     Map_Parse fuel m w = Undefined NullDereference)
  /\ (forall n m w,
     m_endedStream (scanner w) = true -> m_tokens (scanner w) = [] ->
     Map_Parse (S n) m w = Undefined NullDereference)
  /\ (forall fuel m w w' p t,
     GetNextToken fuel w = Ret (Some p) w' -> store w' !! p = Some t ->
     Map_Parse fuel m w
     = (m' <- match type t with
              | TT_BLOCK_MAP_START => ParseBlock fuel m
              | TT_FLOW_MAP_START => ParseFlow fuel m
              | _ => ret m
              end ;;
        delete_token p ;;; ret m') w')
  /\ (forall n m w w1 w2 w3 w4 p t m',
     PeekNextToken n w = Ret (Some p) w1 -> store w1 !! p = Some t -> type t = TT_KEY ->
     PopNextToken n w1 = Ret tt w2 ->
     parse_entry n m w2 = Ret m' w3 ->
     PeekNextToken n w3 = Ret None w4 ->
     ParseFlow (S n) m w = Undefined NullDereference)
  /\ (forall n w w' p t,
     PeekNextToken n w = Ret (Some p) w' -> store w' !! p = Some t ->
     ParseFlow_separator n w
     = if bool_decide (type t = TT_FLOW_ENTRY) then (EatNextToken n ;;; ret true) w'
       else Ret (bool_decide (type t = TT_FLOW_MAP_END)) w').
Proof.
  split; [|split; [|split; [|split]]].
  - apply Map_Parse_null.
  - intros n m w He Hq. eapply Map_Parse_null.
    apply GetNextToken_none_available; [done|]. unfold none_available. by rewrite Hq.
  - apply Map_Parse_token.
  - intros n m w w1 w2 w3 w4 p t m' E Hp Ht E2 E3 E4.
    rewrite (ParseFlow_key _ _ _ _ _ _ _ _ _ E Hp Ht E2 E3).
    unfold bind. by rewrite (ParseFlow_separator_null _ _ _ E4).
  - apply ParseFlow_separator_token.
Qed.

(** C1 (as amended).  Where a key is expected and the token peeked is
    neither FlowMapEnd nor Key, and where, after an entry, the token
    peeked is neither FlowEntry nor FlowMapEnd, [Map::ParseFlow] leaves
    its loop and returns normally, with the entries read so far and the
    token still in the queue.  It raises no error of its own: it ends
    with an exception only when a function it calls does, so if none of
    them throws MalformedMapping, neither does it. *)
Theorem ParseFlow_malformed_returns :
  (forall n m w w' p t,
     PeekNextToken n w = Ret (Some p) w' -> store w' !! p = Some t ->
     type t <> TT_FLOW_MAP_END -> type t <> TT_KEY ->
     ParseFlow (S n) m w = Ret m w')
  /\ (forall n m w w1 w2 w3 w4 p t m' q t',
     PeekNextToken n w = Ret (Some p) w1 -> store w1 !! p = Some t -> type t = TT_KEY ->
     PopNextToken n w1 = Ret tt w2 ->
     parse_entry n m w2 = Ret m' w3 ->
     PeekNextToken n w3 = Ret (Some q) w4 -> store w4 !! q = Some t' ->
     type t' <> TT_FLOW_ENTRY -> type t' <> TT_FLOW_MAP_END ->
     ParseFlow (S n) m w = Ret m' w4)
  /\ (forall fuel m,
     (forall k, hoare (fun _ => True) (PeekNextToken k) (fun _ _ => True)
                  (fun e _ => e <> MalformedMapping)) ->
     (forall k, hoare (fun _ => True) (PopNextToken k) (fun _ _ => True)
                  (fun e _ => e <> MalformedMapping)) ->
     (forall k, hoare (fun _ => True) (EatNextToken k) (fun _ _ => True)
                  (fun e _ => e <> MalformedMapping)) ->
     (forall k, hoare (fun _ => True) (Node_Parse k) (fun _ _ => True)
                  (fun e _ => e <> MalformedMapping)) ->
     forall w w', ParseFlow fuel m w <> Throw MalformedMapping w').
Proof.
  split; [|split].
  - apply ParseFlow_not_key.
  - intros n m w w1 w2 w3 w4 p t m' q t' E Hp Ht E2 E3 E4 Hq H1 H2.
    rewrite (ParseFlow_key _ _ _ _ _ _ _ _ _ E Hp Ht E2 E3).
    unfold bind. rewrite (ParseFlow_separator_token _ _ _ _ _ E4 Hq).
    by rewrite !bool_decide_eq_false_2.
  - intros fuel m H1 H2 H3 H4 w w' Hthrow.
    pose proof (ParseFlow_throws _ fuel m H1 H2 H3 H4 w I) as H.
    rewrite Hthrow in H. by apply H.
Qed.

End Map_properties.

(** C9, on examples: [Map::Parse] at the end of the empty input, and
    [Map::ParseFlow] on a queue that holds one Key token and nothing
    else, the stream having ended. *)
Lemma Map_null_dereference_witness :
  Map_Parse (P := RefParser.parser_deps 3) 5 []
    (world_of (Ref.run_Scan 10 EmptyString)) = Undefined NullDereference
  /\ ParseFlow (P := RefParser.parser_deps 3) 5 [] (one_queued (Token_ctor KeyToken) true)
     = Undefined NullDereference.
Proof.
  destruct (Map_null_dereference (C := Ref.collaborators) (P := RefParser.parser_deps 3))
    as (_ & H2 & _ & H4 & _).
  split.
  - apply H2; reflexivity.
  - eapply (H4 4 [] (one_queued (Token_ctor KeyToken) true)).
    + vm_compute. reflexivity.
    + vm_compute. reflexivity.
    + reflexivity.
    + vm_compute. reflexivity.
    + vm_compute. reflexivity.
    + vm_compute. reflexivity.
Defined.

(** C1, on the input [{a: 1 b: 2}] with its missing separator (the
    first token of the body is the scalar a, not a Key), and on
    [{? a : 1 ? b : 2}] (after the entry a, a Value token is next). *)
Lemma ParseFlow_malformed_returns_witness :
  (exists w', ParseFlow (P := RefParser.parser_deps 3) 30 [] (flow_map_body "{a: 1 b: 2}")
              = Ret [] w')
  /\ (exists w', ParseFlow (P := RefParser.parser_deps 3) 30 []
                   (flow_map_body "{? a : 1 ? b : 2}")
                 = Ret [(Node_scalar "a", Node_scalar "1 ? b")] w').
Proof.
  destruct (ParseFlow_malformed_returns (P := RefParser.parser_deps 3)) as (Ha & Hb & _).
  split.
  - eexists. eapply (Ha 29).
    + vm_compute. reflexivity.
    + vm_compute. reflexivity.
    + vm_compute. discriminate.
    + vm_compute. discriminate.
  - eexists. eapply (Hb 29).
    + vm_compute. reflexivity.
    + vm_compute. reflexivity.
    + reflexivity.
    + vm_compute. reflexivity.
    + vm_compute. reflexivity.
    + vm_compute. reflexivity.
    + vm_compute. reflexivity.
    + vm_compute. discriminate.
    + vm_compute. discriminate.
Defined.

(** C1, against the claim as stated: on [{a: 1 b: 2}], and on
    [{? a : 1 ? b : 2}], [Map::Parse] returns normally; no
    MalformedMapping error is raised. *)
Lemma ParseFlow_missing_separator_returns :
  (exists m w, RefParser.parse_map 3 30 "{a: 1 b: 2}" = Ret m w)
  /\ (exists m w, RefParser.parse_map 3 30 "{? a : 1 ? b : 2}" = Ret m w)
  /\ (forall w, RefParser.parse_map 3 30 "{a: 1 b: 2}" <> Throw MalformedMapping w)
  /\ (forall w, RefParser.parse_map 3 30 "{? a : 1 ? b : 2}" <> Throw MalformedMapping w).
Proof.
  split; [|split; [|split]].
  - eexists _, _. vm_compute. reflexivity.
  - eexists _, _. vm_compute. reflexivity.
  - intros w. vm_compute. discriminate.
  - intros w. vm_compute. discriminate.
Qed.

(** ** Termination of GetNextToken *)

(** A world in which scanning changes nothing, with nothing queued and
    the stream not ended: [GetNextToken] does not return, whatever the
    number of iterations allowed. *)
Lemma GetNextToken_stuck {C : Collaborators} w :
  m_tokens (scanner w) = [] -> m_endedStream (scanner w) = false ->
  (forall n, ScanNextToken n w = Ret tt w \/ ScanNextToken n w = Diverge) ->
  forall fuel, GetNextToken fuel w = Diverge.
Proof.
  intros Hq He Hscan fuel. induction fuel as [|n IH]; [done|].
  rewrite GetNextToken_empty, He by done. unfold bind.
  by destruct (Hscan n) as [-> | ->].
Qed.

Lemma ScanNextToken_literal_no_progress n :
  ScanNextToken (C := Ref.collaborators) (S n) (after_first_token "|")
  = Ret tt (after_first_token "|").
Proof. vm_compute. reflexivity. Qed.

Lemma ScanNextToken_folded_no_progress n :
  ScanNextToken (C := Ref.collaborators) (S n) (after_first_token "> a")
  = Ret tt (after_first_token "> a").
Proof. vm_compute. reflexivity. Qed.

(** C8 (the code departs from the claim).  On the input that is the
    literal block-scalar marker, the first call of [GetNextToken] returns
    the StreamStart token.  From then on [ScanNextToken] returns leaving
    the world exactly as it was: nothing queued, nothing consumed, the
    stream not ended; and the second call of [GetNextToken] does not
    return, however many iterations it is given.  The same holds for the
    folded marker. *)
Theorem GetNextToken_hangs_on_block_scalar :
  (exists p, GetNextToken (C := Ref.collaborators) 5 (boot (list_ascii_of_string "|"))
             = Ret (Some p) (after_first_token "|")
             /\ type <$> store (after_first_token "|") !! p = Some StreamStartToken)
  /\ rest (INPUT (scanner (after_first_token "|"))) = ["|"%char]
  /\ m_flowLevel (scanner (after_first_token "|")) = 0%Z
  /\ (forall n, ScanNextToken (C := Ref.collaborators) (S n) (after_first_token "|")
                = Ret tt (after_first_token "|"))
  /\ (forall fuel, GetNextToken (C := Ref.collaborators) fuel (after_first_token "|")
                   = Diverge)
  /\ (forall fuel, GetNextToken (C := Ref.collaborators) fuel (after_first_token "> a")
                   = Diverge).
Proof.
  split; [exists 0; by vm_compute|].
  split; [reflexivity|]. split; [reflexivity|].
  split; [apply ScanNextToken_literal_no_progress|].
  split.
  - apply GetNextToken_stuck; [reflexivity|reflexivity|].
    intros [|n]; [by right|left; apply ScanNextToken_literal_no_progress].
  - apply GetNextToken_stuck; [reflexivity|reflexivity|].
    intros [|n]; [by right|left; apply ScanNextToken_folded_no_progress].
Qed.

(** ** The tokens of a flow sequence *)

(** C6.  [Scan()] on the input [[1,2]] returns, having printed the
    StreamStart token, then FlowSeqStart, PlainScalar 1, FlowEntry,
    PlainScalar 2, FlowSeqEnd, then the StreamEnd token; these seven, in
    this order, are also all the tokens that were queued. *)
Theorem tokens_of_flow_sequence :
  Ref.printed (Ref.run_Scan 12 "[1,2]")
  = Some [ (StreamStartToken, EmptyString);
           (FlowSeqStartToken, EmptyString);
           (PlainScalarToken, "1"%string);
           (FlowEntryToken, EmptyString);
           (PlainScalarToken, "2"%string);
           (FlowSeqEndToken, EmptyString);
           (StreamEndToken, EmptyString) ]
  /\ trace (world_of (Ref.run_Scan 12 "[1,2]"))
     = [ StreamStartToken; FlowSeqStartToken; PlainScalarToken; FlowEntryToken;
         PlainScalarToken; FlowSeqEndToken; StreamEndToken ]
  /\ store (world_of (Ref.run_Scan 12 "[1,2]")) = ∅.
Proof. vm_compute. by repeat split. Qed.

(** ** Invariants of ScanNextToken *)

Lemma hoare_getS {A} (P : World -> Prop) (k : Scanner -> M A) Q E :
  (forall s, hoare (fun w => P w /\ scanner w = s) (k s) Q E) ->
  hoare P (s <- getS ;; k s) Q E.
Proof. intros H w Hw. unfold bind, getS. by apply (H (scanner w)). Qed.

Lemma hoare_seq {A B} (J : World -> Prop) (m : M A) (k : A -> M B) Q E :
  keeps J m -> (forall e w, J w -> E e w) -> (forall a, hoare J (k a) Q E) ->
  hoare J (bind m k) Q E.
Proof.
  intros Hm HE Hk. eapply hoare_bind; [|exact Hk].
  eapply hoare_conseq; [exact Hm|done|done|]. intros e w. apply HE.
Qed.

Lemma hoare_if {A} P (b : bool) (m1 m2 : M A) Q E :
  hoare P m1 Q E -> hoare P m2 Q E -> hoare P (if b then m1 else m2) Q E.
Proof. by destruct b. Qed.

Lemma hoare_throw {A} (P : World -> Prop) e (Q : A -> World -> Prop) (E : Exception -> World -> Prop) :
  (forall w, P w -> E e w) -> hoare P (throw e) Q E.
Proof. intros H w Hw. by apply H. Qed.

Lemma keeps_and {A} (I J : World -> Prop) (m : M A) :
  keeps I m -> keeps J m -> keeps (fun w => I w /\ J w) m.
Proof.
  intros HI HJ w [Hi Hj]. specialize (HI w Hi). specialize (HJ w Hj).
  by destruct (m w).
Qed.

Lemma hoare_getS_seq {A B} (J : World -> Prop) (f : Scanner -> M A) (k : A -> M B) Q E :
  keeps J (s <- getS ;; f s) -> (forall e w, J w -> E e w) ->
  (forall a, hoare J (k a) Q E) ->
  hoare J (s <- getS ;; a <- f s ;; k a) Q E.
Proof.
  intros Hm HE Hk w Hw. specialize (Hm w Hw). unfold bind, getS in *.
  destruct (f (scanner w) w) as [a w'| |u|]; try done; [by apply Hk|by apply HE].
Qed.

Section Cursor.
Context {C : Collaborators}.

Lemma cursor_Matches re : frames cursor_eq (Matches re).
Proof. intros w. simpl. reflexivity. Qed.

Lemma cursor_IsDocumentStart : frames cursor_eq IsDocumentStart.
Proof.
  intros w. unfold IsDocumentStart, bind, getS. destruct (negb _); simpl; reflexivity.
Qed.

Lemma cursor_IsDocumentEnd : frames cursor_eq IsDocumentEnd.
Proof.
  intros w. unfold IsDocumentEnd, bind, getS. destruct (negb _); simpl; reflexivity.
Qed.

Lemma cursor_IsBlockEntry : frames cursor_eq IsBlockEntry.
Proof. apply cursor_Matches. Qed.

Lemma cursor_IsKey : frames cursor_eq IsKey.
Proof. intros w. unfold IsKey, bind, getS. destruct (_ <? _)%Z; simpl; reflexivity. Qed.

Lemma cursor_IsValue : frames cursor_eq IsValue.
Proof. intros w. unfold IsValue, bind, getS. destruct (_ <? _)%Z; simpl; reflexivity. Qed.

Lemma cursor_IsPlainScalar : frames cursor_eq IsPlainScalar.
Proof.
  intros w. unfold IsPlainScalar, bind, getS. destruct (_ <? _)%Z; simpl; reflexivity.
Qed.

Lemma cursor_EatWhitespace n : frames cursor_eq (EatWhitespace n).
Proof.
  induction n as [|n IH]; [done|]. simpl.
  apply frames_bind; [apply _|apply cursor_INPUT_peek|]. intros c.
  apply frames_bind; [apply _|apply cursor_getS|]. intros s.
  apply frames_if; [|apply frames_ret, _].
  apply frames_bind; [apply _|apply cursor_Eat|]. intros ?. apply IH.
Qed.

Lemma cursor_EatToLineBreak n : frames cursor_eq (EatToLineBreak n).
Proof.
  induction n as [|n IH]; [done|]. simpl.
  apply frames_bind; [apply _|apply cursor_getS|]. intros s.
  apply frames_if; [apply frames_ret, _|].
  apply frames_bind; [apply _|apply cursor_Matches|]. intros b.
  apply frames_if; [apply frames_ret, _|].
  apply frames_bind; [apply _|apply cursor_Eat|]. intros ?. apply IH.
Qed.

End Cursor.

Create HintDb cursor.
#[global] Hint Resolve cursor_getS cursor_INPUT_peek cursor_INPUT_get cursor_peek_is
  cursor_GetChar cursor_GetChars cursor_Eat cursor_EatLineBreak cursor_Matches
  cursor_IsDocumentStart cursor_IsDocumentEnd cursor_IsBlockEntry cursor_IsKey
  cursor_IsValue cursor_IsPlainScalar cursor_EatWhitespace cursor_EatToLineBreak : cursor.

Section ScanNextToken_keeps.
Context {C : Collaborators}.
Variables I A : World -> Prop.
Hypothesis I_cursor : forall w w', cursor_eq w w' -> I w -> I w'.
Hypothesis A_cursor : forall w w', cursor_eq w w' -> A w -> A w'.
Hypothesis A_call : forall w, scanning w -> A w.
Hypothesis H_VSK : keeps (fun w => I w /\ A w) ValidateSimpleKey.
Hypothesis H_Pop :
  keeps (fun w => I w /\ A w) (s <- getS ;; PopIndentTo (m_column s)).
Hypothesis H_Start :
  hoare (fun w => I w /\ fresh_stream w) (ScanAndEnqueue StreamStartToken)
    (fun _ => I) (fun _ => I).
Hypothesis H_Other : forall T, scanned T = true -> T <> StreamStartToken ->
  hoare (fun w => I w /\ A w) (ScanAndEnqueue T) (fun _ => I) (fun _ => I).

Lemma keeps_cursor {X} (m : M X) :
  frames cursor_eq m -> keeps (fun w => I w /\ A w) m.
Proof.
  apply frames_keeps. intros w w' Hc [Hi Ha]. split; eauto.
Qed.

Lemma keeps_ScanToNextToken_loop n inner :
  keeps (fun w => I w /\ A w) (ScanToNextToken_loop n inner).
Proof.
  induction n as [|n IH]; [done|]. simpl.
  apply keeps_bind; [apply keeps_cursor, cursor_EatWhitespace|]. intros ?.
  apply keeps_bind; [apply keeps_cursor, cursor_Matches|]. intros c.
  apply keeps_bind.
  { apply keeps_if; [apply keeps_cursor, cursor_EatToLineBreak|apply keeps_ret]. }
  intros ?.
  apply keeps_bind; [apply keeps_cursor, cursor_Matches|]. intros b.
  apply keeps_if; [apply keeps_ret|].
  apply keeps_bind; [apply keeps_cursor, cursor_EatLineBreak|]. intros ?.
  apply keeps_bind; [apply H_VSK|]. intros ?.
  apply keeps_bind; [apply keeps_getS|]. intros s.
  apply keeps_bind; [|intros ?; apply IH].
  apply keeps_if; [|apply keeps_ret].
  apply keeps_cursor, cursor_modS. by intros s'.
Qed.

Lemma keeps_ScanToNextToken n :
  keeps (fun w => I w /\ A w) (ScanToNextToken n).
Proof. apply keeps_ScanToNextToken_loop. Qed.

Lemma keeps_ScanNextToken n : keeps I (ScanNextToken n).
Proof.
  unfold keeps, ScanNextToken. apply hoare_getS. intros s.
  destruct (m_endedStream s) eqn:He.
  { apply hoare_ret. by intros w [? _]. }
  destruct (m_startedStream s) eqn:Hs; simpl.
  2:{ eapply hoare_conseq; [apply H_Start| |done|done].
      intros w [Hi <-]. by repeat split. }
  eapply hoare_conseq with (P' := fun w => I w /\ A w) (Q' := fun _ => I) (E' := fun _ => I);
    [|intros w [Hi <-]; split; [done|by apply A_call]|done|done].
  assert (HE : forall (e : Exception) w, I w /\ A w -> I w) by (by intros e w [? _]).
  apply hoare_seq; [apply keeps_ScanToNextToken|done|intros ?].
  apply hoare_seq; [apply H_VSK|done|intros ?].
  apply hoare_getS_seq; [apply H_Pop|done|intros ?].
  repeat first
    [ simple apply hoare_if; [simple apply H_Other; done|]
    | simple apply hoare_if; [simple apply hoare_ret; by intros ? [? _]|]
    | simple apply hoare_seq;
        [first [exact (keeps_getS _)
               |simple apply keeps_cursor; solve [eauto with cursor]
               |simple apply keeps_if;
                  [exact (keeps_ret _ _)|simple apply keeps_cursor; solve [eauto with cursor]]]
        |done|intros ?]
    | simple apply hoare_throw; by intros ? [? _] ].
Qed.

End ScanNextToken_keeps.

(** ** Invariants that depend on the layout only *)

#[global] Instance layout_le_refl : Reflexive layout_le.
Proof. by intros w; repeat split. Qed.

#[global] Instance layout_le_trans : Transitive layout_le.
Proof.
  intros a b c (?&?&?&?&?&?) (?&?&?&?&?&?). repeat split; try congruence. auto.
Qed.

Lemma cursor_layout w w' : cursor_eq w w' -> layout_le w w'.
Proof. intros (?&?&?&?&?&?&?&?&?&?&?). by repeat split. Qed.

Lemma frames_mono {A} (R R' : World -> World -> Prop) (m : M A) :
  (forall w w', R w w' -> R' w w') -> frames R m -> frames R' m.
Proof. intros HR Hm w. specialize (Hm w). destruct (m w); auto. Qed.

Lemma layout_cursor {A} (m : M A) : frames cursor_eq m -> frames layout_le m.
Proof. apply frames_mono, cursor_layout. Qed.

Lemma layout_new_token T : frames layout_le (new_token T).
Proof. intros w. by repeat split. Qed.

Lemma layout_limbo f : frames layout_le (modS (fun s => set_limboTokens (f s) s)).
Proof. intros w. by repeat split. Qed.

Lemma layout_tokens_pop : frames layout_le tokens_pop.
Proof. intros w. by repeat split. Qed.

Lemma layout_deref p : frames layout_le (deref p).
Proof. intros w. unfold deref. destruct (store w !! p); [reflexivity|done]. Qed.

Lemma layout_delete_token p : frames layout_le (delete_token p).
Proof. intros w. unfold delete_token. destruct (store w !! p); [by repeat split|done]. Qed.

Lemma layout_print t : frames layout_le (print t).
Proof. intros w. by repeat split. Qed.

Lemma layout_set_value p v : frames layout_le (Ref.set_value p v).
Proof.
  intros w. unfold Ref.set_value, bind, deref.
  destruct (store w !! p); [by repeat split|done].
Qed.

Lemma scanning_layout w w' : layout_le w w' -> scanning w -> scanning w'.
Proof. intros (Hs & He & _) [? ?]. split; congruence. Qed.

Lemma fresh_stream_layout w w' : layout_le w w' -> fresh_stream w -> fresh_stream w'.
Proof. intros (Hs & He & _) [? ?]. split; congruence. Qed.

(** The loop of [PopIndentTo], one iteration at a time. *)
Lemma PopIndentTo_loop_step c w top below :
  m_indents (scanner w) = top :: below -> (c < top)%Z ->
  PopIndentTo_loop c (top :: below) w = PopIndentTo_loop c below (pop_step w).
Proof.
  intros Hi Hc. simpl. apply Z.ltb_lt in Hc as ->.
  unfold bind, modS, new_token, tokens_push, pop_step. simpl.
  f_equal. destruct w as [[i q l st en sk fl ind ln col] sto b tr co].
  simpl in *. by subst ind.
Qed.

Lemma PopIndentTo_loop_spec (I : World -> Prop) c :
  (forall w top below,
     m_indents (scanner w) = top :: below -> (c < top)%Z -> I w -> I (pop_step w)) ->
  forall ind w, m_indents (scanner w) = ind -> I w ->
  exists w', PopIndentTo_loop c ind w = Ret tt w' /\ I w'
    /\ m_flowLevel (scanner w') = m_flowLevel (scanner w)
    /\ match m_indents (scanner w') with [] => True | t :: _ => (t <= c)%Z end.
Proof.
  intros Hstep ind. induction ind as [|top below IH]; intros w Hi HI.
  - exists w. simpl. rewrite Hi. by repeat split.
  - destruct (Z.ltb_spec c top) as [Hc|Hc].
    + rewrite (PopIndentTo_loop_step _ _ _ _ Hi Hc).
      destruct (IH (pop_step w)) as (w' & E & HI' & Hf & Hh).
      * simpl. by rewrite Hi.
      * by eapply Hstep.
      * exists w'. by repeat split.
    + exists w. simpl. apply Z.ltb_ge in Hc as Hc'. rewrite Hc', Hi.
      by repeat split.
Qed.

Lemma PopIndentTo_spec (I : World -> Prop) c :
  (forall w top below,
     m_indents (scanner w) = top :: below -> (c < top)%Z -> I w -> I (pop_step w)) ->
  forall w, I w ->
  exists w', PopIndentTo c w = Ret tt w' /\ I w'
    /\ m_flowLevel (scanner w') = m_flowLevel (scanner w)
    /\ ((m_flowLevel (scanner w) <= 0)%Z ->
        match m_indents (scanner w') with [] => True | t :: _ => (t <= c)%Z end).
Proof.
  intros Hstep w HI. unfold PopIndentTo, bind, getS.
  destruct (Z.ltb_spec 0 (m_flowLevel (scanner w))) as [Hf|Hf].
  - exists w. repeat split; try done. lia.
  - destruct (PopIndentTo_loop_spec I c Hstep _ w eq_refl HI) as (w' & E & ? & ? & ?).
    exists w'. by repeat split.
Qed.

Lemma PopIndentTo_keeps (I : World -> Prop) c :
  (forall w top below,
     m_indents (scanner w) = top :: below -> (c < top)%Z -> I w -> I (pop_step w)) ->
  keeps I (PopIndentTo c).
Proof.
  intros Hstep w HI. destruct (PopIndentTo_spec I c Hstep w HI) as (w' & -> & ? & _).
  done.
Qed.

Section Layout_invariant.
Context {C : Collaborators}.
Variable I : World -> Prop.
Hypothesis I_layout : forall w w', layout_le w w' -> I w -> I w'.
Hypothesis I_push : forall T p, scanned T = true ->
  hoare I (tokens_push T p) (fun _ w => I w) (fun _ w => I w).
Hypothesis I_Pop :
  keeps (fun w => I w /\ scanning w) (s <- getS ;; PopIndentTo (m_column s)).
Hypothesis I_respects : respects I scanning.

Lemma keeps_layout {X} (m : M X) : frames layout_le m -> keeps I m.
Proof. by apply frames_keeps. Qed.

Lemma keeps_layout_scanning {X} (m : M X) :
  frames layout_le m -> keeps (fun w => I w /\ scanning w) m.
Proof.
  apply frames_keeps. intros w w' Hl [? ?]. split; [eauto|by eapply scanning_layout].
Qed.

Lemma keeps_layout_fresh {X} (m : M X) :
  frames layout_le m -> keeps (fun w => I w /\ fresh_stream w) m.
Proof.
  apply frames_keeps. intros w w' Hl [? ?]. split; [eauto|by eapply fresh_stream_layout].
Qed.

Lemma ScanAndEnqueue_layout_start :
  hoare (fun w => I w /\ fresh_stream w) (ScanAndEnqueue StreamStartToken)
    (fun _ => I) (fun _ => I).
Proof.
  destruct I_respects as (_ & HS & _). unfold ScanAndEnqueue.
  assert (HE : forall (e : Exception) w, I w /\ fresh_stream w -> I w) by (by intros e w [? _]).
  apply hoare_seq; [apply keeps_layout_fresh, layout_new_token|done|intros p].
  apply hoare_seq; [apply keeps_layout_fresh, layout_limbo|done|intros ?].
  eapply hoare_bind; [apply HS|]. intros q. simpl.
  apply hoare_seq; [by apply I_push|done|intros ?].
  apply keeps_layout, layout_limbo.
Qed.

Lemma ScanAndEnqueue_layout_other T :
  scanned T = true -> T <> StreamStartToken ->
  hoare (fun w => I w /\ scanning w) (ScanAndEnqueue T) (fun _ => I) (fun _ => I).
Proof.
  intros HT HT'. destruct I_respects as (_ & _ & HO). unfold ScanAndEnqueue.
  assert (HE : forall (e : Exception) w, I w /\ scanning w -> I w) by (by intros e w [? _]).
  apply hoare_seq; [apply keeps_layout_scanning, layout_new_token|done|intros p].
  apply hoare_seq; [apply keeps_layout_scanning, layout_limbo|done|intros ?].
  eapply hoare_bind; [by apply HO|]. intros q. simpl.
  apply hoare_seq; [by apply I_push|done|intros ?].
  apply keeps_layout, layout_limbo.
Qed.

Lemma layout_keeps_ScanNextToken n : keeps I (ScanNextToken n).
Proof.
  apply keeps_ScanNextToken with (A := scanning).
  - intros w w' Hc. apply I_layout, cursor_layout, Hc.
  - intros w w' Hc. apply scanning_layout, cursor_layout, Hc.
  - done.
  - apply I_respects.
  - apply I_Pop.
  - apply ScanAndEnqueue_layout_start.
  - apply ScanAndEnqueue_layout_other.
Qed.

Lemma layout_keeps_GetNextToken n : keeps I (GetNextToken n).
Proof.
  induction n as [|n IH]; [done|]. simpl.
  apply keeps_bind; [apply keeps_getS|]. intros s.
  destruct (m_tokens s) as [|p q].
  { apply keeps_if; [apply keeps_ret|].
    apply keeps_bind; [apply layout_keeps_ScanNextToken|]. intros ?. apply IH. }
  apply keeps_bind; [apply keeps_deref|]. intros t.
  apply keeps_if.
  { apply keeps_bind; [apply keeps_layout, layout_tokens_pop|]. intros ?.
    apply keeps_bind; [apply keeps_layout, layout_delete_token|]. intros ?. apply IH. }
  apply keeps_if.
  { apply keeps_if; [apply keeps_ret|].
    apply keeps_bind; [apply layout_keeps_ScanNextToken|]. intros ?. apply IH. }
  apply keeps_bind; [apply keeps_layout, layout_tokens_pop|]. intros ?. apply keeps_ret.
Qed.

Lemma layout_keeps_Scan n : keeps I (Scan n).
Proof.
  induction n as [|n IH]; [done|]. simpl.
  apply keeps_bind; [apply layout_keeps_GetNextToken|]. intros [p|]; [|apply keeps_ret].
  apply keeps_bind; [apply keeps_deref|]. intros t.
  apply keeps_bind; [apply keeps_layout, layout_print|]. intros ?.
  apply keeps_bind; [apply keeps_layout, layout_delete_token|]. intros ?. apply IH.
Qed.

Lemma keeps_ends_in {X} (m : M X) w w' : keeps I m -> I w -> ends_in (m w) w' -> I w'.
Proof.
  intros Hm HI He. specialize (Hm w HI). destruct (m w); simpl in He; by subst.
Qed.

Lemma reachable_keeps input w : I (boot input) -> reachable input w -> I w.
Proof.
  intros H0 Hr. induction Hr as [|n w w' _ IH He|n w w' _ IH He|n w w' _ IH He|p w w' _ IH He].
  - done.
  - eapply keeps_ends_in; [apply layout_keeps_ScanNextToken|exact IH|exact He].
  - eapply keeps_ends_in; [apply layout_keeps_GetNextToken|exact IH|exact He].
  - eapply keeps_ends_in; [apply layout_keeps_Scan|exact IH|exact He].
  - eapply keeps_ends_in; [apply keeps_layout, layout_delete_token|exact IH|exact He].
Qed.

End Layout_invariant.

(** ** The indentation stack (scanner.cpp:258-292) *)

Lemma increasing_cons c l :
  increasing (c :: l) <-> Forall (fun x => (x < c)%Z) l /\ increasing l.
Proof.
  unfold increasing. split.
  - intros H. by apply StronglySorted_inv in H as [? ?].
  - intros [? ?]. by constructor.
Qed.

Lemma increasing_push c top below :
  (top < c)%Z -> increasing (top :: below) -> increasing (c :: top :: below).
Proof.
  intros Hc H. apply increasing_cons. split; [|done].
  apply increasing_cons in H as [Hb _].
  constructor; [done|]. eapply Forall_impl; [exact Hb|]. simpl. intros; lia.
Qed.

Lemma increasing_app_r l1 l2 : increasing (l1 ++ l2) -> increasing l2.
Proof.
  induction l1 as [|a l1 IH]; [done|]. simpl. intros H.
  apply increasing_cons in H as [_ H]. auto.
Qed.

Lemma increasing_above_bottom body bottom :
  increasing (body ++ [bottom]) -> Forall (fun x => (bottom < x)%Z) body.
Proof.
  induction body as [|a body IH]; [constructor|]. simpl. intros H.
  apply increasing_cons in H as [Ha H]. constructor; [|auto].
  apply Forall_app in Ha as [_ Ha]. by apply Forall_inv in Ha.
Qed.

Lemma indents_ok_layout w w' : layout_le w w' -> indents_ok w -> indents_ok w'.
Proof.
  intros (Hs & _ & _ & Hi & _ & Hc) (? & ? & ? & ?).
  repeat split; rewrite <- ?Hi, <- ?Hs; auto.
Qed.

Lemma indents_ok_push T p : keeps indents_ok (tokens_push T p).
Proof. by intros w H. Qed.

Lemma indents_ok_pop_step c w top below :
  (-1 <= c)%Z ->
  m_indents (scanner w) = top :: below -> (c < top)%Z ->
  indents_ok w /\ scanning w -> indents_ok (pop_step w) /\ scanning (pop_step w).
Proof.
  intros Hc Hi Htop [(Hinc & Hst & Hsen & Hcol) [Hs He]]. split; [|done].
  destruct (Hsen Hs) as [body Hb]. rewrite Hi in Hb.
  destruct body as [|b body]; simpl in Hb.
  { injection Hb as -> _. lia. }
  injection Hb as -> ->.
  repeat split; simpl; rewrite ?Hi; simpl; try done.
  - rewrite Hi in Hinc. by apply increasing_cons in Hinc as [_ ?].
  - congruence.
  - intros _. by exists body.
Qed.

Lemma indents_ok_PopIndentTo :
  keeps (fun w => indents_ok w /\ scanning w) (s <- getS ;; PopIndentTo (m_column s)).
Proof.
  apply hoare_getS. intros s.
  intros w [[Hi Hsc] <-].
  assert (Hc : (-1 <= m_column (scanner w))%Z).
  { destruct Hi as (_ & _ & _ & ?). lia. }
  apply (PopIndentTo_keeps (fun w => indents_ok w /\ scanning w)); [|done].
  intros w1 top below. by apply indents_ok_pop_step.
Qed.

(** What [PushIndentTo] does to the stack. *)
Lemma PushIndentTo_stack (column : Z) (sequence : bool) (w : World) r w' :
  PushIndentTo column sequence w = Ret r w' ->
  m_startedStream (scanner w') = m_startedStream (scanner w)
  /\ m_endedStream (scanner w') = m_endedStream (scanner w)
  /\ m_flowLevel (scanner w') = m_flowLevel (scanner w)
  /\ m_column (scanner w') = m_column (scanner w)
  /\ ((r = None /\ m_indents (scanner w') = m_indents (scanner w) /\ trace w' = trace w)
      \/ (exists top below,
            m_indents (scanner w) = top :: below /\ (top < column)%Z
            /\ (m_flowLevel (scanner w) <= 0)%Z
            /\ m_indents (scanner w') = column :: top :: below
            /\ trace w' = trace w
                 ++ [if sequence then BlockSeqStartToken else BlockMapStartToken])).
Proof.
  destruct (Z.ltb_spec 0 (m_flowLevel (scanner w))) as [Hf|Hf].
  { rewrite PushIndentTo_flow by done. intros [= <- <-]. repeat split. by left. }
  destruct (m_indents (scanner w)) as [|top below] eqn:Hi.
  { by rewrite PushIndentTo_empty. }
  destruct (Z.leb_spec column top) as [Hc|Hc].
  { rewrite (PushIndentTo_shallow _ _ _ _ _ Hf Hi Hc). intros [= <- <-].
    repeat split. left. by rewrite Hi. }
  rewrite (PushIndentTo_deeper _ _ _ _ _ Hf Hi Hc). intros [= <- <-]. simpl.
  repeat split. right. exists top, below. by rewrite Hi.
Qed.

Lemma indents_ok_PushIndentTo (column : Z) (sequence : bool) :
  keeps (fun w => indents_ok w /\ scanning w) (PushIndentTo column sequence).
Proof.
  intros w [(Hinc & Hst & Hsen & Hcol) [Hs He]].
  destruct (PushIndentTo column sequence w) as [r w'| | |] eqn:E; try done.
  2:{ exfalso. revert E. unfold PushIndentTo, bind, getS. simpl.
      destruct (_ <? _)%Z; [done|]. destruct (m_indents _); [done|].
      destruct (_ <=? _)%Z; [done|]. simpl. by destruct (_ ++ _). }
  apply PushIndentTo_stack in E
    as (Es & Ee & _ & Ec & [(_ & Ei & _)|(top & below & Hi & Hc & _ & Hi' & _)]).
  - split; [|split; congruence].
    repeat split; rewrite ?Ei, ?Es, ?Ec; done.
  - split; [|split; congruence].
    repeat split; rewrite ?Hi', ?Es, ?Ec; try done.
    + rewrite Hi in Hinc. by apply increasing_push.
    + intros ?; congruence.
    + intros _. destruct (Hsen Hs) as [body Hb]. exists (column :: body).
      simpl. by rewrite <- Hb, Hi.
Qed.

Lemma PushIndentTo_returns (column : Z) (sequence : bool) (w : World) :
  m_indents (scanner w) <> [] ->
  exists r w', PushIndentTo column sequence w = Ret r w'.
Proof.
  intros Hne.
  destruct (Z.ltb_spec 0 (m_flowLevel (scanner w))) as [Hf|Hf].
  { rewrite PushIndentTo_flow by done. by eexists _, _. }
  destruct (m_indents (scanner w)) as [|top below] eqn:Hi; [done|].
  destruct (Z.leb_spec column top) as [Hc|Hc].
  { rewrite (PushIndentTo_shallow _ _ _ _ _ Hf Hi Hc). by eexists _, _. }
  rewrite (PushIndentTo_deeper _ _ _ _ _ Hf Hi Hc). by eexists _, _.
Qed.

Section Indents.
Context {C : Collaborators}.

Lemma indents_ok_reachable input w :
  respects indents_ok scanning -> reachable input w -> indents_ok w.
Proof.
  intros HC. apply reachable_keeps.
  - apply indents_ok_layout.
  - intros T p _. apply indents_ok_push.
  - apply indents_ok_PopIndentTo.
  - exact HC.
  - repeat split; try done. constructor.
Qed.

(** C4 (as amended).  The constructor leaves the indentation stack
    empty: until the stream starts no sentinel is there, and
    [PushIndentTo] in block context on an empty stack reads the top of
    an empty stack.  On a stack that is strictly increasing from the
    bottom to the top, [PushIndentTo] leaves the stack as it is or
    pushes one column that is strictly greater than the top,
    [PopIndentTo] removes from the top the entries that are greater than
    its argument and no other, and in both cases the stack is strictly
    increasing afterwards; [PopIndentTo] of a column that is not below
    the sentinel leaves the sentinel at the bottom; [IncreaseFlowLevel],
    [DecreaseFlowLevel] and the functions that read characters leave the
    stack alone.  If the scanner of StreamStart pushes the sentinel and
    the collaborators, called where [ScanNextToken] calls them, keep the
    shape of the stack, then in every reachable world the stack is
    strictly increasing, it is empty until the stream has started, and
    from then on it has the sentinel at its bottom, every other entry
    above it, so that it is not empty when [PushIndentTo] reads its top:
    [PushIndentTo] returns. *)
Theorem indent_stack_discipline :
  (forall input, m_indents (Scanner_ctor input) = [])
  /\ (forall column sequence w,
        (m_flowLevel (scanner w) <= 0)%Z -> m_indents (scanner w) = [] ->
        PushIndentTo column sequence w = Undefined EmptyStackTop)
  /\ (forall (column : Z) (sequence : bool) w r w',
        increasing (m_indents (scanner w)) ->
        PushIndentTo column sequence w = Ret r w' ->
        increasing (m_indents (scanner w'))
        /\ (m_indents (scanner w') = m_indents (scanner w)
            \/ exists top below,
                 m_indents (scanner w) = top :: below /\ (top < column)%Z
                 /\ m_indents (scanner w') = column :: top :: below))
  /\ (forall column w,
        increasing (m_indents (scanner w)) ->
        exists w' gone,
          PopIndentTo column w = Ret tt w'
          /\ m_indents (scanner w) = gone ++ m_indents (scanner w')
          /\ Forall (fun x => (column < x)%Z) gone
          /\ increasing (m_indents (scanner w'))
          /\ ((m_flowLevel (scanner w) <= 0)%Z ->
              match m_indents (scanner w') with
              | [] => True
              | top :: _ => (top <= column)%Z
              end))
  /\ (forall column w body,
        (-1 <= column)%Z ->
        m_indents (scanner w) = body ++ [(-1)%Z] ->
        exists w' body',
          PopIndentTo column w = Ret tt w'
          /\ m_indents (scanner w') = body' ++ [(-1)%Z])
  /\ frames (fun w w' => m_indents (scanner w') = m_indents (scanner w)) IncreaseFlowLevel
  /\ frames (fun w w' => m_indents (scanner w') = m_indents (scanner w)) DecreaseFlowLevel
  /\ (forall n, frames (fun w w' => m_indents (scanner w') = m_indents (scanner w)) (Eat n))
  /\ frames (fun w w' => m_indents (scanner w') = m_indents (scanner w)) EatLineBreak
  /\ (respects indents_ok scanning ->
      forall input w, reachable input w ->
        increasing (m_indents (scanner w))
        /\ (m_startedStream (scanner w) = false -> m_indents (scanner w) = [])
        /\ (m_startedStream (scanner w) = true ->
            (exists body, m_indents (scanner w) = body ++ [(-1)%Z]
                          /\ Forall (fun x => (-1 < x)%Z) body)
            /\ (forall column sequence,
                  exists r w', PushIndentTo column sequence w = Ret r w'))).
Proof.
  split; [done|]. split; [apply PushIndentTo_empty|].
  split.
  { intros column sequence w r w' Hinc E.
    apply PushIndentTo_stack in E as (_ & _ & _ & _ & [(_ & Ei & _)|(top & below & Hi & Hc & _ & Hi' & _)]).
    - rewrite Ei. split; [done|by left].
    - rewrite Hi'. split; [|right; by exists top, below].
      rewrite Hi in Hinc. by apply increasing_push. }
  split.
  { intros column w Hinc.
    pose (J := fun w' : World =>
      exists gone, m_indents (scanner w) = gone ++ m_indents (scanner w')
                   /\ Forall (fun x => (column < x)%Z) gone).
    destruct (PopIndentTo_spec J column) with (w := w) as (w' & E & (gone & Hg & Hall) & _ & Hh).
    - intros w1 top below Hi Hc (gone & Hg & Hall).
      exists (gone ++ [top]). simpl. rewrite Hi. simpl. split.
      + by rewrite Hg, Hi, <- app_assoc.
      + apply Forall_app. split; [done|]. by constructor.
    - exists []. by split.
    - exists w', gone. repeat split; try done.
      rewrite Hg in Hinc. by apply increasing_app_r in Hinc. }
  split.
  { intros column w body Hc Hb.
    pose (J := fun w' : World => exists body', m_indents (scanner w') = body' ++ [(-1)%Z]).
    destruct (PopIndentTo_spec J column) with (w := w) as (w' & E & (body' & Hb') & _).
    - intros w1 top below Hi Htop (b1 & Hb1). rewrite Hi in Hb1.
      destruct b1 as [|b b1]; simpl in Hb1.
      { injection Hb1 as -> _. lia. }
      injection Hb1 as -> ->. exists b1. simpl. by rewrite Hi.
    - by exists body.
    - by exists w', body'. }
  split.
  { intros w. unfold IncreaseFlowLevel, bind, getS, int_incr.
    by destruct (_ <? _)%Z. }
  split.
  { intros w. unfold DecreaseFlowLevel, bind, getS. by destruct (_ <? _)%Z. }
  split.
  { intros n. eapply frames_mono; [|apply cursor_Eat].
    intros w w' (?&?&?&?&?&?&?&?&?&?&?). done. }
  split.
  { eapply frames_mono; [|apply cursor_EatLineBreak].
    intros w w' (?&?&?&?&?&?&?&?&?&?&?). done. }
  intros HC input w Hr.
  destruct (indents_ok_reachable input w HC Hr) as (Hinc & Hst & Hsen & _).
  split; [done|]. split; [done|]. intros Hs.
  destruct (Hsen Hs) as [body Hb]. split.
  - exists body. split; [done|]. rewrite Hb in Hinc.
    by apply increasing_above_bottom.
  - intros column sequence. apply PushIndentTo_returns.
    rewrite Hb. by destruct body.
Qed.

End Indents.

(** C4, against the claim as stated: the Scanner as constructed is a
    reachable world, and its stack is empty: it holds no sentinel. *)
Lemma constructed_stack_has_no_sentinel :
  reachable (C := Ref.collaborators) [] (boot [])
  /\ m_startedStream (scanner (boot [])) = false
  /\ m_indents (scanner (boot [])) = []
  /\ (-1)%Z ∉ m_indents (scanner (boot [])).
Proof. split; [constructor|]. repeat split. simpl. set_solver. Qed.

(** ** The reference collaborators keep the layout invariants *)

Lemma keeps_int_incr I n : keeps I (int_incr n).
Proof. intros w Hw. unfold int_incr. by destruct (_ <? _)%Z. Qed.

Section Ref_respects.
Variable I : World -> Prop.
Hypothesis I_layout : forall w w', layout_le w w' -> I w -> I w'.
Hypothesis I_PushIndentTo : forall (column : Z) (sequence : bool),
  keeps (fun w => I w /\ scanning w) (PushIndentTo column sequence).
Hypothesis I_flow : forall n,
  keeps (fun w => I w /\ scanning w) (modS (set_flowLevel n)).
Hypothesis I_stream_start :
  hoare (fun w => I w /\ fresh_stream w)
    (modS (fun s => set_indents ((-1)%Z :: m_indents s)
                      (set_simpleKeyAllowed true (set_startedStream true s))))
    (fun _ => I) (fun _ => I).
Hypothesis I_stream_end :
  hoare (fun w => I w /\ scanning w) (modS (set_endedStream true))
    (fun _ => I) (fun _ => I).

Lemma ref_keeps_layout {X} (m : M X) :
  frames layout_le m -> keeps (fun w => I w /\ scanning w) m.
Proof.
  apply frames_keeps. intros w w' Hl [? ?]. split; [eauto|by eapply scanning_layout].
Qed.

Lemma ref_keeps_simpleKeyAllowed (f : Scanner -> bool) :
  keeps (fun w => I w /\ scanning w) (modS (fun s => set_simpleKeyAllowed (f s) s)).
Proof. apply ref_keeps_layout, layout_cursor, cursor_modS. by intros s. Qed.

Lemma ref_keeps_simpleKeyAllowed_const (b : bool) :
  keeps (fun w => I w /\ scanning w) (modS (set_simpleKeyAllowed b)).
Proof. apply ref_keeps_layout, layout_cursor, cursor_modS. by intros s. Qed.

Lemma ref_keeps_IncreaseFlowLevel :
  keeps (fun w => I w /\ scanning w) IncreaseFlowLevel.
Proof.
  unfold IncreaseFlowLevel.
  apply keeps_bind; [exact (keeps_getS _)|intros s].
  apply keeps_bind; [exact (keeps_int_incr _ _)|intros n]. apply I_flow.
Qed.

Lemma ref_keeps_DecreaseFlowLevel :
  keeps (fun w => I w /\ scanning w) DecreaseFlowLevel.
Proof.
  unfold DecreaseFlowLevel.
  apply keeps_bind; [exact (keeps_getS _)|intros s].
  apply keeps_if; [|exact (keeps_ret _ _)].
  intros w Hw. unfold modS. apply (I_flow (m_flowLevel (scanner w) - 1)%Z w Hw).
Qed.

Lemma ref_weaken {X} (m : M X) :
  keeps (fun w => I w /\ scanning w) m ->
  hoare (fun w => I w /\ scanning w) m (fun _ => I) (fun _ => I).
Proof. intros H. eapply hoare_conseq; [exact H|done|by intros ? ? [? _]|by intros ? ? [? _]]. Qed.

Local Ltac ref_keeps :=
  repeat first
    [ exact (keeps_ret _ _)
    | exact (keeps_getS _)
    | simple apply I_PushIndentTo
    | simple apply ref_keeps_IncreaseFlowLevel
    | simple apply ref_keeps_DecreaseFlowLevel
    | simple apply ref_keeps_simpleKeyAllowed_const
    | simple apply ref_keeps_simpleKeyAllowed
    | simple apply ref_keeps_layout;
        first [ simple apply layout_set_value
              | simple apply layout_cursor; solve [eauto with cursor] ]
    | simple apply keeps_bind; [|intros ?] ].

Lemma Ref_respects : respects (C := Ref.collaborators) I scanning.
Proof.
  split; [|split].
  - exact (keeps_ret _ _).
  - intros p. simpl. eapply hoare_bind; [apply I_stream_start|].
    intros ?. by apply hoare_ret.
  - intros T p HT HT'. simpl.
    destruct T; try done; simpl.
    + apply ref_weaken. ref_keeps.
    + apply ref_weaken. ref_keeps.
    + apply ref_weaken. ref_keeps.
    + apply ref_weaken. ref_keeps.
    + apply ref_weaken. ref_keeps.
    + apply ref_weaken. ref_keeps.
    + apply ref_weaken. ref_keeps.
    + apply ref_weaken. ref_keeps.
    + apply ref_weaken. ref_keeps.
    + apply ref_weaken. ref_keeps.
    + apply ref_weaken. ref_keeps.
    + apply ref_weaken. ref_keeps.
Qed.

End Ref_respects.

Lemma get_tokens_reachable {C : Collaborators} input calls fuel : forall w w',
  reachable input w -> get_tokens calls fuel w = Some w' -> reachable input w'.
Proof.
  induction calls as [|k IH]; intros w w' Hr; simpl.
  - by intros [= <-].
  - destruct (GetNextToken fuel w) as [r w1|e w1| |] eqn:E; try done.
    + apply IH. eapply reachable_GetNextToken; [exact Hr|]. by rewrite E.
    + apply IH. eapply reachable_GetNextToken; [exact Hr|]. by rewrite E.
Qed.

Lemma indents_ok_flow n :
  keeps (fun w => indents_ok w /\ scanning w) (modS (set_flowLevel n)).
Proof. by intros w H. Qed.

Lemma indents_ok_stream_start :
  hoare (fun w => indents_ok w /\ fresh_stream w)
    (modS (fun s => set_indents ((-1)%Z :: m_indents s)
                      (set_simpleKeyAllowed true (set_startedStream true s))))
    (fun _ => indents_ok) (fun _ => indents_ok).
Proof.
  intros w [(_ & Hst & _ & Hcol) [Hs _]]. simpl. repeat split; simpl; try done.
  - rewrite (Hst Hs). repeat constructor.
  - intros _. exists []. by rewrite (Hst Hs).
Qed.

Lemma indents_ok_stream_end :
  hoare (fun w => indents_ok w /\ scanning w) (modS (set_endedStream true))
    (fun _ => indents_ok) (fun _ => indents_ok).
Proof. by intros w [H _]. Qed.

Lemma Ref_respects_indents_ok : respects (C := Ref.collaborators) indents_ok scanning.
Proof.
  apply Ref_respects.
  - apply indents_ok_layout.
  - apply indents_ok_PushIndentTo.
  - apply indents_ok_flow.
  - apply indents_ok_stream_start.
  - apply indents_ok_stream_end.
Qed.

(** C4, on an example: after four calls of [GetNextToken] on the input
    [- - a] the stack holds the columns 2 and 0 over the sentinel. *)
Lemma indent_stack_discipline_witness :
  exists w, get_tokens (C := Ref.collaborators) 4 10 (boot (list_ascii_of_string "- - a"))
            = Some w
    /\ m_indents (scanner w) = [2; 0; -1]%Z
    /\ increasing (m_indents (scanner w))
    /\ (m_startedStream (scanner w) = false -> m_indents (scanner w) = [])
    /\ (m_startedStream (scanner w) = true ->
        (exists body, m_indents (scanner w) = body ++ [(-1)%Z]
                      /\ Forall (fun x => (-1 < x)%Z) body)
        /\ (forall column sequence,
              exists r w', PushIndentTo column sequence w = Ret r w')).
Proof.
  eexists. split; [vm_compute; reflexivity|]. split; [reflexivity|].
  destruct (indent_stack_discipline (C := Ref.collaborators))
    as (_ & _ & _ & _ & _ & _ & _ & _ & _ & H).
  apply (H Ref_respects_indents_ok (list_ascii_of_string "- - a")).
  apply (get_tokens_reachable _ 4 10 (boot (list_ascii_of_string "- - a")));
    [constructor|].
  vm_compute. reflexivity.
Defined.

(** ** Block starts and block ends *)





Lemma PushIndentTo_no_throw (column : Z) (sequence : bool) w e w' :
  PushIndentTo column sequence w <> Throw e w'.
Proof.
  unfold PushIndentTo, bind, getS. simpl.
  destruct (_ <? _)%Z; [done|]. destruct (m_indents _); [done|].
  destruct (_ <=? _)%Z; [done|]. simpl. by destruct (_ ++ _).
Qed.














(** ** Ownership of tokens (scanner.cpp:15-25, 144-149) *)

#[global] Instance owner_eq_refl : Reflexive owner_eq.
Proof. by intros w; repeat split. Qed.

#[global] Instance owner_eq_trans : Transitive owner_eq.
Proof. intros a b c (?&?&?&?) (?&?&?&?). repeat split; congruence. Qed.

Lemma cursor_owner w w' : cursor_eq w w' -> owner_eq w w'.
Proof. intros (Hs&?&?&?&?&?&_). repeat split; try done. by rewrite Hs. Qed.

Lemma owner_cursor {A} (m : M A) : frames cursor_eq m -> frames owner_eq m.
Proof. apply frames_mono, cursor_owner. Qed.

Lemma owns_owner_eq H w w' : owner_eq w w' -> owns H w -> owns H w'.
Proof.
  intros (Hd & Hb & Ht & Hl) (H1 & H2 & H3 & H4 & H5 & H6).
  unfold owns. rewrite <- Hd, <- Hb, <- Ht, <- Hl. done.
Qed.

Lemma owner_modS f :
  (forall s, m_tokens (f s) = m_tokens s /\ m_limboTokens (f s) = m_limboTokens s) ->
  frames owner_eq (modS f).
Proof. intros Hf w. simpl. destruct (Hf (scanner w)). by repeat split. Qed.

Lemma owner_deref p : frames owner_eq (deref p).
Proof. intros w. unfold deref. destruct (store w !! p); [reflexivity|done]. Qed.

Lemma owner_print t : frames owner_eq (print t).
Proof. intros w. by repeat split. Qed.

Lemma owner_set_value p v : frames owner_eq (Ref.set_value p v).
Proof.
  intros w. unfold Ref.set_value, bind, deref.
  destruct (store w !! p) as [t|] eqn:Hp; [|done]. simpl.
  repeat split; try done. simpl. rewrite dom_insert_lookup_L; [done|by eexists].
Qed.

Lemma owner_IncreaseFlowLevel : frames owner_eq IncreaseFlowLevel.
Proof.
  intros w. unfold IncreaseFlowLevel, bind, getS, int_incr.
  destruct (_ <? _)%Z; [by repeat split|done].
Qed.

Lemma owner_DecreaseFlowLevel : frames owner_eq DecreaseFlowLevel.
Proof.
  intros w. unfold DecreaseFlowLevel, bind, getS.
  destruct (_ <? _)%Z; by repeat split.
Qed.

(** A token is allocated and goes to the back of the queue. *)
Lemma owns_push_new H w w' :
  owns H w ->
  dom (store w') = {[brk w]} ∪ dom (store w) -> brk w' = S (brk w) ->
  m_tokens (scanner w') = m_tokens (scanner w) ++ [brk w] ->
  m_limboTokens (scanner w') = m_limboTokens (scanner w) ->
  owns H w'.
Proof.
  intros (H1 & H2 & H3 & H4 & H5 & H6) Hd Hb Ht Hl.
  assert (Hfresh : brk w ∉ dom (store w)) by (intros Hin; apply H6 in Hin; lia).
  unfold owns. rewrite Hd, Hb, Ht, Hl. repeat split.
  - apply NoDup_app. split; [done|]. split; [|apply NoDup_singleton].
    intros x Hx Hx'. apply list_elem_of_singleton in Hx' as ->.
    apply Hfresh. rewrite H2. set_solver.
  - rewrite H2. set_solver.
  - rewrite H2 in Hfresh. set_solver.
  - rewrite H2 in Hfresh. set_solver.
  - done.
  - intros p Hp. apply elem_of_union in Hp as [Hp|Hp].
    + apply elem_of_singleton in Hp as ->. lia.
    + apply H6 in Hp. lia.
Qed.

(** A token is allocated and goes to the limbo set. *)
Lemma owns_new_limbo H w w' :
  owns H w ->
  dom (store w') = {[brk w]} ∪ dom (store w) -> brk w' = S (brk w) ->
  m_tokens (scanner w') = m_tokens (scanner w) ->
  m_limboTokens (scanner w') = {[brk w]} ∪ m_limboTokens (scanner w) ->
  owns H w' /\ brk w ∈ m_limboTokens (scanner w').
Proof.
  intros (H1 & H2 & H3 & H4 & H5 & H6) Hd Hb Ht Hl.
  assert (Hfresh : brk w ∉ dom (store w)) by (intros Hin; apply H6 in Hin; lia).
  split; [|rewrite Hl; set_solver].
  unfold owns. rewrite Hd, Hb, Ht, Hl. rewrite H2 in Hfresh. repeat split.
  - done.
  - rewrite H2. set_solver.
  - set_solver.
  - done.
  - set_solver.
  - intros p Hp. apply elem_of_union in Hp as [Hp|Hp].
    + apply elem_of_singleton in Hp as ->. lia.
    + apply H6 in Hp. lia.
Qed.

(** A token goes from the limbo set to the back of the queue. *)
Lemma owns_limbo_to_queue H w w' p :
  owns H w -> p ∈ m_limboTokens (scanner w) ->
  dom (store w') = dom (store w) -> brk w' = brk w ->
  m_tokens (scanner w') = m_tokens (scanner w) ++ [p] ->
  m_limboTokens (scanner w') = m_limboTokens (scanner w) ∖ {[p]} ->
  owns H w'.
Proof.
  intros (H1 & H2 & H3 & H4 & H5 & H6) Hp Hd Hb Ht Hl.
  unfold owns. rewrite Hd, Hb, Ht, Hl. repeat split.
  - apply NoDup_app. split; [done|]. split; [|apply NoDup_singleton].
    intros x Hx Hx'. apply list_elem_of_singleton in Hx' as ->. set_solver.
  - rewrite H2. apply set_eq. intros x.
    rewrite !elem_of_union, elem_of_difference, !elem_of_list_to_set, elem_of_app,
      list_elem_of_singleton, elem_of_singleton.
    destruct (decide (x = p)); subst; tauto.
  - set_solver.
  - set_solver.
  - set_solver.
  - done.
Qed.

(** The front of the queue is taken off and destroyed. *)
Lemma owns_pop_delete H w w' p q :
  owns H w -> m_tokens (scanner w) = p :: q ->
  dom (store w') = dom (store w) ∖ {[p]} -> brk w' = brk w ->
  m_tokens (scanner w') = q ->
  m_limboTokens (scanner w') = m_limboTokens (scanner w) ->
  owns H w'.
Proof.
  intros (H1 & H2 & H3 & H4 & H5 & H6) Hq Hd Hb Ht Hl.
  unfold owns. rewrite Hd, Hb, Ht, Hl. rewrite Hq in *.
  apply NoDup_cons in H1 as [Hp H1]. repeat split.
  - done.
  - rewrite H2. apply set_eq. intros x.
    rewrite elem_of_difference, !elem_of_union, !elem_of_list_to_set, elem_of_cons,
      elem_of_singleton.
    destruct (decide (x = p)) as [->|]; [|tauto].
    split; [tauto|]. intros [[?|?]|?]; [done|set_solver|set_solver].
  - set_solver.
  - set_solver.
  - done.
  - intros x Hx. apply H6. set_solver.
Qed.

(** The front of the queue is taken off and handed to the caller. *)
Lemma owns_pop_handout H w w' p q :
  owns H w -> m_tokens (scanner w) = p :: q ->
  dom (store w') = dom (store w) -> brk w' = brk w ->
  m_tokens (scanner w') = q ->
  m_limboTokens (scanner w') = m_limboTokens (scanner w) ->
  p ∉ H /\ owns (H ∪ {[p]}) w'.
Proof.
  intros (H1 & H2 & H3 & H4 & H5 & H6) Hq Hd Hb Ht Hl.
  rewrite Hq in *. apply NoDup_cons in H1 as [Hp H1].
  split; [set_solver|].
  unfold owns. rewrite Hd, Hb, Ht, Hl. repeat split.
  - done.
  - rewrite H2. set_solver.
  - set_solver.
  - set_solver.
  - set_solver.
  - done.
Qed.

(** The caller destroys a token it holds. *)
Lemma owns_delete_owned H p :
  hoare (fun w => p ∉ H /\ owns (H ∪ {[p]}) w) (delete_token p)
    (fun _ => owns H) (fun _ => owns H).
Proof.
  intros w [Hp (H1 & H2 & H3 & H4 & H5 & H6)]. unfold delete_token.
  destruct (store w !! p) eqn:E; [|done]. simpl.
  unfold owns. simpl. rewrite dom_delete_L. repeat split.
  - done.
  - rewrite H2. set_solver.
  - done.
  - set_solver.
  - set_solver.
  - intros x Hx. apply H6. set_solver.
Qed.

Lemma owns_PushIndentTo H (column : Z) (sequence : bool) :
  keeps (owns H) (PushIndentTo column sequence).
Proof.
  intros w Hw.
  destruct (Z.ltb_spec 0 (m_flowLevel (scanner w))) as [Hf|Hf].
  { by rewrite PushIndentTo_flow. }
  destruct (m_indents (scanner w)) as [|top below] eqn:Hi.
  { by rewrite PushIndentTo_empty. }
  destruct (Z.leb_spec column top) as [Hc|Hc].
  { by rewrite (PushIndentTo_shallow _ _ _ _ _ Hf Hi Hc). }
  rewrite (PushIndentTo_deeper _ _ _ _ _ Hf Hi Hc).
  eapply owns_push_new; [exact Hw| | | |]; simpl; try done.
  by rewrite dom_insert_L.
Qed.

Lemma owns_pop_step H w : owns H w -> owns H (pop_step w).
Proof.
  intros Hw. eapply owns_push_new; [exact Hw| | | |]; simpl; try done.
  by rewrite dom_insert_L.
Qed.

Lemma owns_PopIndentTo H c : keeps (owns H) (PopIndentTo c).
Proof. apply PopIndentTo_keeps. intros w top below _ _. apply owns_pop_step. Qed.

Section Ownership.
Context {C : Collaborators}.
Hypothesis HC : keeps_ownership.

Lemma owns_ScanAndEnqueue H T : keeps (owns H) (ScanAndEnqueue T).
Proof.
  destruct HC as [_ HScan].
  intros w Hw. unfold ScanAndEnqueue.
  unfold bind at 1, new_token. unfold bind at 1, modS. simpl.
  match goal with |- match bind _ _ ?w2 with _ => _ end =>
    destruct (owns_new_limbo H w w2 Hw) as [Hw2 Hp2];
      [simpl; by rewrite dom_insert_L|done|done|done|];
    pose proof (HScan H T (brk w) w2 (conj Hw2 Hp2)) as HS;
    unfold bind at 1;
    destruct (ScanToken T (brk w) w2) as [q w3|e w3| |]; try done
  end.
  destruct HS as (-> & Hw3 & Hp3).
  unfold bind, tokens_push, modS. simpl.
  eapply owns_limbo_to_queue; [exact Hw3|exact Hp3| | | |]; done.
Qed.

Lemma owns_ScanNextToken H n : keeps (owns H) (ScanNextToken n).
Proof.
  apply keeps_ScanNextToken with (A := fun _ => True).
  - intros w w' Hc. apply owns_owner_eq, cursor_owner, Hc.
  - done.
  - done.
  - destruct HC as [HV _]. intros w [Hw _]. specialize (HV H w Hw).
    by destruct (ValidateSimpleKey w).
  - apply hoare_getS. intros s w [[Hw _] _].
    pose proof (owns_PopIndentTo H (m_column s) w Hw) as HP.
    by destruct (PopIndentTo (m_column s) w).
  - intros w [Hw _]. apply (owns_ScanAndEnqueue H _ w Hw).
  - intros T _ _ w [Hw _]. apply (owns_ScanAndEnqueue H _ w Hw).
Qed.

Lemma owns_GetNextToken H n :
  hoare (owns H) (GetNextToken n) (handed H) (fun _ => owns H).
Proof.
  induction n as [|n IH]; [done|]. intros w Hw.
  assert (Hscan : match (ScanNextToken n ;;; GetNextToken n) w with
                  | Ret r w' => handed H r w'
                  | Throw _ w' => owns H w'
                  | _ => True
                  end).
  { unfold bind. pose proof (owns_ScanNextToken H n w Hw) as HS.
    destruct (ScanNextToken n w) as [? w1|? w1| |]; try done. by apply IH. }
  destruct (m_tokens (scanner w)) as [|p q] eqn:Hq.
  { rewrite GetNextToken_empty by done. by destruct (m_endedStream _). }
  destruct (store w !! p) as [t|] eqn:Hp.
  2:{ simpl. unfold bind at 1, getS. rewrite Hq. unfold bind at 1, deref. by rewrite Hp. }
  destruct (status t) eqn:Hs.
  - rewrite (GetNextToken_tentative _ _ _ _ _ Hq Hp Hs). by destruct (m_endedStream _).
  - rewrite (GetNextToken_confirmed _ _ _ _ _ Hq Hp Hs). simpl.
    eapply owns_pop_handout; [exact Hw|exact Hq| | | |]; simpl; try done. by rewrite Hq.
  - rewrite (GetNextToken_retracted _ _ _ _ _ Hq Hp Hs). apply IH.
    eapply owns_pop_delete; [exact Hw|exact Hq| | | |]; simpl; try done.
    + by rewrite dom_delete_L.
    + by rewrite Hq.
Qed.

Lemma owns_Scan H n : keeps (owns H) (Scan n).
Proof.
  induction n as [|n IH]; [done|]. simpl.
  eapply hoare_bind; [apply owns_GetNextToken|]. intros [p|]; [|by apply hoare_ret].
  simpl.
  assert (HJ : forall w w', owner_eq w w' ->
                 p ∉ H /\ owns (H ∪ {[p]}) w -> p ∉ H /\ owns (H ∪ {[p]}) w').
  { intros w w' He [? ?]. split; [done|by eapply owns_owner_eq]. }
  assert (HE : forall (e : Exception) w, p ∉ H /\ owns (H ∪ {[p]}) w -> owns H w -> owns H w)
    by done.
  eapply hoare_bind with (Q := fun _ w => p ∉ H /\ owns (H ∪ {[p]}) w).
  { intros w Hw. unfold deref. by destruct (store w !! p). }
  intros t.
  eapply hoare_bind with (Q := fun _ w => p ∉ H /\ owns (H ∪ {[p]}) w).
  { intros w Hw. simpl. apply (HJ w); [by repeat split|done]. }
  intros ?.
  eapply hoare_bind; [apply owns_delete_owned|]. intros ?. apply IH.
Qed.

End Ownership.

(** The destructor. *)
Lemma delete_all_spec ps : forall w,
  NoDup ps -> (forall p, p ∈ ps -> p ∈ dom (store w)) ->
  exists w', delete_all ps w = Ret tt w'
    /\ dom (store w') = dom (store w) ∖ list_to_set ps
    /\ scanner w' = scanner w.
Proof.
  induction ps as [|p ps IH]; intros w Hnd Hin; simpl.
  - exists w. split; [done|]. split; [set_solver|done].
  - apply NoDup_cons in Hnd as [Hp Hnd].
    unfold bind, delete_token.
    destruct (store w !! p) as [t|] eqn:E.
    2:{ exfalso. assert (Hd : p ∈ dom (store w)) by (apply Hin; by left).
        apply elem_of_dom in Hd as [? ?]. congruence. }
    destruct (IH (set_store (delete p (store w)) w)) as (w' & -> & Hd & Hs).
    + done.
    + intros x Hx. simpl. rewrite dom_delete_L.
      apply elem_of_difference. split; [apply Hin; by right|].
      intros Hxp. apply elem_of_singleton in Hxp as ->. done.
    + exists w'. split; [done|]. split; [|done].
      rewrite Hd. simpl. rewrite dom_delete_L. set_solver.
Qed.

Lemma Scanner_dtor_spec H w :
  owns H w ->
  exists w', Scanner_dtor w = Ret tt w' /\ dom (store w') = H
    /\ m_tokens (scanner w') = [].
Proof.
  intros (H1 & H2 & H3 & H4 & H5 & H6).
  unfold Scanner_dtor, bind at 1, getS. unfold bind at 1.
  destruct (delete_all_spec (m_tokens (scanner w)) w) as (w1 & -> & Hd1 & Hs1).
  { done. }
  { intros p Hp. rewrite H2. set_solver. }
  unfold bind, modS.
  destruct (delete_all_spec (elements (m_limboTokens (scanner w)))
              (set_scanner (set_tokens [] (scanner w1)) w1)) as (w2 & -> & Hd2 & Hs2).
  { apply NoDup_elements. }
  { intros p Hp. simpl. rewrite Hd1, H2. apply elem_of_elements in Hp. set_solver. }
  exists w2. split; [done|]. split.
  - rewrite Hd2. simpl. rewrite Hd1, H2. rewrite list_to_set_elements_L. set_solver.
  - by rewrite Hs2.
Qed.

Lemma owns_boot input : owns ∅ (boot input).
Proof.
  unfold owns, boot. simpl. repeat split; try set_solver. constructor.
Qed.

(** C7 (as amended).  Provided [ValidateSimpleKey] and [ScanToken] keep
    the account of who owns the tokens ([ScanToken] leaving its token
    in limbo and returning it), every live token is at any time in the
    queue, in the limbo set or in the hands of the caller of
    [GetNextToken], whether the calls return or throw; the destructor
    destroys every token of the queue and of the limbo set, so that the
    tokens left allocated are exactly those handed to the caller and not
    destroyed by it.  In particular, when [GetNextToken] throws and the
    Scanner is destroyed, the tokens the caller holds are all that is
    left; and when [Scan()] throws and the Scanner is destroyed, no token
    is left allocated. *)
Theorem no_token_leak {C : Collaborators} :
  keeps_ownership ->
  (forall H n, hoare (owns H) (GetNextToken n) (handed H) (fun _ => owns H))
  /\ (forall H w, owns H w ->
        exists w', Scanner_dtor w = Ret tt w' /\ dom (store w') = H)
  /\ (forall H w n e w1, owns H w -> GetNextToken n w = Throw e w1 ->
        exists w', Scanner_dtor w1 = Ret tt w' /\ dom (store w') = H)
  /\ (forall input n e w, Scan n (boot input) = Throw e w ->
        exists w', Scanner_dtor w = Ret tt w' /\ store w' = ∅).
Proof.
  intros HC. split; [intros H n; by apply owns_GetNextToken|].
  split.
  { intros H w Hw. destruct (Scanner_dtor_spec H w Hw) as (w' & ? & ? & _). by exists w'. }
  split.
  { intros H w n e w1 Hw E.
    pose proof (owns_GetNextToken HC H n w Hw) as HG. rewrite E in HG.
    destruct (Scanner_dtor_spec H w1 HG) as (w' & ? & ? & _). by exists w'. }
  intros input n e w E.
  pose proof (owns_Scan HC ∅ n (boot input) (owns_boot input)) as HS. rewrite E in HS.
  destruct (Scanner_dtor_spec ∅ w HS) as (w' & ? & Hd & _).
  exists w'. split; [done|]. by apply dom_empty_inv_L.
Qed.

(** The reference collaborators, and the strict variant, keep the
    account. *)
Section Ref_ownership.
Variables (H : gset ptr) (p : ptr).

Lemma in_limbo_owner_eq w w' : owner_eq w w' -> in_limbo H p w -> in_limbo H p w'.
Proof.
  intros He [Hw Hp]. split; [by eapply owns_owner_eq|].
  destruct He as (_ & _ & _ & <-). done.
Qed.

Lemma in_limbo_frames {X} (m : M X) : frames owner_eq m -> keeps (in_limbo H p) m.
Proof. apply frames_keeps, in_limbo_owner_eq. Qed.

Lemma in_limbo_PushIndentTo (column : Z) (sequence : bool) :
  keeps (in_limbo H p) (PushIndentTo column sequence).
Proof.
  intros w [Hw Hp]. pose proof (owns_PushIndentTo H column sequence w Hw) as HP.
  destruct (PushIndentTo column sequence w) as [r w'|e w'| |] eqn:E; try done.
  - split; [done|].
    destruct (Z.ltb_spec 0 (m_flowLevel (scanner w))) as [Hf|Hf].
    { rewrite PushIndentTo_flow in E by done. by injection E as _ <-. }
    destruct (m_indents (scanner w)) as [|top below] eqn:Hi.
    { by rewrite PushIndentTo_empty in E. }
    destruct (Z.leb_spec column top) as [Hc|Hc].
    { rewrite (PushIndentTo_shallow _ _ _ _ _ Hf Hi Hc) in E. by injection E as _ <-. }
    rewrite (PushIndentTo_deeper _ _ _ _ _ Hf Hi Hc) in E. by injection E as _ <-.
  - by apply PushIndentTo_no_throw in E.
Qed.

Lemma in_limbo_PopIndentTo c : keeps (in_limbo H p) (PopIndentTo c).
Proof.
  apply PopIndentTo_keeps. intros w top below _ _ [Hw Hp].
  split; [by apply owns_pop_step|done].
Qed.

Local Ltac limbo_keeps :=
  first
    [ exact (keeps_getS _)
    | simple apply in_limbo_PushIndentTo
    | simple apply in_limbo_PopIndentTo
    | simple apply in_limbo_frames;
        first [ simple apply owner_IncreaseFlowLevel
              | simple apply owner_DecreaseFlowLevel
              | simple apply owner_set_value
              | simple apply owner_modS; by intros ?
              | simple apply owner_cursor; solve [eauto with cursor] ] ].

Local Ltac limbo_steps :=
  repeat (simple apply hoare_seq; [limbo_keeps|by intros ? ? [? _]|intros ?]).

Lemma Ref_ScanToken_ownership T :
  hoare (in_limbo H p) (Ref.ScanToken_ref T p)
    (fun q w => q = p /\ owns H w /\ p ∈ m_limboTokens (scanner w))
    (fun _ w => owns H w).
Proof.
  destruct T; simpl; limbo_steps; by apply hoare_ret.
Qed.

Lemma Strict_ScanToken_ownership T :
  hoare (in_limbo H p) (Strict.ScanToken_strict T p)
    (fun q w => q = p /\ owns H w /\ p ∈ m_limboTokens (scanner w))
    (fun _ w => owns H w).
Proof.
  destruct T; try apply Ref_ScanToken_ownership.
  unfold Strict.ScanToken_strict.
  apply hoare_getS. intros s.
  destruct (Strict.closed_quote _).
  - eapply hoare_conseq; [apply (Ref_ScanToken_ownership QuotedScalarToken)| | |]; try done.
    by intros w [? _].
  - apply hoare_throw. by intros w [[? _] _].
Qed.

End Ref_ownership.

Lemma Ref_keeps_ownership : keeps_ownership (C := Ref.collaborators).
Proof.
  split; [intros H; exact (keeps_ret _ _)|]. intros H T p. apply Ref_ScanToken_ownership.
Qed.

Lemma Strict_keeps_ownership : keeps_ownership (C := Strict.collaborators).
Proof.
  split; [intros H; exact (keeps_ret _ _)|]. intros H T p. apply Strict_ScanToken_ownership.
Qed.

(** C7, on an example: a quoted scalar that is not closed.  [Scan()]
    has printed and destroyed the StreamStart token when the scanner of
    the quoted scalar throws; its token is in the limbo set, and the
    destructor destroys it. *)
Lemma no_token_leak_witness :
  exists w w',
    Scan (C := Strict.collaborators) 10 (boot (list_ascii_of_string "'abc"))
    = Throw UnknownToken w
    /\ m_tokens (scanner w) = []
    /\ elements (m_limboTokens (scanner w)) = [1]
    /\ type <$> store w !! 1 = Some QuotedScalarToken
    /\ Scanner_dtor w = Ret tt w' /\ store w' = ∅.
Proof.
  eexists.
  destruct (no_token_leak (C := Strict.collaborators) Strict_keeps_ownership)
    as (_ & _ & _ & H).
  destruct (H (list_ascii_of_string "'abc") 10 UnknownToken
              (world_of (Scan (C := Strict.collaborators) 10
                           (boot (list_ascii_of_string "'abc")))))
    as (w' & Hd & He).
  { vm_compute. reflexivity. }
  exists w'. split; [vm_compute; reflexivity|].
  split; [reflexivity|]. split; [by vm_compute|]. split; [reflexivity|].
  split; [exact Hd|exact He].
Defined.

(** C7, against the claim as stated: on the input [{@] the error
    UnknownToken is raised while [Map::Parse] holds the FlowMapStart
    token it took with [GetNextToken]; the exception passes through
    [Map::Parse], which does not destroy the token, and the token is
    neither in the queue nor in the limbo set, so that it is still
    allocated after the destructor of the Scanner. *)
Lemma token_held_by_Map_Parse_is_not_released :
  exists w w',
    RefParser.parse_map 3 30 "{@" = Throw UnknownToken w
    /\ m_tokens (scanner w) = []
    /\ elements (m_limboTokens (scanner w)) = []
    /\ Scanner_dtor w = Ret tt w'
    /\ type <$> store w' !! 1 = Some FlowMapStartToken.
Proof.
  eexists _, _. split; [vm_compute; reflexivity|].
  split; [reflexivity|]. split; [by vm_compute|].
  split; [vm_compute; reflexivity|]. by vm_compute.
Qed.

(** * Further properties of scanner.cpp and map.cpp *)

(** ** What GetNextToken and Scan hand out (scanner.cpp:312-361) *)

Section Handing_out.
Context {C : Collaborators}.

(** X1.  Whatever the input and the collaborators, when
    [GetNextToken] started in [w] returns a token, it has gone from [w]
    by destroying Retracted tokens at the front of the queue and by
    calls of [ScanNextToken] (made when no token was available and the
    stream had not ended) to a world in which that token is at the front
    of the queue, live and Confirmed, and it has taken it off the queue
    and changed nothing else: the token returned is live and Confirmed,
    and the queue it leaves is the rest of that queue.  A Tentative or
    Retracted token is never returned. *)
Theorem GetNextToken_returns_confirmed (fuel : nat) : forall (w w' : World) (p : ptr),
  GetNextToken fuel w = Ret (Some p) w' ->
  exists w1 q t,
    waits w w1
    /\ m_tokens (scanner w1) = p :: q
    /\ store w1 !! p = Some t /\ status t = Confirmed
    /\ w' = popped w1
    /\ m_tokens (scanner w') = q
    /\ store w' !! p = Some t.
Proof.
  induction fuel as [|n IH]; intros w w' p; [done|].
  assert (Hscan : m_endedStream (scanner w) = false -> none_available w ->
            (ScanNextToken n ;;; GetNextToken n) w = Ret (Some p) w' ->
            exists w1 q t,
              waits w w1 /\ m_tokens (scanner w1) = p :: q
              /\ store w1 !! p = Some t /\ status t = Confirmed
              /\ w' = popped w1 /\ m_tokens (scanner w') = q /\ store w' !! p = Some t).
  { intros He Hn. unfold bind.
    destruct (ScanNextToken n w) as [[] w0| | |] eqn:E; try done. intros H.
    destruct (IH _ _ _ H) as (w1 & q & t & Hw & ?).
    exists w1, q, t. split; [|done]. by eapply waits_scan. }
  destruct (m_tokens (scanner w)) as [|p0 q] eqn:Hq.
  - rewrite GetNextToken_empty by done.
    destruct (m_endedStream (scanner w)) eqn:He; [done|].
    apply Hscan; [done|]. unfold none_available. by rewrite Hq.
  - destruct (store w !! p0) as [t|] eqn:Hp.
    2:{ simpl. unfold bind at 1, getS. rewrite Hq. unfold bind at 1, deref. by rewrite Hp. }
    destruct (status t) eqn:Hs.
    + rewrite (GetNextToken_tentative _ _ _ _ _ Hq Hp Hs).
      destruct (m_endedStream (scanner w)) eqn:He; [done|].
      apply Hscan; [done|]. unfold none_available. rewrite Hq. by exists t.
    + rewrite (GetNextToken_confirmed _ _ _ _ _ Hq Hp Hs). intros [= <- <-].
      exists w, q, t. repeat split; try done; [apply waits_here|simpl; by rewrite Hq].
    + rewrite (GetNextToken_retracted _ _ _ _ _ Hq Hp Hs). intros H.
      destruct (IH _ _ _ H) as (w1 & q1 & t1 & Hw & ?).
      exists w1, q1, t1. split; [|done]. by eapply waits_discard.
Qed.

Lemma Scan_Ret_inv (fuel : nat) : forall (w w' : World),
  Scan fuel w = Ret tt w' ->
  m_endedStream (scanner w') = true /\ none_available w'.
Proof.
  induction fuel as [|n IH]; intros w w'; [done|]. simpl.
  unfold bind at 1. destruct (GetNextToken n w) as [[p|] w1| | |] eqn:E; try done.
  - unfold bind, deref, print, delete_token.
    destruct (store w1 !! p) as [t|]; [|done]. simpl.
    destruct (store w1 !! p); [|done]. apply IH.
  - intros [= <-]. by apply GetNextToken_None_inv in E.
Qed.

(** X2.  Whatever the input and the collaborators, [Scan()] returns
    only once the stream has ended and no token is available any more
    (the queue is empty or a Tentative token is at its front). *)
Theorem Scan_returns_at_end_of_stream (fuel : nat) (w w' : World) :
  Scan fuel w = Ret tt w' ->
  m_endedStream (scanner w') = true /\ none_available w'.
Proof. apply Scan_Ret_inv. Qed.

Lemma foldl_delete_None (rs : list ptr) : forall (st : gmap nat Token) (r : ptr),
  st !! r = None -> foldl (fun st p => delete p st) st rs !! r = None.
Proof.
  induction rs as [|x rs IH]; intros st r Hst; simpl; [done|].
  apply IH. destruct (decide (x = r)) as [->|Hx].
  - apply lookup_delete_eq.
  - by rewrite lookup_delete_ne.
Qed.

Lemma Scan_S (n : nat) :
  Scan (S n) = (r <- GetNextToken n ;;
                match r with
                | None => ret tt
                | Some p => t <- deref p ;; print t ;;; delete_token p ;;; Scan n
                end).
Proof. reflexivity. Qed.

Lemma Scan_confirmed (n : nat) (w : World) (p : ptr) (q : list ptr) (t : Token) :
  m_tokens (scanner w) = p :: q -> store w !! p = Some t -> status t = Confirmed ->
  Scan (S (S n)) w
  = Scan (S n) (set_store (delete p (store w)) (set_cout (cout w ++ [t]) (popped w))).
Proof.
  intros Hq Hp Hs. rewrite (Scan_S (S n)). unfold bind at 1.
  rewrite (GetNextToken_confirmed _ _ _ _ _ Hq Hp Hs).
  unfold bind at 1, deref. simpl. rewrite Hp.
  unfold bind at 1, print. unfold bind at 1, delete_token. simpl. by rewrite Hp.
Qed.

(** X3.  Once the stream has ended, [Scan()] drains a queue of live,
    distinct, Confirmed tokens in first-in first-out order: it prints
    them in the order of the queue, destroys each of them and no other
    token, and returns with the queue empty. *)
Theorem Scan_drains_queue (ps : list ptr) : forall (k : nat) (w : World) (ts : list Token),
  m_endedStream (scanner w) = true ->
  m_tokens (scanner w) = ps ->
  NoDup ps ->
  Forall2 (fun p t => store w !! p = Some t /\ status t = Confirmed) ps ts ->
  exists w',
    Scan (length ps + 2 + k) w = Ret tt w'
    /\ cout w' = cout w ++ ts
    /\ m_tokens (scanner w') = []
    /\ store w' = foldl (fun st p => delete p st) (store w) ps
    /\ Forall (fun p => store w' !! p = None) ps.
Proof.
  induction ps as [|p ps IH]; intros k w ts He Hq Hnd Hts.
  - apply Forall2_nil_inv_l in Hts as ->. exists w. cbn [length Nat.add].
    rewrite Scan_S. unfold bind. rewrite GetNextToken_empty, He by done.
    repeat split; try done. by rewrite app_nil_r.
  - apply Forall2_cons_inv_l in Hts as (t & ts' & [Hp Hs] & Hts & ->).
    apply NoDup_cons in Hnd as [Hnp Hnd].
    replace (length (p :: ps) + 2 + k) with (S (S (length ps + 1 + k))) by (simpl; lia).
    rewrite (Scan_confirmed _ _ _ _ _ Hq Hp Hs).
    replace (S (length ps + 1 + k)) with (length ps + 2 + k) by lia.
    match goal with |- exists w', Scan _ ?w1 = _ /\ _ =>
      destruct (IH k w1 ts') as (w' & E & Hc & Hq' & Hst & Hgone)
    end.
    + done.
    + simpl. by rewrite Hq.
    + done.
    + simpl. clear -Hts Hnp. induction Hts as [|p' t' ps ts' [H1 H2] _ IH']; constructor.
      * split; [|done]. rewrite lookup_delete_ne; [done|]. set_solver.
      * apply IH'. set_solver.
    + exists w'. split; [done|]. simpl in Hc, Hst. split; [by rewrite Hc, <- app_assoc|].
      split; [done|]. split; [done|]. constructor; [|done].
      rewrite Hst. apply foldl_delete_None, lookup_delete_eq.
Qed.

End Handing_out.

Lemma Scan_drains_queue_witness :
  exists w', Scan 5 three_queued = Ret tt w'
    /\ cout w' = [Token_ctor FlowSeqStartToken; mkToken PlainScalarToken true true "a";
                  Token_ctor FlowSeqEndToken]
    /\ m_tokens (scanner w') = [].
Proof.
  destruct (Scan_drains_queue [0; 1; 2] 0 three_queued
    [Token_ctor FlowSeqStartToken; mkToken PlainScalarToken true true "a";
     Token_ctor FlowSeqEndToken]) as (w' & E & Hc & Hq & _).
  - reflexivity.
  - reflexivity.
  - repeat constructor; set_solver.
  - repeat constructor.
  - exists w'. repeat split; assumption.
Defined.

Lemma GetNextToken_returns_confirmed_witness :
  let w := boot (list_ascii_of_string "a") in
  let w' := after_first_token "a" in
  exists w1 q t,
    waits w w1
    /\ m_tokens (scanner w1) = 0 :: q
    /\ store w1 !! 0 = Some t /\ status t = Confirmed
    /\ w' = popped w1
    /\ m_tokens (scanner w') = q
    /\ store w' !! 0 = Some t.
Proof.
  intros w w'.
  apply (GetNextToken_returns_confirmed 5 w w' 0).
  vm_compute. reflexivity.
Defined.

Lemma Scan_returns_at_end_of_stream_witness :
  let w' := world_of (Ref.run_Scan 12 "[1,2]") in
  m_endedStream (scanner w') = true /\ none_available w'.
Proof.
  intros w'.
  apply (Scan_returns_at_end_of_stream 12 (boot (list_ascii_of_string "[1,2]")) w').
  vm_compute. reflexivity.
Defined.

(** ** Map::Parse, Map::ParseBlock and Map::ParseFlow (map.cpp:426-507) *)

Section Map_entries.
Context {C : Collaborators} {P : ParserDeps}.

Lemma parse_entry_extends (n : nat) (m m' : list (Node * Node)) (w w' : World) :
  parse_entry n m w = Ret m' w' -> exists e, m' = m ++ [e].
Proof.
  unfold parse_entry. intros H.
  unfold bind at 1 in H. destruct (Node_Parse n w) as [key w1| | |]; try done.
  unfold bind at 1 in H. destruct (next_is_value n w1) as [[] w2| | |]; try done.
  - unfold bind at 1 in H. destruct (PopNextToken n w2) as [[] w3| | |]; try done.
    unfold bind at 1 in H. destruct (Node_Parse n w3) as [val w4| | |]; try done.
    injection H as <- <-. by eexists.
  - injection H as <- <-. by eexists.
Qed.

Lemma ParseBlock_extends (fuel : nat) : forall (m m' : list (Node * Node)) (w w' : World),
  ParseBlock fuel m w = Ret m' w' -> m `prefix_of` m'.
Proof.
  induction fuel as [|n IH]; intros m m' w w' H; [done|]. simpl in H.
  unfold bind at 1 in H. destruct (PeekNextToken n w) as [[p|] w1| | |]; try done.
  2:{ by injection H as <- <-. }
  unfold bind at 1, deref in H. destruct (store w1 !! p) as [t|]; try done.
  destruct (negb _ && negb _); [by injection H as <- <-|].
  unfold bind at 1 in H. destruct (PopNextToken n w1) as [[] w2| | |]; try done.
  unfold bind at 1, deref in H. destruct (store w2 !! p) as [t'|]; try done.
  destruct (bool_decide (type t' = TT_BLOCK_END)); [by injection H as <- <-|].
  unfold bind at 1 in H. destruct (parse_entry n m w2) as [m1 w3| | |] eqn:E; try done.
  apply parse_entry_extends in E as [e ->]. apply IH in H.
  etrans; [|exact H]. by apply prefix_app_r.
Qed.

Lemma ParseFlow_extends (fuel : nat) : forall (m m' : list (Node * Node)) (w w' : World),
  ParseFlow fuel m w = Ret m' w' -> m `prefix_of` m'.
Proof.
  induction fuel as [|n IH]; intros m m' w w' H; [done|]. simpl in H.
  unfold bind at 1 in H. destruct (PeekNextToken n w) as [[p|] w1| | |]; try done.
  2:{ by injection H as <- <-. }
  unfold bind at 1, deref in H. destruct (store w1 !! p) as [t|]; try done.
  destruct (bool_decide (type t = TT_FLOW_MAP_END)).
  { unfold bind at 1 in H. destruct (EatNextToken n w1) as [[] w2| | |]; try done.
    by injection H as <- <-. }
  destruct (negb (bool_decide (type t = TT_KEY))); [by injection H as <- <-|].
  unfold bind at 1 in H. destruct (PopNextToken n w1) as [[] w2| | |]; try done.
  unfold bind at 1 in H. destruct (parse_entry n m w2) as [m1 w3| | |] eqn:E; try done.
  apply parse_entry_extends in E as [e ->].
  unfold bind at 1 in H. destruct (ParseFlow_separator n w3) as [[] w4| | |]; try done.
  - apply IH in H. etrans; [|exact H]. by apply prefix_app_r.
  - injection H as <- <-. by apply prefix_app_r.
Qed.

Lemma Map_Parse_extends (fuel : nat) (m m' : list (Node * Node)) (w w' : World) :
  Map_Parse fuel m w = Ret m' w' -> m `prefix_of` m'.
Proof.
  unfold Map_Parse. intros H.
  unfold bind at 1 in H. destruct (GetNextToken fuel w) as [[p|] w1| | |]; try done.
  unfold bind at 1, deref in H. destruct (store w1 !! p) as [t|]; try done.
  unfold bind at 1 in H.
  assert (G : forall w0 (body : M (list (Node * Node))),
             (forall m1 w2, body w0 = Ret m1 w2 -> m `prefix_of` m1) ->
             match body w0 with
             | Ret a w2 => (delete_token p ;;; ret a) w2
             | Throw e w2 => Throw e w2
             | Undefined u => Undefined u
             | Diverge => Diverge
             end = Ret m' w' -> m `prefix_of` m').
  { intros w0 body Hb Hr. destruct (body w0) as [m1 w2| | |]; try done.
    specialize (Hb _ _ eq_refl).
    unfold bind, delete_token in Hr. destruct (store w2 !! p); try done.
    by injection Hr as <- <-. }
  match type of H with match ?b w1 with _ => _ end = _ => apply (G w1 b); [|exact H] end.
  intros m1 w2 Hb.
  destruct (type t);
    first [ by eapply ParseBlock_extends | by eapply ParseFlow_extends
          | by injection Hb as <- <- ].
Qed.

(** X4.  Whatever the scanner and [Node::Parse] do, a call of
    [Map::Parse] that returns has kept every entry the map had: each
    pair of [m_data] is still there, as often as it was, and parsing
    has only added pairs.  (Nothing is said of the order of the pairs,
    which in the container is that of the key addresses.) *)
Theorem Map_Parse_keeps_entries (fuel : nat) (m m' : list (Node * Node)) (w w' : World) :
  Map_Parse fuel m w = Ret m' w' -> m ⊆+ m'.
Proof.
  intros H. apply Map_Parse_extends in H as [k ->].
  by apply submseteq_inserts_r.
Qed.

(** X5.  When the token that [Map::Parse] takes is neither a
    BlockMapStart nor a FlowMapStart, the switch has no case for it:
    the call destroys the token and returns without an error, and the
    map is as it was. *)
Theorem Map_Parse_other_token (fuel : nat) (m : list (Node * Node))
    (w w1 : World) (p : ptr) (t : Token) :
  GetNextToken fuel w = Ret (Some p) w1 ->
  store w1 !! p = Some t ->
  type t <> TT_BLOCK_MAP_START -> type t <> TT_FLOW_MAP_START ->
  Map_Parse fuel m w = Ret m (freed [p] w1).
Proof.
  intros E Hp H1 H2. rewrite (Map_Parse_token _ _ _ _ _ _ E Hp).
  assert (G : (m' <- ret m ;; delete_token p ;;; ret m') w1 = Ret m (freed [p] w1)).
  { unfold bind, ret, delete_token. by rewrite Hp. }
  by destruct (type t).
Qed.

(** X6.  [Map::ParseBlock] reads [pToken->type] again after
    [PopNextToken()] (map.cpp:449-450): when [PopNextToken] destroys the
    token it takes off the queue, that read is of a destroyed object. *)
Theorem ParseBlock_reads_popped_token (n : nat) (m : list (Node * Node))
    (w w1 w2 : World) (p : ptr) (t : Token) :
  PeekNextToken n w = Ret (Some p) w1 ->
  store w1 !! p = Some t ->
  type t = TT_KEY \/ type t = TT_BLOCK_END ->
  PopNextToken n w1 = Ret tt w2 ->
  store w2 !! p = None ->
  ParseBlock (S n) m w = Undefined DanglingPointer.
Proof.
  intros E Hp Ht E2 Hgone. simpl. rewrite (bind_Ret _ _ _ _ _ E).
  unfold bind at 1, deref. rewrite Hp.
  replace (negb (bool_decide (type t = TT_KEY)) && negb (bool_decide (type t = TT_BLOCK_END)))
    with false.
  2:{ destruct Ht as [-> | ->]; reflexivity. }
  rewrite (bind_Ret _ _ _ _ _ E2). unfold bind, deref. by rewrite Hgone.
Qed.

End Map_entries.

Lemma Map_Parse_keeps_entries_witness :
  let m0 := [(Node_scalar "x", Node_scalar "y")] in
  let w := after_stream_start "{? a : 1, ? b : 2}" in
  let m' := m0 ++ [(Node_scalar "a", Node_scalar "1"); (Node_scalar "b", Node_scalar "2")] in
  Map_Parse (P := RefParser.parser_deps 3) 40 m0 w
  = Ret m' (world_of (Map_Parse (P := RefParser.parser_deps 3) 40 m0 w))
  /\ m0 ⊆+ m'.
Proof.
  intros m0 w m'.
  assert (E : Map_Parse (P := RefParser.parser_deps 3) 40 m0 w
              = Ret m' (world_of (Map_Parse (P := RefParser.parser_deps 3) 40 m0 w))).
  { vm_compute. reflexivity. }
  split; [exact E|].
  exact (Map_Parse_keeps_entries (P := RefParser.parser_deps 3) 40 m0 m' w _ E).
Defined.

Lemma Map_Parse_other_token_witness :
  Map_Parse (P := RefParser.parser_deps 3) 5 [] (boot (list_ascii_of_string "a"))
  = Ret [] (freed [0] (after_first_token "a")).
Proof.
  apply (Map_Parse_other_token (P := RefParser.parser_deps 3) 5 []
           (boot (list_ascii_of_string "a")) (after_first_token "a") 0
           (Token_ctor StreamStartToken)).
  - vm_compute. reflexivity.
  - vm_compute. reflexivity.
  - discriminate.
  - discriminate.
Defined.

Lemma ParseBlock_reads_popped_token_witness :
  let w := flow_map_body "? a" in
  ParseBlock (P := destroying_deps) 31 [] w = Undefined DanglingPointer.
Proof.
  intros w.
  apply (ParseBlock_reads_popped_token (P := destroying_deps) 30 [] w
           (world_of (RefParser.PeekNextToken_ref 30 w))
           (world_of (RefParser.EatNextToken_ref 30
                        (world_of (RefParser.PeekNextToken_ref 30 w))))
           1 (Token_ctor KeyToken)).
  - vm_compute. reflexivity.
  - vm_compute. reflexivity.
  - left. reflexivity.
  - vm_compute. reflexivity.
  - vm_compute. reflexivity.
Defined.

(** ** Reading characters: GetChar, GetChar(n), Eat (scanner.cpp:32-59) *)

Lemma append_String (acc : string) (c : ascii) (s : string) :
  (acc +:+ String c EmptyString) +:+ s = acc +:+ String c s.
Proof.
  induction acc as [|a acc IH]; [done|].
  change (String a ((acc +:+ String c EmptyString) +:+ s) = String a (acc +:+ String c s)).
  by rewrite IH.
Qed.

Lemma append_EmptyString (acc : string) : acc +:+ EmptyString = acc.
Proof.
  induction acc as [|a acc IH]; [done|].
  change (String a (acc +:+ EmptyString) = String a acc). by rewrite IH.
Qed.

Lemma GetChar_good (w : World) (c : ascii) (r : list ascii) :
  good (INPUT (scanner w)) = true ->
  rest (INPUT (scanner w)) = c :: r ->
  (m_column (scanner w) < INT_MAX)%Z ->
  (c = newline -> (m_line (scanner w) < INT_MAX)%Z) ->
  exists w',
    GetChar w = Ret c w'
    /\ rest (INPUT (scanner w')) = r
    /\ good (INPUT (scanner w')) = true
    /\ position w' = advance (position w) c
    /\ m_simpleKeyAllowed (scanner w') = m_simpleKeyAllowed (scanner w).
Proof.
  destruct w as [[[l eof fail] q lim st en sk fl ind ln col] sto b tr co].
  simpl. intros Hg -> Hc Hl.
  unfold GetChar, bind, getS, int_incr, modS, INPUT_get, istream_get, advance, position.
  simpl. apply Z.ltb_lt in Hc as ->. simpl. rewrite Hg. simpl.
  destruct (Ascii.eqb c newline) eqn:Hn; simpl.
  - apply Ascii.eqb_eq in Hn. apply Hl, Z.ltb_lt in Hn as ->. simpl.
    eexists. repeat split. exact Hg.
  - eexists. repeat split. exact Hg.
Qed.

Lemma GetChar_n_Eat_n (n : nat) : forall (acc : string) (w : World),
  Eat_n n w = (GetChar_n n acc ;;; ret tt) w.
Proof.
  induction n as [|n IH]; intros acc w; [done|]. simpl.
  unfold bind. destruct (GetChar w) as [ch w1| | |]; try done.
  by rewrite (IH (acc +:+ String ch EmptyString)).
Qed.

(** X7.  On a good stream that holds at least [n] more characters,
    and as long as the counters stay below INT_MAX, [GetChar(n)] returns
    the next [n] characters in their order and consumes exactly them;
    [Eat(n)] leaves the Scanner in the same state.  The position
    advances by one column for each character other than a line feed,
    and to column 0 of the next line for each line feed. *)
Theorem GetChars_reads_and_counts (n : nat) (w : World) :
  good (INPUT (scanner w)) = true ->
  n <= length (rest (INPUT (scanner w))) ->
  (0 <= m_column (scanner w))%Z ->
  (m_column (scanner w) + Z.of_nat n <= INT_MAX)%Z ->
  (m_line (scanner w) + Z.of_nat n <= INT_MAX)%Z ->
  exists w',
    GetChars (Z.of_nat n) w
    = Ret (string_of_list_ascii (take n (rest (INPUT (scanner w))))) w'
    /\ Eat (Z.of_nat n) w = Ret tt w'
    /\ rest (INPUT (scanner w')) = drop n (rest (INPUT (scanner w)))
    /\ position w' = foldl advance (position w) (take n (rest (INPUT (scanner w))))
    /\ m_simpleKeyAllowed (scanner w') = m_simpleKeyAllowed (scanner w)
    /\ cursor_eq w w'.
Proof.
  unfold GetChars, Eat. rewrite Nat2Z.id.
  assert (G : forall acc,
    good (INPUT (scanner w)) = true ->
    n <= length (rest (INPUT (scanner w))) ->
    (0 <= m_column (scanner w))%Z ->
    (m_column (scanner w) + Z.of_nat n <= INT_MAX)%Z ->
    (m_line (scanner w) + Z.of_nat n <= INT_MAX)%Z ->
    exists w',
      GetChar_n n acc w
      = Ret (acc +:+ string_of_list_ascii (take n (rest (INPUT (scanner w))))) w'
      /\ rest (INPUT (scanner w')) = drop n (rest (INPUT (scanner w)))
      /\ position w' = foldl advance (position w) (take n (rest (INPUT (scanner w))))
      /\ m_simpleKeyAllowed (scanner w') = m_simpleKeyAllowed (scanner w)).
  { revert w. induction n as [|n IH]; intros w acc Hg Hn H0 Hc Hl.
    - exists w. cbn [GetChar_n take drop foldl string_of_list_ascii].
      by rewrite append_EmptyString.
    - destruct (rest (INPUT (scanner w))) as [|c r] eqn:Hr; [simpl in Hn; lia|].
      destruct (GetChar_good w c r Hg Hr) as (w1 & E & Hr1 & Hg1 & Hp1 & Hk1); [lia|intros _; lia|].
      simpl in Hn.
      assert (Hpos : (0 <= m_column (scanner w1) <= m_column (scanner w) + 1
                      /\ m_line (scanner w1) <= m_line (scanner w) + 1)%Z).
      { unfold position, advance in Hp1. simpl in Hp1.
        destruct (Ascii.eqb c newline); injection Hp1 as -> ->; lia. }
      destruct (IH w1 (acc +:+ String c EmptyString)) as (w' & E' & Hr' & Hp' & Hk');
        [done|rewrite Hr1; lia|lia|lia|lia|].
      exists w'. simpl. unfold bind. rewrite E, E', Hr1, append_String.
      repeat split; [by rewrite Hr', Hr1|by rewrite Hp', Hp1, Hr1|by rewrite Hk', Hk1]. }
  intros Hg Hn H0 Hc Hl.
  destruct (G EmptyString Hg Hn H0 Hc Hl) as (w' & E & Hr & Hp & Hk).
  exists w'. split; [exact E|]. split.
  { rewrite (GetChar_n_Eat_n n EmptyString). unfold bind. by rewrite E. }
  repeat split; try done.
  all: pose proof (cursor_GetChar_n n EmptyString w) as Hcur; rewrite E in Hcur;
       destruct Hcur as (?&?&?&?&?&?&?&?&?&?&?); done.
Qed.

Lemma GetChars_reads_and_counts_witness :
  exists w',
    GetChars 4 (boot (list_ascii_of_string "a
bcd")) = Ret "a
bc" w'
    /\ rest (INPUT (scanner w')) = ["d"%char]
    /\ position w' = (1, 2)%Z.
Proof.
  destruct (GetChars_reads_and_counts 4 (boot (list_ascii_of_string "a
bcd"))) as (w' & E & _ & Hr & Hp & _).
  - reflexivity.
  - simpl. lia.
  - simpl. lia.
  - vm_compute. discriminate.
  - vm_compute. discriminate.
  - exists w'. split; [exact E|]. split; [exact Hr|exact Hp].
Defined.

Lemma GetChar_exhausted (w : World) :
  good (INPUT (scanner w)) = false \/ rest (INPUT (scanner w)) = [] ->
  (m_column (scanner w) < INT_MAX)%Z ->
  exists w',
    GetChar w = Ret "255"%char w'
    /\ rest (INPUT (scanner w')) = rest (INPUT (scanner w))
    /\ failbit (INPUT (scanner w')) = true
    /\ m_column (scanner w') = (m_column (scanner w) + 1)%Z
    /\ m_line (scanner w') = m_line (scanner w).
Proof.
  destruct w as [[[l eof fail] q lim st en sk fl ind ln col] sto b tr co].
  simpl. intros Hx Hc.
  unfold GetChar, bind, getS, int_incr, modS, INPUT_get, istream_get.
  simpl. apply Z.ltb_lt in Hc as ->. simpl.
  destruct (good _) eqn:Hg.
  - destruct Hx as [Hx | ->]; [done|]. simpl. eexists. by repeat split.
  - simpl. eexists. by repeat split.
Qed.

(** X8.  At the end of the input [Eat(n)] consumes nothing and sets
    the fail bit of the stream, and yet it adds [n] to the column: the
    column counts the calls of [GetChar], not the characters read. *)
Theorem Eat_past_end_counts_columns (n : nat) : forall (w : World),
  rest (INPUT (scanner w)) = [] ->
  0 < n ->
  (m_column (scanner w) + Z.of_nat n <= INT_MAX)%Z ->
  exists w',
    Eat (Z.of_nat n) w = Ret tt w'
    /\ rest (INPUT (scanner w')) = []
    /\ failbit (INPUT (scanner w')) = true
    /\ m_column (scanner w') = (m_column (scanner w) + Z.of_nat n)%Z
    /\ m_line (scanner w') = m_line (scanner w).
Proof.
  unfold Eat. rewrite Nat2Z.id.
  induction n as [|n IH]; intros w Hr Hn Hc; [lia|].
  destruct (GetChar_exhausted w) as (w1 & E & Hr1 & Hf1 & Hc1 & Hl1); [by right|lia|].
  simpl. unfold bind. rewrite E.
  destruct n as [|n].
  - exists w1. simpl. rewrite Hr1, Hr, Hc1. repeat split; try done; lia.
  - destruct (IH w1) as (w' & E' & Hr' & Hf' & Hc' & Hl'); [by rewrite Hr1|lia|lia|].
    exists w'. rewrite E'. repeat split; try done; [lia|congruence].
Qed.

Lemma Eat_past_end_counts_columns_witness :
  exists w', Eat 3 (boot []) = Ret tt w'
    /\ rest (INPUT (scanner w')) = []
    /\ m_column (scanner w') = 3%Z.
Proof.
  destruct (Eat_past_end_counts_columns 3 (boot [])) as (w' & E & Hr & _ & Hc & _).
  - reflexivity.
  - lia.
  - vm_compute. discriminate.
  - exists w'. split; [exact E|]. split; [exact Hr|exact Hc].
Defined.

(** ** Skipping to the next token (scanner.cpp:76-85 and 224-252) *)

Lemma IsWhitespaceToBeEaten_blank (s : Scanner) (ch : ascii) :
  IsWhitespaceToBeEaten s ch = true -> ch = space \/ ch = tab.
Proof.
  unfold IsWhitespaceToBeEaten.
  destruct (Ascii.eqb ch space) eqn:E1; [left; by apply Ascii.eqb_eq|].
  destruct (Ascii.eqb ch tab) eqn:E2; [right; by apply Ascii.eqb_eq|done].
Qed.

Lemma istream_peek_some (i : istream) (c : ascii) (i' : istream) :
  istream_peek i = (Some c, i') ->
  i' = i /\ good i = true /\ exists r, rest i = c :: r.
Proof.
  unfold istream_peek. destruct (good i) eqn:Hg; [|done].
  destruct (rest i) as [|c' r] eqn:Hr; [done|].
  intros [= -> <-]. repeat split. by exists r.
Qed.

Lemma istream_peek_rest (i : istream) :
  rest (snd (istream_peek i)) = rest i.
Proof.
  unfold istream_peek. destruct (good i); [|done].
  by destruct (rest i) eqn:Hr.
Qed.

Lemma istream_peek_twice (i : istream) :
  fst (istream_peek (snd (istream_peek i))) = fst (istream_peek i).
Proof.
  unfold istream_peek at 2 3. destruct (good i) eqn:Hg.
  - destruct (rest i) as [|c r] eqn:Hr; simpl.
    + unfold istream_peek, good. simpl. done.
    + unfold istream_peek. by rewrite Hg, Hr.
  - simpl. unfold istream_peek, good. simpl. by rewrite andb_false_r.
Qed.

Lemma set_INPUT_same (w : World) :
  set_scanner (set_INPUT (INPUT (scanner w)) (scanner w)) w = w.
Proof. by destruct w as [[] ? ? ? ?]. Qed.

Lemma EatWhitespace_S (n : nat) (w : World) :
  EatWhitespace (S n) w
  = let w1 := set_scanner (set_INPUT (snd (istream_peek (INPUT (scanner w)))) (scanner w)) w in
    if IsWhitespaceToBeEaten (scanner w1) (to_char (fst (istream_peek (INPUT (scanner w)))))
    then (GetChar ;;; EatWhitespace n) w1
    else Ret tt w1.
Proof.
  cbn [EatWhitespace]. unfold bind at 1, INPUT_peek.
  destruct (istream_peek (INPUT (scanner w))) as [c i]. simpl.
  unfold bind at 1, getS. destruct (IsWhitespaceToBeEaten _ _); [|done].
  change (Eat 1) with (GetChar ;;; ret tt). unfold bind.
  by destruct (GetChar _).
Qed.

(** X9.  The white-space loop of [ScanToNextToken] has enough with one
    round per character left plus one: it then returns, having consumed
    spaces and tabs only, on one line and one column per character, and
    it stops in front of a character that [IsWhitespaceToBeEaten]
    rejects (or at the end of the input). *)
Theorem EatWhitespace_eats_blanks (n : nat) : forall (w : World),
  length (rest (INPUT (scanner w))) < n ->
  (m_column (scanner w) + Z.of_nat (length (rest (INPUT (scanner w)))) <= INT_MAX)%Z ->
  exists w' ws,
    EatWhitespace n w = Ret tt w'
    /\ rest (INPUT (scanner w)) = ws ++ rest (INPUT (scanner w'))
    /\ Forall (fun c => c = space \/ c = tab) ws
    /\ m_line (scanner w') = m_line (scanner w)
    /\ m_column (scanner w') = (m_column (scanner w) + Z.of_nat (length ws))%Z
    /\ IsWhitespaceToBeEaten (scanner w')
         (to_char (fst (istream_peek (INPUT (scanner w'))))) = false.
Proof.
  induction n as [|n IH]; intros w Hn Hc; [lia|].
  rewrite EatWhitespace_S. cbv zeta.
  set (w1 := set_scanner (set_INPUT (snd (istream_peek (INPUT (scanner w)))) (scanner w)) w).
  destruct (IsWhitespaceToBeEaten (scanner w1) _) eqn:Hw.
  - apply IsWhitespaceToBeEaten_blank in Hw as Hb.
    destruct (istream_peek (INPUT (scanner w))) as [[c|] i] eqn:Hp.
    2:{ simpl in Hb. by destruct Hb. }
    apply istream_peek_some in Hp as (-> & Hg & r & Hr). simpl in Hb.
    assert (Hw1 : w1 = w) by apply set_INPUT_same. rewrite Hw1 in *. clear w1 Hw1.
    rewrite Hr in Hn, Hc. cbn [length] in Hn, Hc. rewrite Nat2Z.inj_succ in Hc.
    destruct (GetChar_good w c r Hg Hr) as (w2 & E & Hr2 & Hg2 & Hp2 & Hk2); [lia| |].
    { intros ->. by destruct Hb. }
    assert (Hne : Ascii.eqb c newline = false) by (by destruct Hb as [-> | ->]).
    unfold position, advance in Hp2. rewrite Hne in Hp2. simpl in Hp2.
    injection Hp2 as Hl2 Hc2.
    destruct (IH w2) as (w' & ws & E' & Hrs & Hws & Hl' & Hc' & Hstop);
      [rewrite Hr2; lia|rewrite Hr2, Hc2; lia|].
    exists w', (c :: ws). unfold bind. rewrite E, E'.
    repeat split; try done.
    + rewrite Hr. simpl. f_equal. by rewrite <- Hrs, Hr2.
    + by constructor.
    + congruence.
    + rewrite Hc', Hc2. simpl length. lia.
  - exists w1, []. subst w1. simpl in *. repeat split; try done.
    + by rewrite istream_peek_rest.
    + lia.
    + by rewrite istream_peek_twice.
Qed.

Lemma EatWhitespace_eats_blanks_witness :
  let w := boot (list_ascii_of_string "  a b") in
  exists w' ws,
    EatWhitespace 6 w = Ret tt w'
    /\ rest (INPUT (scanner w)) = ws ++ rest (INPUT (scanner w'))
    /\ Forall (fun c => c = space \/ c = tab) ws
    /\ m_line (scanner w') = m_line (scanner w)
    /\ m_column (scanner w') = (m_column (scanner w) + Z.of_nat (length ws))%Z
    /\ IsWhitespaceToBeEaten (scanner w')
         (to_char (fst (istream_peek (INPUT (scanner w'))))) = false.
Proof.
  intros w. apply (EatWhitespace_eats_blanks 6 w).
  - simpl. lia.
  - vm_compute. discriminate.
Defined.

Section Next_token.
Context {C : Collaborators}.

Lemma Matches_eq (re : istream -> bool) (w : World) :
  Matches re w = Ret (re (INPUT (scanner w))) w.
Proof. reflexivity. Qed.

Lemma ScanToNextToken_loop_stops (n inner : nat) : forall (w w' : World),
  ScanToNextToken_loop n inner w = Ret tt w' ->
  Exp_Break (INPUT (scanner w')) = false.
Proof.
  induction n as [|n IH]; intros w w' H; [done|]. cbn [ScanToNextToken_loop] in H.
  unfold bind at 1 in H. destruct (EatWhitespace inner w) as [[] w1| | |]; try done.
  rewrite (bind_Ret _ _ _ _ _ (Matches_eq Exp_Comment w1)) in H.
  unfold bind at 1 in H.
  destruct ((if Exp_Comment (INPUT (scanner w1)) then EatToLineBreak inner else ret tt) w1)
    as [[] w2| | |]; try done.
  rewrite (bind_Ret _ _ _ _ _ (Matches_eq Exp_Break w2)) in H.
  destruct (Exp_Break (INPUT (scanner w2))) eqn:Hb; cbn [negb] in H.
  - unfold bind at 1 in H. destruct (EatLineBreak w2) as [[] w3| | |]; try done.
    unfold bind at 1 in H. destruct (ValidateSimpleKey w3) as [[] w4| | |]; try done.
    unfold bind at 1, getS in H. unfold bind at 1 in H.
    destruct ((if (m_flowLevel (scanner w4) =? 0)%Z
               then modS (set_simpleKeyAllowed true) else ret tt) w4)
      as [[] w5| | |]; try done.
    by apply IH in H.
  - by injection H as <-.
Qed.

(** X10.  Whatever the patterns of exp.h and [ValidateSimpleKey] are,
    [ScanToNextToken] returns only where [Exp::Break] does not match:
    it never leaves the reading position in front of a line break. *)
Theorem ScanToNextToken_stops_off_line_break (fuel : nat) (w w' : World) :
  ScanToNextToken fuel w = Ret tt w' ->
  Exp_Break (INPUT (scanner w')) = false.
Proof. apply ScanToNextToken_loop_stops. Qed.

End Next_token.

Lemma ScanToNextToken_stops_off_line_break_witness :
  let w := boot (list_ascii_of_string "  # note

  a") in
  ScanToNextToken 9 w = Ret tt (world_of (ScanToNextToken 9 w))
  /\ rest (INPUT (scanner (world_of (ScanToNextToken 9 w)))) = ["a"%char]
  /\ Exp_Break (INPUT (scanner (world_of (ScanToNextToken 9 w)))) = false.
Proof.
  intros w.
  assert (E : ScanToNextToken 9 w = Ret tt (world_of (ScanToNextToken 9 w))).
  { vm_compute. reflexivity. }
  split; [exact E|]. split; [vm_compute; reflexivity|].
  exact (ScanToNextToken_stops_off_line_break 9 w _ E).
Defined.

(** ** The indentation stack and the flow level (scanner.cpp:258-308) *)

(** What [PopIndentTo column] has done to the world [w] it started in
    when it is in [w']: the levels [gone] are off the stack and one new
    BlockEnd token for each of them is at the back of the queue. *)
Lemma PopIndentTo_rest (c : Z) (w w' : World) :
  match m_indents (scanner w') with [] => True | t :: _ => (t <= c)%Z end ->
  PopIndentTo c w' = Ret tt w'.
Proof.
  intros Hh. unfold PopIndentTo, bind, getS. destruct (_ <? _)%Z; [done|].
  destruct (m_indents (scanner w')) as [|t below]; [done|]. simpl.
  by apply Z.ltb_ge in Hh as ->.
Qed.

(** X11.  [PopIndentTo(column)] always returns.  In flow context
    ([m_flowLevel > 0]) it changes nothing, whatever levels are on the
    stack.  In block context it takes off the stack, from the top, the
    levels deeper than [column] and stops at the first level that is
    not, and for each level taken off it adds one newly allocated
    BlockEnd token at the back of the queue; the tokens that were queued
    stay in front, in their order, and no existing token is changed.  In
    both contexts a second call with the same column changes nothing. *)
Theorem PopIndentTo_queues_block_ends (c : Z) (w : World) :
  exists w' gone,
    PopIndentTo c w = Ret tt w'
    /\ m_indents (scanner w) = gone ++ m_indents (scanner w')
    /\ Forall (fun level => (c < level)%Z) gone
    /\ ((0 < m_flowLevel (scanner w))%Z -> w' = w /\ gone = [])
    /\ ((m_flowLevel (scanner w) <= 0)%Z ->
        match m_indents (scanner w') with [] => True | t :: _ => (t <= c)%Z end)
    /\ m_tokens (scanner w') = m_tokens (scanner w) ++ seq (brk w) (length gone)
    /\ brk w' = brk w + length gone
    /\ trace w' = trace w ++ replicate (length gone) BlockEndToken
    /\ (forall i, i < length gone -> store w' !! (brk w + i) = Some (Token_ctor BlockEndToken))
    /\ (forall p, p < brk w -> store w' !! p = store w !! p)
    /\ PopIndentTo c w' = Ret tt w'.
Proof.
  destruct (Z.ltb_spec 0 (m_flowLevel (scanner w))) as [Hfl|Hfl].
  { assert (E : PopIndentTo c w = Ret tt w).
    { unfold PopIndentTo, bind, getS. by apply Z.ltb_lt in Hfl as ->. }
    exists w, []. simpl. rewrite !app_nil_r, Nat.add_0_r.
    repeat split; try done; lia. }
  set (J := fun w' : World => exists gone,
    m_indents (scanner w) = gone ++ m_indents (scanner w')
    /\ Forall (fun level => (c < level)%Z) gone
    /\ m_tokens (scanner w') = m_tokens (scanner w) ++ seq (brk w) (length gone)
    /\ brk w' = brk w + length gone
    /\ trace w' = trace w ++ replicate (length gone) BlockEndToken
    /\ (forall i, i < length gone -> store w' !! (brk w + i) = Some (Token_ctor BlockEndToken))
    /\ (forall p, p < brk w -> store w' !! p = store w !! p)).
  destruct (PopIndentTo_spec J c) with (w := w) as (w' & E & (gone & HJ) & Hf & Hh).
  - intros w1 top below Hi Hc (gone & H1 & H2 & H3 & H4 & H5 & H6 & H7).
    exists (gone ++ [top]). simpl. rewrite Hi in *. simpl.
    rewrite length_app, Nat.add_1_r. repeat split.
    + by rewrite <- app_assoc.
    + apply Forall_app. split; [done|]. by constructor.
    + rewrite H3, H4, <- app_assoc. f_equal. by rewrite seq_S.
    + lia.
    + rewrite H5, <- app_assoc. f_equal. by rewrite replicate_S_end.
    + intros i Hi'. rewrite H4. destruct (decide (i = length gone)) as [->|Hne].
      * apply lookup_insert_eq.
      * rewrite lookup_insert_ne by lia. apply H6. lia.
    + intros p Hp. rewrite lookup_insert_ne by lia. by apply H7.
  - exists []. simpl. rewrite !app_nil_r, Nat.add_0_r. repeat split; try done. lia.
  - destruct HJ as (H1 & H2 & H3 & H4 & H5 & H6 & H7).
    exists w', gone. split; [done|]. split; [done|]. split; [done|].
    split; [intros ?; lia|]. repeat split; try done.
    by apply PopIndentTo_rest, Hh.
Qed.

(** X12.  In block context, a level that [PushIndentTo] has pushed is
    taken off again by [PopIndentTo] of a column between the old top
    and the new level: the stack is as it was, and the queue has gained
    the block start token and, behind it, the BlockEnd token. *)
Theorem PushIndentTo_PopIndentTo_round_trip (column c : Z) (sequence : bool)
    (w : World) (top : Z) (below : list Z) :
  (m_flowLevel (scanner w) <= 0)%Z ->
  m_indents (scanner w) = top :: below ->
  (top <= c < column)%Z ->
  exists w',
    (PushIndentTo column sequence ;;; PopIndentTo c) w = Ret tt w'
    /\ m_indents (scanner w') = top :: below
    /\ m_tokens (scanner w') = m_tokens (scanner w) ++ [brk w; S (brk w)]
    /\ trace w' = trace w ++ [if sequence then BlockSeqStartToken else BlockMapStartToken;
                              BlockEndToken]
    /\ store w' = <[S (brk w) := Token_ctor BlockEndToken]>
                    (<[brk w := Token_ctor (if sequence then BlockSeqStartToken
                                            else BlockMapStartToken)]> (store w)).
Proof.
  intros Hf Hi [Hc1 Hc2]. unfold bind at 1.
  rewrite (PushIndentTo_deeper _ _ _ _ _ Hf Hi) by lia.
  unfold PopIndentTo. unfold bind at 1, getS. cbn [scanner m_flowLevel set_tokens set_indents].
  destruct w as [[i q lim st en sk fl ind ln col] sto b tr co]. simpl in *. subst ind.
  apply Z.ltb_ge in Hf as ->. apply Z.ltb_lt in Hc2 as ->.
  unfold bind, modS, new_token, tokens_push. simpl.
  apply Z.ltb_ge in Hc1 as ->.
  eexists. split; [reflexivity|]. simpl. by rewrite <- !app_assoc.
Qed.

Lemma PushIndentTo_PopIndentTo_round_trip_witness :
  let w := after_first_token "a" in
  exists w',
    (PushIndentTo 4 true ;;; PopIndentTo 0) w = Ret tt w'
    /\ m_indents (scanner w') = [(-1)%Z]
    /\ m_tokens (scanner w') = m_tokens (scanner w) ++ [brk w; S (brk w)]
    /\ trace w' = trace w ++ [BlockSeqStartToken; BlockEndToken]
    /\ store w' = <[S (brk w) := Token_ctor BlockEndToken]>
                    (<[brk w := Token_ctor BlockSeqStartToken]> (store w)).
Proof.
  intros w. apply (PushIndentTo_PopIndentTo_round_trip 4 0 true w (-1) []).
  - vm_compute. discriminate.
  - reflexivity.
  - lia.
Defined.

(** X13.  Entering a flow collection and leaving it again restores
    the Scanner: below INT_MAX, [IncreaseFlowLevel] followed by
    [DecreaseFlowLevel] leaves the world as it was.  On its own
    [DecreaseFlowLevel] stops at zero: a flow level that is not negative
    stays so, and at zero the call changes nothing. *)
Theorem flow_level_round_trip (w : World) :
  (0 <= m_flowLevel (scanner w) < INT_MAX)%Z ->
  (IncreaseFlowLevel ;;; DecreaseFlowLevel) w = Ret tt w
  /\ exists w', DecreaseFlowLevel w = Ret tt w'
       /\ m_flowLevel (scanner w') = Z.max 0 (m_flowLevel (scanner w) - 1)
       /\ (m_flowLevel (scanner w) = 0%Z -> w' = w).
Proof.
  destruct w as [[i q lim st en sk fl ind ln col] sto b tr co]. simpl. intros [H0 H1].
  split.
  - unfold IncreaseFlowLevel, DecreaseFlowLevel, bind, getS, int_incr, modS. simpl.
    apply Z.ltb_lt in H1 as ->. simpl.
    assert ((0 <? fl + 1)%Z = true) as -> by (apply Z.ltb_lt; lia).
    unfold set_scanner, set_flowLevel. simpl.
    by replace (fl + 1 - 1)%Z with fl by lia.
  - unfold DecreaseFlowLevel, bind, getS, modS. simpl.
    destruct (Z.ltb_spec 0 fl).
    + eexists. split; [reflexivity|]. unfold set_scanner, set_flowLevel. simpl. split; lia.
    + eexists. split; [reflexivity|]. simpl. split; [lia|done].
Qed.

Lemma flow_level_round_trip_witness :
  let w := world_of (GetNextToken 5 (after_first_token "[")) in
  m_flowLevel (scanner w) = 1%Z
  /\ (IncreaseFlowLevel ;;; DecreaseFlowLevel) w = Ret tt w.
Proof.
  intros w. split; [reflexivity|].
  apply (flow_level_round_trip w). vm_compute. split; [discriminate|reflexivity].
Defined.

(** ** The order of the queue (scanner.cpp:144-220) *)

Lemma queue_extends_owner_eq (q0 : list ptr) (w w' : World) :
  owner_eq w w' -> queue_extends q0 w -> queue_extends q0 w'.
Proof. intros (_ & _ & Ht & _). unfold queue_extends. by rewrite Ht. Qed.

Lemma queue_extends_frames {X} (q0 : list ptr) (m : M X) :
  frames owner_eq m -> keeps (queue_extends q0) m.
Proof. apply frames_keeps, queue_extends_owner_eq. Qed.

Lemma queue_extends_cursor (q0 : list ptr) (w w' : World) :
  cursor_eq w w' -> queue_extends q0 w -> queue_extends q0 w'.
Proof. intros Hc. by apply queue_extends_owner_eq, cursor_owner. Qed.

Lemma queue_extends_PopIndentTo (q0 : list ptr) (c : Z) :
  keeps (queue_extends q0) (PopIndentTo c).
Proof.
  apply PopIndentTo_keeps. intros w top below _ _ Hq.
  unfold queue_extends, pop_step in *. simpl. by apply prefix_app_r.
Qed.

Lemma queue_extends_PushIndentTo (q0 : list ptr) (column : Z) (sequence : bool) :
  keeps (queue_extends q0) (PushIndentTo column sequence).
Proof.
  intros w Hw.
  destruct (Z.ltb_spec 0 (m_flowLevel (scanner w))) as [Hf|Hf].
  { by rewrite PushIndentTo_flow. }
  destruct (m_indents (scanner w)) as [|top below] eqn:Hi.
  { by rewrite PushIndentTo_empty. }
  destruct (Z.leb_spec column top) as [Hc|Hc].
  { by rewrite (PushIndentTo_shallow _ _ _ _ _ Hf Hi Hc). }
  rewrite (PushIndentTo_deeper _ _ _ _ _ Hf Hi Hc).
  unfold queue_extends in *. simpl. by apply prefix_app_r.
Qed.

Section Queue_order.
Context {C : Collaborators}.
Hypothesis H_appends : appends_only.

Lemma queue_extends_ScanAndEnqueue (q0 : list ptr) (T : TokenType) :
  keeps (queue_extends q0) (ScanAndEnqueue T).
Proof.
  unfold ScanAndEnqueue.
  apply keeps_bind; [by intros w Hw|]. intros p.
  apply keeps_bind; [by intros w Hw|]. intros ?.
  apply keeps_bind; [exact (proj2 (H_appends q0) T p)|]. intros q.
  apply keeps_bind; [|intros ?; by intros w Hw].
  intros w Hw. unfold queue_extends in *. simpl. by apply prefix_app_r.
Qed.

(** X14.  When [ValidateSimpleKey] and the [ScanToken] functions only
    add to the queue, so does [ScanNextToken], whether it returns or
    throws: the tokens that were queued are still queued, in front and
    in their order. *)
Theorem ScanNextToken_appends (n : nat) (w : World) :
  match ScanNextToken n w with
  | Ret _ w' | Throw _ w' => m_tokens (scanner w) `prefix_of` m_tokens (scanner w')
  | Undefined _ | Diverge => True
  end.
Proof.
  assert (K : keeps (queue_extends (m_tokens (scanner w))) (ScanNextToken n)).
  { apply keeps_ScanNextToken with (A := fun _ => True).
    - apply queue_extends_cursor.
    - done.
    - done.
    - apply (keeps_and (queue_extends (m_tokens (scanner w))) (fun _ => True));
        [exact (proj1 (H_appends _))|].
      intros w0 _. by destruct (ValidateSimpleKey w0).
    - apply (keeps_and (queue_extends (m_tokens (scanner w))) (fun _ => True)).
      + intros w0 Hw0. unfold bind, getS. by apply queue_extends_PopIndentTo.
      + intros w0 _. by destruct ((s <- getS ;; PopIndentTo (m_column s)) w0).
    - intros w0 [Hw0 _]. by apply queue_extends_ScanAndEnqueue.
    - intros T _ _ w0 [Hw0 _]. by apply queue_extends_ScanAndEnqueue. }
  specialize (K w). unfold queue_extends in K at 1.
  by apply K.
Qed.

End Queue_order.

Local Ltac queue_keeps q0 :=
  first
    [ exact (keeps_getS _)
    | simple apply queue_extends_PushIndentTo
    | simple apply queue_extends_PopIndentTo
    | simple apply (queue_extends_frames q0);
        first [ simple apply owner_IncreaseFlowLevel
              | simple apply owner_DecreaseFlowLevel
              | simple apply owner_set_value
              | simple apply owner_modS; by intros ?
              | simple apply owner_cursor; solve [eauto with cursor] ] ].

Lemma Ref_appends_only : appends_only (C := Ref.collaborators).
Proof.
  intros q0. split; [exact (keeps_ret _ _)|]. intros T p.
  destruct T; simpl;
    repeat (simple apply keeps_bind; [queue_keeps q0|intros ?]);
    exact (keeps_ret _ _).
Qed.

Lemma ScanNextToken_appends_witness :
  let w := world_of (ScanNextToken 5 (world_of (ScanNextToken 5
                       (boot (list_ascii_of_string "- a"))))) in
  m_tokens (scanner w) = [0; 2; 1]
  /\ appends_only (C := Ref.collaborators)
  /\ match ScanNextToken 5 w with
     | Ret _ w' | Throw _ w' => m_tokens (scanner w) `prefix_of` m_tokens (scanner w')
     | Undefined _ | Diverge => True
     end.
Proof.
  intros w. split; [reflexivity|]. split; [exact Ref_appends_only|].
  exact (ScanNextToken_appends Ref_appends_only 5 w).
Defined.

(** ** Scan() to its end, then the destructor (scanner.cpp:15-25, 351-361) *)

(** X15.  Provided [ValidateSimpleKey] and [ScanToken] keep the
    account of who owns the tokens, a call of [Scan()] that returns has
    destroyed every token it was handed, and the destructor destroys
    what is left in the queue and in the limbo set: after [Scan()] and
    the destruction of the Scanner no token is left allocated. *)
Theorem Scan_then_destructor_frees_all {C : Collaborators} :
  keeps_ownership ->
  forall (input : list ascii) (n : nat) (w : World),
    Scan n (boot input) = Ret tt w ->
    m_endedStream (scanner w) = true
    /\ exists w', Scanner_dtor w = Ret tt w' /\ store w' = ∅
                  /\ m_tokens (scanner w') = [].
Proof.
  intros HC input n w E. split.
  { by apply Scan_Ret_inv in E as [? _]. }
  pose proof (owns_Scan HC ∅ n (boot input) (owns_boot input)) as HS. rewrite E in HS.
  destruct (Scanner_dtor_spec ∅ w HS) as (w' & ? & Hd & Hq).
  exists w'. split; [done|]. split; [by apply dom_empty_inv_L|done].
Qed.

Lemma Scan_then_destructor_frees_all_witness :
  let w := world_of (Ref.run_Scan 20 "a: [b, c]") in
  Ref.run_Scan 20 "a: [b, c]" = Ret tt w
  /\ m_endedStream (scanner w) = true
  /\ exists w', Scanner_dtor w = Ret tt w' /\ store w' = ∅
                /\ m_tokens (scanner w') = [].
Proof.
  intros w.
  assert (E : Scan 20 (boot (list_ascii_of_string "a: [b, c]")) = Ret tt w).
  { vm_compute. reflexivity. }
  split; [exact E|].
  exact (Scan_then_destructor_frees_all Ref_keeps_ownership
           (list_ascii_of_string "a: [b, c]") 20 w E).
Defined.
